(** * gamecache: a write-back cache in front of gorm, over gcache

    Shallow embedding of [src/cachedb/cachewriter.go].

    The Go program works on arbitrary values through package [reflect].
    Values are modelled with the reflect kinds the code switches on; the
    reference kinds (pointer, slice, map) point into an explicit heap, so
    that a value graph can share cells and can be cyclic.  Floating point,
    complex, channel and unsafe-pointer kinds are left out: the code sends
    them, like every scalar, to the [default] branch of [copyRecursive].

    Every function that recurses through the heap takes a [fuel] argument;
    running out of fuel is the outcome [Diverge] and stands for unbounded
    recursion of the Go program.

    The collaborators are modelled by what they do for this program:
    [reflect.DeepEqual] by its documented cases, the LRU cache of gcache by
    its [Get], [Set], [Remove] and [Purge] with the callbacks [NewWithCache]
    installs, the clock by the time each call is given, and gorm by two
    functions the development is parametric in. *)

From Stdlib Require Import ZArith Lia.
From stdpp Require Import base option list gmap strings.

Local Set Warnings "-register-all,-clear-no-such-hyp".

(** ** Values, as package reflect sees them *)

Abbreviation loc := nat (only parsing).

(** [reflect.StructField]: the name and the package path, which is empty
    exactly for exported fields. *)
Record field := Field { fname : string; pkgPath : string }.

Definition exported (f : field) : bool := String.eqb (pkgPath f) "".

(** Keys of Go maps: scalar, comparable values. *)
Inductive mkey :=
| KInt (z : Z)
| KString (s : string)
| KBool (b : bool).

Inductive value :=
| VBool (b : bool)
| VInt (z : Z)
| VString (s : string)
| VFunc (f : option nat)                  (* nil, or the identity of a closure *)
| VArray (xs : list value)                (* [n]T, stored inline *)
| VStruct (fs : list (field * value))     (* fields in declaration order *)
| VPtr (p : option loc)                   (* nil, or the cell pointed to *)
| VIface (x : option (string * value))    (* nil, or dynamic type and value *)
| VSlice (s : option (loc * nat * nat))   (* nil, or backing array, len, cap *)
| VMap (m : option loc).                  (* nil, or the map's cell *)

Inductive cell :=
| CVar (v : value)                        (* a variable, target of a pointer *)
| CArr (xs : list value)                  (* backing array of a slice *)
| CMap (m : list (mkey * value)).         (* entries of a map, keys distinct *)

Abbreviation heap := (list cell) (only parsing).

Global Instance field_eq_dec : EqDecision field.
Proof. solve_decision. Defined.

Global Instance mkey_eq_dec : EqDecision mkey.
Proof. solve_decision. Defined.

(** Zero value of the type of [v]: what [reflect.New(v.Type()).Elem()]
    holds. *)
Fixpoint zeroOf (v : value) : value :=
  match v with
  | VBool _ => VBool false
  | VInt _ => VInt 0%Z
  | VString _ => VString ""
  | VFunc _ => VFunc None
  | VArray xs => VArray (map zeroOf xs)
  | VStruct fs => VStruct (map (fun p => (fst p, zeroOf (snd p))) fs)
  | VPtr _ => VPtr None
  | VIface _ => VIface None
  | VSlice _ => VSlice None
  | VMap _ => VMap None
  end.

(** ** Outcomes of a Go computation over a state *)

Inductive outcome (S A : Type) :=
| Ret (s : S) (a : A)       (* returns normally *)
| Panic (s : S)             (* panics; the state reached is kept for recover *)
| Diverge.                  (* out of fuel: unbounded recursion *)
Arguments Ret {S A} s a.
Arguments Panic {S A} s.
Arguments Diverge {S A}.

Definition M (S A : Type) : Type := S -> outcome S A.

Definition ret {S A} (a : A) : M S A := fun s => Ret s a.

Definition bind {S A B} (m : M S A) (f : A -> M S B) : M S B :=
  fun s => match m s with
           | Ret s' a => f a s'
           | Panic s' => Panic s'
           | Diverge => Diverge
           end.

Definition panic {S A} : M S A := fun s => Panic s.

Notation "'let*' x ':=' m 'in' k" := (bind m (fun x => k))
  (at level 10, x name, m at level 100, k at level 200).

Fixpoint mapM {S A B} (f : A -> M S B) (xs : list A) : M S (list B) :=
  match xs with
  | [] => ret []
  | x :: xs' => let* b := f x in let* bs := mapM f xs' in ret (b :: bs)
  end.

(** [reflect.New] and friends: a fresh cell at the end of the heap. *)
Definition alloc (c : cell) : M heap loc := fun h => Ret (h ++ [c]) (length h).

(** ** The deep-copy engine *)

(** One iteration of the struct loop of [copyRecursive]: the original field
    [p.1] against the field [p.2] of the copy. *)
Definition copyField (rec : value -> value -> M heap value)
    (p : (field * value) * (field * value)) : M heap (field * value) :=
  let '((fld, x), (cfld, c)) := p in
  if negb (String.eqb (pkgPath fld) "") then ret (cfld, c)   (* continue *)
  else let* c' := rec x c in ret (cfld, c').

(** [copyRecursive(original, cpy)].  The destination [cpy] is passed as the
    value it holds on entry and the value it holds on return is the result.
    A cell made by [reflect.New], [reflect.MakeSlice] or [reflect.MakeMap]
    is appended to the heap once its content is known. *)
Fixpoint copyRecursive (fuel : nat) (original cpy : value) : M heap value :=
  match fuel with
  | O => fun _ => Diverge
  | S n =>
    match original with
    | VPtr None => ret cpy
    | VPtr (Some l) => fun h =>
        match h !! l with
        | Some (CVar x) =>
            (let* c := copyRecursive n x (zeroOf x) in
             let* l' := alloc (CVar c) in
             ret (VPtr (Some l'))) h
        | _ => Panic h
        end
    | VIface None => ret cpy
    | VIface (Some (t, x)) =>
        let* c := copyRecursive n x (zeroOf x) in
        ret (VIface (Some (t, c)))
    | VStruct fs =>
        match cpy with
        | VStruct cfs =>
            if decide (length cfs = length fs) then
              let* cfs' := mapM (copyField (copyRecursive n)) (zip fs cfs) in
              ret (VStruct cfs')
            else panic
        | _ => panic
        end
    | VSlice None => ret cpy
    | VSlice (Some (l, len, cap)) => fun h =>
        match h !! l with
        | Some (CArr xs) =>
            if decide (len <= cap <= length xs)%nat then
              (let* cs := mapM (fun x => copyRecursive n x (zeroOf x)) (take len xs) in
               let* l' := alloc (CArr (cs ++ map zeroOf (drop len (take cap xs)))) in
               ret (VSlice (Some (l', len, cap)))) h
            else Panic h
        | _ => Panic h
        end
    | VMap None => ret cpy
    | VMap (Some l) => fun h =>
        match h !! l with
        | Some (CMap m) =>
            (let* m' := mapM (fun kv => let* c := copyRecursive n (snd kv) (zeroOf (snd kv)) in
                                        ret (fst kv, c)) m in
             let* l' := alloc (CMap m') in
             ret (VMap (Some l'))) h
        | _ => Panic h
        end
    | _ => ret original
    end
  end.

(** [deepCopy(src)].  [reflect.ValueOf] takes its argument as an empty
    interface: a nil interface gives the zero [reflect.Value], on which
    [Type()] panics, and a non-nil one is unwrapped to its dynamic value. *)
Definition deepCopy (fuel : nat) (src : value) : M heap value :=
  match src with
  | VIface None => panic
  | VIface (Some (t, x)) =>
      let* c := copyRecursive fuel x (zeroOf x) in ret (VIface (Some (t, c)))
  | _ => copyRecursive fuel src (zeroOf src)
  end.

(** ** reflect.DeepEqual *)

(** A loop that returns false at the first element for which [f] does. *)
Fixpoint allM {A} (f : A -> option bool) (xs : list A) : option bool :=
  match xs with
  | [] => Some true
  | x :: xs' =>
      match f x with
      | Some true => allM f xs'
      | r => r
      end
  end.

(** [MapIndex]: the value under a key. *)
Fixpoint mapIndex (m : list (mkey * value)) (k : mkey) : option value :=
  match m with
  | [] => None
  | (k', x) :: m' => if decide (k' = k) then Some x else mapIndex m' k
  end.

(** [deepValueEqual] of package reflect, by its documented cases.  Two
    operands of different types are unequal; in the model, values at the
    same position have the same static type and an interface carries the
    name of its dynamic type.  All fields of a struct are compared,
    exported or not.  The table of visited pointer pairs, by which reflect
    cuts cycles, is not modelled: on operands that are both cyclic the model
    runs out of fuel ([None]). *)
Fixpoint deepValueEqual (fuel : nat) (h : heap) (v1 v2 : value) : option bool :=
  match fuel with
  | O => None
  | S n =>
    match v1, v2 with
    | VBool a, VBool b => Some (bool_decide (a = b))
    | VInt a, VInt b => Some (bool_decide (a = b))
    | VString a, VString b => Some (bool_decide (a = b))
    | VFunc f, VFunc g =>
        Some (match f, g with None, None => true | _, _ => false end)
    | VArray xs, VArray ys =>
        if decide (length xs = length ys) then
          allM (fun p => deepValueEqual n h (fst p) (snd p)) (zip xs ys)
        else Some false
    | VStruct fs, VStruct gs =>
        if decide (length fs = length gs) then
          allM (fun p => deepValueEqual n h (snd (fst p)) (snd (snd p))) (zip fs gs)
        else Some false
    | VIface None, VIface None => Some true
    | VIface (Some (t1, x)), VIface (Some (t2, y)) =>
        if decide (t1 = t2) then deepValueEqual n h x y else Some false
    | VPtr None, VPtr None => Some true
    | VPtr (Some l1), VPtr (Some l2) =>
        if decide (l1 = l2) then Some true
        else match h !! l1, h !! l2 with
             | Some (CVar x), Some (CVar y) => deepValueEqual n h x y
             | _, _ => None
             end
    | VSlice None, VSlice None => Some true
    | VSlice (Some (l1, n1, _)), VSlice (Some (l2, n2, _)) =>
        if decide (n1 = n2) then
          if decide (l1 = l2) then Some true
          else match h !! l1, h !! l2 with
               | Some (CArr xs), Some (CArr ys) =>
                   allM (fun p => deepValueEqual n h (fst p) (snd p))
                        (zip (take n1 xs) (take n2 ys))
               | _, _ => None
               end
        else Some false
    | VMap None, VMap None => Some true
    | VMap (Some l1), VMap (Some l2) =>
        if decide (l1 = l2) then Some true
        else match h !! l1, h !! l2 with
             | Some (CMap m1), Some (CMap m2) =>
                 if decide (length m1 = length m2) then
                   allM (fun k => match mapIndex m1 k, mapIndex m2 k with
                                  | Some x, Some y => deepValueEqual n h x y
                                  | _, _ => Some false
                                  end) (map fst m1)
                 else Some false
             | _, _ => None
             end
    | _, _ => Some false
    end
  end.

(** ** Structural equality over exported state

    The comparison the specification speaks of: as above, but the fields of
    a struct that are not exported are left out, and two functions are equal
    when they are the same function. *)
Fixpoint eqExported (fuel : nat) (h : heap) (v1 v2 : value) : bool :=
  match fuel with
  | O => false
  | S n =>
    match v1, v2 with
    | VBool a, VBool b => bool_decide (a = b)
    | VInt a, VInt b => bool_decide (a = b)
    | VString a, VString b => bool_decide (a = b)
    | VFunc f, VFunc g => bool_decide (f = g)
    | VArray xs, VArray ys =>
        bool_decide (length xs = length ys)
        && forallb (fun p => eqExported n h (fst p) (snd p)) (zip xs ys)
    | VStruct fs, VStruct gs =>
        bool_decide (length fs = length gs)
        && forallb (fun p => bool_decide (fst (fst p) = fst (snd p))
                             && (negb (exported (fst (fst p)))
                                 || eqExported n h (snd (fst p)) (snd (snd p))))
                   (zip fs gs)
    | VIface None, VIface None => true
    | VIface (Some (t1, x)), VIface (Some (t2, y)) =>
        bool_decide (t1 = t2) && eqExported n h x y
    | VPtr None, VPtr None => true
    | VPtr (Some l1), VPtr (Some l2) =>
        bool_decide (l1 = l2)
        || match h !! l1, h !! l2 with
           | Some (CVar x), Some (CVar y) => eqExported n h x y
           | _, _ => false
           end
    | VSlice None, VSlice None => true
    | VSlice (Some (l1, n1, _)), VSlice (Some (l2, n2, _)) =>
        bool_decide (n1 = n2)
        && (bool_decide (l1 = l2)
            || match h !! l1, h !! l2 with
               | Some (CArr xs), Some (CArr ys) =>
                   bool_decide (n1 <= length xs)%nat
                   && bool_decide (n2 <= length ys)%nat
                   && forallb (fun p => eqExported n h (fst p) (snd p))
                              (zip (take n1 xs) (take n2 ys))
               | _, _ => false
               end)
    | VMap None, VMap None => true
    | VMap (Some l1), VMap (Some l2) =>
        bool_decide (l1 = l2)
        || match h !! l1, h !! l2 with
           | Some (CMap m1), Some (CMap m2) =>
               bool_decide (length m1 = length m2)
               && forallb (fun k => match mapIndex m1 k, mapIndex m2 k with
                                    | Some x, Some y => eqExported n h x y
                                    | _, _ => false
                                    end) (map fst m1)
           | _, _ => false
           end
    | _, _ => false
    end
  end.

(** [IsZero] of reflect: the value is the zero value of its type. *)
Fixpoint isZero (v : value) : bool :=
  match v with
  | VBool b => negb b
  | VInt z => bool_decide (z = 0%Z)
  | VString s => bool_decide (s = "")
  | VFunc f => bool_decide (f = None)
  | VArray xs => forallb isZero xs
  | VStruct fs => forallb (fun p => isZero (snd p)) fs
  | VPtr p => bool_decide (p = None)
  | VIface None => true
  | VIface (Some _) => false
  | VSlice s => bool_decide (s = None)
  | VMap m => bool_decide (m = None)
  end.

(** ** Values that a deep copy reproduces

    [selfEqual v]: [reflect.DeepEqual] finds [v] equal to itself; no
    function that is not nil lies in it, references not followed. *)
Fixpoint selfEqual (v : value) : bool :=
  match v with
  | VFunc f => bool_decide (f = None)
  | VArray xs => forallb selfEqual xs
  | VStruct fs => forallb (fun p => selfEqual (snd p)) fs
  | VIface (Some (_, x)) => selfEqual x
  | _ => true
  end.

(** [reproducible n h v]: the graph of [v] is acyclic within [n]; every
    unexported field in it holds a zero value, and it holds no function that
    is not nil. *)
Fixpoint reproducible (fuel : nat) (h : heap) (v : value) : bool :=
  match fuel with
  | O => false
  | S n =>
    match v with
    | VFunc f => bool_decide (f = None)
    | VArray xs => forallb selfEqual xs
    | VStruct fs =>
        forallb (fun p => if exported (fst p) then reproducible n h (snd p)
                          else isZero (snd p)) fs
    | VPtr (Some l) =>
        match h !! l with
        | Some (CVar x) => reproducible n h x
        | _ => false
        end
    | VIface (Some (_, x)) => reproducible n h x
    | VSlice (Some (l, len, cap)) =>
        match h !! l with
        | Some (CArr xs) =>
            bool_decide (len <= cap <= length xs)%nat
            && forallb (reproducible n h) (take len xs)
        | _ => false
        end
    | VMap (Some l) =>
        match h !! l with
        | Some (CMap m) => forallb (fun kv => reproducible n h (snd kv)) m
        | _ => false
        end
    | _ => true
    end
  end.

(** Nesting of a value in itself, references not followed. *)
Fixpoint inlineDepth (v : value) : nat :=
  match v with
  | VArray xs => S (max_list (map inlineDepth xs))
  | VStruct fs => S (max_list (map (fun p => inlineDepth (snd p)) fs))
  | VIface (Some (_, x)) => S (inlineDepth x)
  | _ => 1
  end.

(** ** Acyclic value graphs

    [acyclicWithin n h v]: every chain of references that starts at [v]
    ends within [n] steps, in cells of the right kind.  A value graph with
    a cycle has no such [n]. *)
Fixpoint acyclicWithin (fuel : nat) (h : heap) (v : value) : bool :=
  match fuel with
  | O => false
  | S n =>
    match v with
    | VArray xs => forallb (acyclicWithin n h) xs
    | VStruct fs => forallb (fun p => acyclicWithin n h (snd p)) fs
    | VPtr (Some l) =>
        match h !! l with
        | Some (CVar x) => acyclicWithin n h x
        | _ => false
        end
    | VIface (Some (_, x)) => acyclicWithin n h x
    | VSlice (Some (l, len, cap)) =>
        match h !! l with
        | Some (CArr xs) =>
            bool_decide (len <= cap <= length xs)%nat
            && forallb (acyclicWithin n h) (take len xs)
        | _ => false
        end
    | VMap (Some l) =>
        match h !! l with
        | Some (CMap m) => forallb (fun kv => acyclicWithin n h (snd kv)) m
        | _ => false
        end
    | _ => true
    end
  end.

Definition acyclic (h : heap) (v : value) : Prop :=
  exists n, acyclicWithin n h v = true.

(** ** Sample values *)

Definition fld (name : string) : field := Field name "".
Definition unexportedFld (name : string) : field := Field name "cachedb".

(** [User{ID, Name, Age}] of the test and the README. *)
Definition mkUser (id : Z) (name : string) (age : Z) : value :=
  VStruct [(fld "ID", VInt id); (fld "Name", VString name); (fld "Age", VInt age)].

(** [type Node struct { Val int; Next *Node }] *)
Definition mkNode (val : Z) (next : option loc) : value :=
  VStruct [(fld "Val", VInt val); (fld "Next", VPtr next)].

(** A list of one node whose [Next] points back to the node itself, which
    lives in cell 0. *)
Definition selfLoop : value := mkNode 1 (Some 0%nat).
Definition selfLoopHeap : heap := [CVar selfLoop].

(** [type Account struct { ID uint; Name string; visits int }] *)
Definition mkAccount (id : Z) (name : string) (visits : Z) : value :=
  VStruct [(fld "ID", VInt id); (fld "Name", VString name);
           (unexportedFld "visits", VInt visits)].

(** ** The synchronizer: CacheDB over gcache and gorm *)

(** Errors of gorm. *)
Inductive dberr :=
| ErrRecordNotFound
| ErrOther (msg : string).

(** The [error] values the program builds or passes on. *)
Inductive error :=
| ELoad (e : dberr)          (* "failed to load from DB: %w" *)
| ENoCopy (key : Z)          (* "no copy found for key %v" *)
| EInvalidType (key : Z)     (* "invalid value type for key %v" *)
| EUpdate (e : dberr)        (* "failed to update: %w" *)
| ELoaderPanics.             (* gcache: "Loader panics: %v" *)

Inductive result (A : Type) :=
| Ok (a : A)
| Err (e : error).
Arguments Ok {A} a.
Arguments Err {A} e.

(** An [interface{}] held by the cache: a [*T] (possibly nil) or a value of
    another dynamic type. *)
Inductive boxed :=
| BoxPtrT (p : option loc)
| BoxOther (tag : nat).

(** What the program sends out: the lines it prints and the updates it asks
    of the store. *)
Inductive event :=
| LogEvictSaveFailed (e : error)     (* "Evict save failed: %v" *)
| LogPurgeSaveFailed (e : error)     (* "Purge save failed: %v" *)
| LogEvicted (key : Z)               (* "Evicted from cache: key=%v" *)
| LogPurged (key : Z)                (* "Purged from cache: key=%v" *)
| LogSaved (key : Z)                 (* "Saved changes for key %v" *)
| LogAdded (key : Z)                 (* "New cache added: key=%v" *)
| CallUpdates (old new : value).     (* db.Model(&old).Updates(&new) *)

(** The updates asked of the store, in order. *)
Fixpoint updatesIn (evs : list event) : list (value * value) :=
  match evs with
  | [] => []
  | CallUpdates old new :: evs' => (old, new) :: updatesIn evs'
  | _ :: evs' => updatesIn evs'
  end.

(** The line [purgeToDB] prints where [evictToDB] prints [e]. *)
Definition asPurge (e : event) : event :=
  match e with
  | LogEvictSaveFailed err => LogPurgeSaveFailed err
  | LogEvicted key => LogPurged key
  | _ => e
  end.

(** An entry of the LRU cache. *)
Record item := Item { ikey : Z; ivalue : boxed; iexpiration : Z }.

(** [Expiration(time.Second * 2)], the clock counting nanoseconds. *)
Definition expiration : Z := 2 * 1000000000.

(** ** A store in memory

    Rows by primary key.  [Updates] with a struct writes the fields of the
    struct that are not zero, as gorm does. *)
Abbreviation memDB := (list (Z * value)) (only parsing).

Fixpoint memRow (d : memDB) (key : Z) : option value :=
  match d with
  | [] => None
  | (k, row) :: d' => if decide (k = key) then Some row else memRow d' key
  end.

Definition memFirst (d : memDB) (h : heap) (key : Z) : dberr + (list cell * value) :=
  match memRow d key with
  | Some row => inr ([], row)
  | None => inl ErrRecordNotFound
  end.

Definition primaryKey (v : value) : option Z :=
  match v with
  | VStruct ((_, VInt id) :: _) => Some id
  | _ => None
  end.

Definition mergeNonZero (row new : value) : value :=
  match row, new with
  | VStruct rs, VStruct ns =>
      VStruct (map (fun p => if isZero (snd (snd p)) || negb (exported (fst (snd p)))
                             then fst p else snd p) (zip rs ns))
  | _, _ => new
  end.

Definition memUpdates (d : memDB) (h : heap) (old new : value) : memDB * option dberr :=
  match primaryKey old with
  | Some key =>
      match memRow d key with
      | Some _ =>
          (map (fun kr => if decide (fst kr = key)
                          then (fst kr, mergeNonZero (snd kr) new) else kr) d, None)
      | None => (d, Some ErrRecordNotFound)
      end
  | None => (d, Some (ErrOther "no primary key"))
  end.

(** A store whose updates fail. *)
Definition brokenUpdates (d : memDB) (h : heap) (old new : value) : memDB * option dberr :=
  (d, Some (ErrOther "database is locked")).


(** The store of the README: one user. *)
Definition store1 : list (Z * value) := [(1%Z, mkUser 1 "Zhang" 19)].

Section Synchronizer.

(** The persistent store is an external collaborator: [dbFirst] stands for
    [db.First(&entity, key)], which gives the entity it filled and the cells
    it allocated for it, and [dbUpdates] for [db.Model(&old).Updates(new)]. *)
Variable DB : Type.
Variable dbFirst : DB -> heap -> Z -> dberr + (list cell * value).
Variable dbUpdates : DB -> heap -> value -> value -> DB * option dberr.

(** The struct [CacheDB[T]] with the cache it owns, the heap it lives in
    and the output produced so far. *)
Record state := State {
  db : DB;
  mem : heap;
  copies : gmap Z value;       (* c.copies *)
  items : list item;           (* c.Cache: most recently used first *)
  size : Z;                    (* capacity given to gcache.New *)
  trace : list event
}.

Definition setDb (d : DB) (st : state) : state :=
  State d (mem st) (copies st) (items st) (size st) (trace st).
Definition setMem (h : heap) (st : state) : state :=
  State (db st) h (copies st) (items st) (size st) (trace st).
Definition setCopies (c : gmap Z value) (st : state) : state :=
  State (db st) (mem st) c (items st) (size st) (trace st).
Definition setItems (l : list item) (st : state) : state :=
  State (db st) (mem st) (copies st) l (size st) (trace st).
Definition addEvent (e : event) (st : state) : state :=
  State (db st) (mem st) (copies st) (items st) (size st) (trace st ++ [e]).

Definition modify (f : state -> state) : M state unit := fun st => Ret (f st) tt.

(** Runs a heap computation on the heap of the state. *)
Definition onHeap {A} (m : M heap A) : M state A :=
  fun st => match m (mem st) with
            | Ret h a => Ret (setMem h st) a
            | Panic h => Panic (setMem h st)
            | Diverge => Diverge
            end.

(** [defer func() { if r := recover(); r != nil { ... } }()] *)
Definition recover {A} (m handler : M state A) : M state A :=
  fun st => match m st with
            | Panic st' => handler st'
            | r => r
            end.

(** [loadFromDB]: the LoaderFunc. *)
Definition loadFromDB (fuel : nat) (key : Z) : M state (result boxed) :=
  fun st =>
    match dbFirst (db st) (mem st) key with
    | inl err => Ret st (Err (ELoad err))
    | inr (cells, entity) =>
        (let* copy := onHeap (deepCopy fuel entity) in
         let* _ := modify (fun s => setCopies (<[key := copy]> (copies s)) s) in
         let* l := onHeap (alloc (CVar entity)) in
         ret (Ok (BoxPtrT (Some l)))) (setMem (mem st ++ cells) st)
    end.

(** [saveIfModified] *)
Definition saveIfModified (fuel : nat) (key : Z) (newValue : boxed)
    : M state (option error) :=
  fun st =>
    match copies st !! key with
    | None => Ret st (Some (ENoCopy key))
    | Some oldCopy =>
        match newValue with
        | BoxOther _ => Ret st (Some (EInvalidType key))
        | BoxPtrT newVal =>
            match newVal ≫= (fun l => mem st !! l) with
            | Some (CVar cur) =>
                match deepValueEqual fuel (mem st) oldCopy cur with
                | None => Diverge
                | Some true => Ret st None
                | Some false =>
                    let '(d, r) := dbUpdates (db st) (mem st) oldCopy cur in
                    let st' := addEvent (CallUpdates oldCopy cur) (setDb d st) in
                    match r with
                    | Some err => Ret st' (Some (EUpdate err))
                    | None => Ret (addEvent (LogSaved key) st') None
                    end
                end
            | _ => Panic st            (* nil pointer dereference *)
            end
        end
    end.

(** [evictToDB]: the EvictedFunc. *)
Definition evictToDB (fuel : nat) (key : Z) (value : boxed) : M state unit :=
  let* err := saveIfModified fuel key value in
  let* _ := match err with
            | Some e => modify (addEvent (LogEvictSaveFailed e))
            | None => ret tt
            end in
  let* _ := modify (fun s => setCopies (delete key (copies s)) s) in
  modify (addEvent (LogEvicted key)).

(** [purgeToDB]: the PurgeVisitorFunc. *)
Definition purgeToDB (fuel : nat) (key : Z) (value : boxed) : M state unit :=
  let* err := saveIfModified fuel key value in
  let* _ := match err with
            | Some e => modify (addEvent (LogPurgeSaveFailed e))
            | None => ret tt
            end in
  let* _ := modify (fun s => setCopies (delete key (copies s)) s) in
  modify (addEvent (LogPurged key)).

(** [logCacheAdd]: the AddedFunc. *)
Definition logCacheAdd (key : Z) (value : boxed) : M state unit :=
  modify (addEvent (LogAdded key)).

(** *** The cache core

    Model of the LRU cache of github.com/bluele/gcache as [NewWithCache]
    builds it: least recently used entry evicted at capacity, entries
    expiring two seconds after they were set and removed when a [Get] finds
    them expired, with [evictToDB], [purgeToDB], [logCacheAdd] and
    [loadFromDB] as its callbacks. *)

Fixpoint findItem (key : Z) (l : list item) : option item :=
  match l with
  | [] => None
  | it :: l' => if decide (ikey it = key) then Some it else findItem key l'
  end.

Definition dropItem (key : Z) (l : list item) : list item :=
  filter (fun it => ikey it <> key) l.

Definition isExpired (now : Z) (it : item) : bool := (iexpiration it <? now)%Z.

(** gcache [removeElement]: unlink the entry, then call the EvictedFunc. *)
Definition removeElement (fuel : nat) (it : item) : M state unit :=
  let* _ := modify (fun s => setItems (dropItem (ikey it) (items s)) s) in
  evictToDB fuel (ikey it) (ivalue it).

(** gcache [evict(1)]: remove the entry at the back of the list. *)
Definition lruEvict (fuel : nat) : M state unit :=
  fun st => match last (items st) with
            | None => Ret st tt
            | Some it => removeElement fuel it st
            end.

(** gcache [set] *)
Definition lruSet (fuel : nat) (now : Z) (key : Z) (value : boxed) : M state unit :=
  fun st =>
    (let* _ := match findItem key (items st) with
               | Some _ => ret tt
               | None =>
                   if decide (size st <= Z.of_nat (length (items st)))%Z
                   then lruEvict fuel else ret tt
               end in
     let* _ := modify (fun s =>
                 setItems (Item key value (now + expiration) :: dropItem key (items s)) s) in
     logCacheAdd key value) st.

(** gcache [getValue]: a hit moves the entry to the front; an entry found
    expired is removed through [removeElement]. *)
Definition lruGetValue (fuel : nat) (now : Z) (key : Z) : M state (option boxed) :=
  fun st =>
    match findItem key (items st) with
    | Some it =>
        if isExpired now it then
          (let* _ := removeElement fuel it in ret None) st
        else Ret (setItems (it :: dropItem key (items st)) st) (Some (ivalue it))
    | None => Ret st None
    end.

(** gcache [getWithLoader]: the loader runs and its result is set; a panic
    of the loader or of the set is recovered into an error. *)
Definition lruGetWithLoader (fuel : nat) (now : Z) (key : Z) : M state (result boxed) :=
  recover
    (let* r := loadFromDB fuel key in
     match r with
     | Err e => ret (Err e)
     | Ok v => let* _ := lruSet fuel now key v in ret (Ok v)
     end)
    (ret (Err ELoaderPanics)).

(** gcache [Get] *)
Definition lruGet (fuel : nat) (now : Z) (key : Z) : M state (result boxed) :=
  let* r := lruGetValue fuel now key in
  match r with
  | Some v => ret (Ok v)
  | None => lruGetWithLoader fuel now key
  end.

(** gcache [Purge]: visit every entry, then drop them all. *)
Definition lruPurge (fuel : nat) : M state unit :=
  fun st =>
    (let* _ := mapM (fun it => purgeToDB fuel (ikey it) (ivalue it)) (items st) in
     modify (setItems [])) st.

(** gcache [Remove]: eviction of one key at the cache's initiative. *)
Definition lruRemove (fuel : nat) (key : Z) : M state unit :=
  fun st => match findItem key (items st) with
            | Some it => removeElement fuel it st
            | None => Ret st tt
            end.

(** *** The API of CacheDB *)

(** [NewWithCache]; gcache's [Build] panics on a size that is not
    positive. *)
Definition NewWithCache (d : DB) (sz : Z) (h : heap) : option state :=
  if decide (sz <= 0)%Z then None else Some (State d h ∅ [] sz []).

(** [Get] *)
Definition Get (fuel : nat) (now : Z) (key : Z) : M state (result (option loc)) :=
  let* r := lruGet fuel now key in
  match r with
  | Err e => ret (Err e)
  | Ok (BoxPtrT p) => ret (Ok p)
  | Ok (BoxOther _) => panic          (* val.( *T) *)
  end.

(** [Set]; the parameter [value] is a variable of its own, which [&value]
    makes the live entry. *)
Definition Set_ (fuel : nat) (now : Z) (key : Z) (value : value) : M state (option error) :=
  let* copy := onHeap (deepCopy fuel value) in
  let* _ := modify (fun s => setCopies (<[key := copy]> (copies s)) s) in
  let* l := onHeap (alloc (CVar value)) in
  let* _ := lruSet fuel now key (BoxPtrT (Some l)) in
  ret None.

(** [c.Cache.Purge()] *)
Definition Purge (fuel : nat) : M state unit := lruPurge fuel.

(** An assignment by the caller through a pointer it holds, such as
    [u.Name = "Li"]: the variable at [l] now holds [v]. *)
Definition assign (l : loc) (v : value) : M state unit :=
  fun st => match mem st !! l with
            | Some (CVar _) => Ret (setMem (<[l := CVar v]> (mem st)) st) tt
            | _ => Panic st
            end.

(** Every entry of the cache is a live [*T] whose comparison with its
    baseline comes to an end within [n] steps. *)
Definition settled (n : nat) (st : state) : Prop :=
  forall it, it ∈ items st ->
    exists l cur,
      ivalue it = BoxPtrT (Some l) /\ mem st !! l = Some (CVar cur)
      /\ forall old, copies st !! ikey it = Some old ->
           exists r, deepValueEqual n (mem st) old cur = Some r.

(** *** Histories *)

Inductive op :=
| OpGet (now key : Z)                  (* c.Get(key) *)
| OpSet (now key : Z) (v : value)      (* c.Set(key, v) *)
| OpAssign (l : loc) (v : value)       (* the caller writes through a pointer *)
| OpRemove (key : Z)                   (* the cache evicts key *)
| OpPurge.                             (* c.Cache.Purge() *)

Definition step (fuel : nat) (o : op) : M state unit :=
  match o with
  | OpGet now key => let* _ := Get fuel now key in ret tt
  | OpSet now key v => let* _ := Set_ fuel now key v in ret tt
  | OpAssign l v => assign l v
  | OpRemove key => lruRemove fuel key
  | OpPurge => Purge fuel
  end.

Fixpoint run (fuel : nat) (ops : list op) : M state unit :=
  match ops with
  | [] => ret tt
  | o :: ops' => let* _ := step fuel o in run fuel ops'
  end.


(** The history of the baselines: for each key, the live entry at the moment
    its baseline was last recorded, with the heap of that moment.  [observe]
    follows one operation from [st] to [st']: a [Set] records its argument,
    a [Get] that missed and loaded records the entity it loaded. *)
Definition isHit (now key : Z) (st : state) : bool :=
  match findItem key (items st) with
  | Some it => negb (isExpired now it)
  | None => false
  end.

Definition liveValue (key : Z) (st : state) : option value :=
  match findItem key (items st) with
  | Some (Item _ (BoxPtrT (Some l)) _) =>
      match mem st !! l with
      | Some (CVar v) => Some v
      | _ => None
      end
  | _ => None
  end.

Definition observe (o : op) (st st' : state) (g : gmap Z (heap * value))
    : gmap Z (heap * value) :=
  match o with
  | OpSet _ key v => <[key := (mem st', v)]> g
  | OpGet now key =>
      if isHit now key st then g
      else match liveValue key st' with
           | Some v => <[key := (mem st', v)]> g
           | None => g
           end
  | _ => g
  end.

Fixpoint runHist (fuel : nat) (ops : list op) (g : gmap Z (heap * value))
    : M state (gmap Z (heap * value)) :=
  match ops with
  | [] => ret g
  | o :: ops' => fun st =>
      match step fuel o st with
      | Ret st' _ => runHist fuel ops' (observe o st st' g) st'
      | Panic st' => Panic st'
      | Diverge => Diverge
      end
  end.

(** What [saveIfModified] has done when it returns: nothing but, at most,
    one update of the store with its log line. *)
Definition afterSave (err : option error) (evs : list event) (st s : state) : Prop :=
  mem s = mem st /\ copies s = copies st /\ items s = items st /\ size s = size st
  /\ trace s = trace st ++ evs /\ (evs = [] -> db s = db st).

(** The end of [evictToDB] and of [purgeToDB], after [saveIfModified]. *)
Definition afterCallback (failed : error -> event) (done_ : event) (key : Z)
    (err : option error) (s : state) : state :=
  addEvent done_
    (setCopies (delete key (copies s))
       (match err with Some e => addEvent (failed e) s | None => s end)).

(** An entry that holds a pointer to a variable. *)
Definition live (h : heap) (it : item) : Prop :=
  exists l cur, ivalue it = BoxPtrT (Some l) /\ h !! l = Some (CVar cur).

Definition keysOf (l : list item) : gset Z := list_to_set (map ikey l).

(** The snapshot registry and the cache hold the same keys, and the cache
    holds live pointers. *)
Definition inSync (st : state) : Prop :=
  dom (copies st) = keysOf (items st) /\ Forall (live (mem st)) (items st).

(** Every baseline equals, over exported state, the live entry of the
    moment it was recorded. *)
Definition baselinesFaithful (st : state) (g : gmap Z (heap * value)) : Prop :=
  forall key b, copies st !! key = Some b ->
    exists h0 v0 n, g !! key = Some (h0, v0) /\ eqExported n h0 b v0 = true.

(** During a purge the heap and the entries stay and baselines only go. *)
Definition purging (s s' : state) : Prop :=
  mem s' = mem s /\ items s' = items s
  /\ forall k b, copies s' !! k = Some b -> copies s !! k = Some b.


(** ** What a copy shares with its original *)

(** A boolean, an integer or a string. *)
Definition scalar (v : value) : bool :=
  match v with
  | VBool _ | VInt _ | VString _ => true
  | _ => false
  end.

(** No pointer, slice or map that is not nil lies in [v] itself. *)
Fixpoint noRefs (v : value) : bool :=
  match v with
  | VArray xs => forallb noRefs xs
  | VStruct fs => forallb (fun p => noRefs (snd p)) fs
  | VPtr p => bool_decide (p = None)
  | VIface (Some (_, x)) => noRefs x
  | VSlice s => bool_decide (s = None)
  | VMap m => bool_decide (m = None)
  | _ => true
  end.

(** [arraysHoldNoRefs n h v]: on the way [copyRecursive] takes through [v],
    which ends within [n] steps, every array holds no reference. *)
Fixpoint arraysHoldNoRefs (fuel : nat) (h : heap) (v : value) : bool :=
  match fuel with
  | O => false
  | S n =>
    match v with
    | VArray xs => forallb noRefs xs
    | VStruct fs =>
        forallb (fun p => if exported (fst p) then arraysHoldNoRefs n h (snd p)
                          else true) fs
    | VPtr (Some l) =>
        match h !! l with
        | Some (CVar x) => arraysHoldNoRefs n h x
        | _ => false
        end
    | VIface (Some (_, x)) => arraysHoldNoRefs n h x
    | VSlice (Some (l, len, cap)) =>
        match h !! l with
        | Some (CArr xs) => forallb (arraysHoldNoRefs n h) (take len xs)
        | _ => false
        end
    | VMap (Some l) =>
        match h !! l with
        | Some (CMap m) => forallb (fun kv => arraysHoldNoRefs n h (snd kv)) m
        | _ => false
        end
    | _ => true
    end
  end.

(** [ownedWithin n k h v]: every cell that [v] reaches, within [n] steps,
    lies at [k] or above. *)
Fixpoint ownedWithin (fuel : nat) (k : nat) (h : heap) (v : value) : bool :=
  match fuel with
  | O => false
  | S n =>
    match v with
    | VArray xs => forallb (ownedWithin n k h) xs
    | VStruct fs => forallb (fun p => ownedWithin n k h (snd p)) fs
    | VPtr (Some l) =>
        bool_decide (k <= l)%nat
        && match h !! l with
           | Some (CVar x) => ownedWithin n k h x
           | _ => false
           end
    | VIface (Some (_, x)) => ownedWithin n k h x
    | VSlice (Some (l, len, cap)) =>
        bool_decide (k <= l)%nat
        && match h !! l with
           | Some (CArr xs) => forallb (ownedWithin n k h) xs
           | _ => false
           end
    | VMap (Some l) =>
        bool_decide (k <= l)%nat
        && match h !! l with
           | Some (CMap m) => forallb (fun kv => ownedWithin n k h (snd kv)) m
           | _ => false
           end
    | _ => true
    end
  end.

(** The cache holds no more entries than the size it was built with. *)
Definition withinCapacity (st : state) : Prop :=
  (0 < size st)%Z /\ (Z.of_nat (length (items st)) <= size st)%Z.


(** * Properties *)

(** ** The monad and its loops *)

Lemma bind_Ret_inv {S A B} (m : M S A) (f : A -> M S B) s s' b :
  bind m f s = Ret s' b -> exists s1 a, m s = Ret s1 a /\ f a s1 = Ret s' b.
Proof.
  unfold bind. destruct (m s) as [s1 a| |]; [|done..]. intros H. by exists s1, a.
Qed.

Lemma bind_Ret_step {S A B} (m : M S A) (f : A -> M S B) s s1 a :
  m s = Ret s1 a -> bind m f s = f a s1.
Proof. unfold bind. by intros ->. Qed.

Ltac inv_bind H :=
  let s1 := fresh "s" in
  let a := fresh "a" in
  let H1 := fresh H in
  apply bind_Ret_inv in H as (s1 & a & H1 & H).

Lemma mapM_Ret_spec {S A B} (R : relation S) `{!PreOrder R}
    (P : A -> S -> B -> Prop) (f : A -> M S B) (xs : list A) :
  (forall x b s1 s2, P x s1 b -> R s1 s2 -> P x s2 b) ->
  (forall x s s' b, x ∈ xs -> f x s = Ret s' b -> R s s' /\ P x s' b) ->
  forall s s' bs, mapM f xs s = Ret s' bs ->
    R s s' /\ Forall2 (fun x b => P x s' b) xs bs.
Proof.
  intros Hmono. induction xs as [|x xs IH]; intros Hf s s' bs Hm; simpl in Hm.
  - inversion Hm; subst. split; [reflexivity | constructor].
  - inv_bind Hm. inv_bind Hm. inversion Hm; subst; clear Hm.
    destruct (Hf x s s0 a) as [HR HP]; [left | done |].
    destruct (IH (fun y t t' b Hy => Hf y t t' b (list_elem_of_further _ _ _ Hy))
                 s0 s' a0 Hm1) as [HR' HF].
    split; [by etrans | constructor; eauto].
Qed.

Lemma mapM_total {S A B} (R : relation S) `{!PreOrder R}
    (Q : A -> S -> Prop) (f : A -> M S B) (xs : list A) :
  (forall x s1 s2, Q x s1 -> R s1 s2 -> Q x s2) ->
  (forall x s, x ∈ xs -> Q x s -> exists s' b, f x s = Ret s' b /\ R s s') ->
  forall s, Forall (fun x => Q x s) xs ->
    exists s' bs, mapM f xs s = Ret s' bs /\ R s s'.
Proof.
  intros Hmono. induction xs as [|x xs IH]; intros Hf s HQ; simpl.
  - exists s, []. split; [done | reflexivity].
  - inversion HQ as [|? ? Hx Hxs]; subst.
    destruct (Hf x s) as (s1 & b & Hb & HR); [left | done |].
    destruct (IH (fun y t Hy => Hf y t (list_elem_of_further _ _ _ Hy)) s1)
      as (s2 & bs & Hbs & HR').
    { eapply Forall_impl; [exact Hxs|]. intros y Hy. exact (Hmono _ _ _ Hy HR). }
    exists s2, (b :: bs). split; [|by etrans].
    rewrite (bind_Ret_step _ _ _ _ _ Hb). by rewrite (bind_Ret_step _ _ _ _ _ Hbs).
Qed.

Lemma mapM_length {S A B} (f : A -> M S B) (xs : list A) s s' bs :
  mapM f xs s = Ret s' bs -> length bs = length xs.
Proof.
  revert s bs. induction xs as [|x xs IH]; intros s bs Hm; simpl in Hm.
  - by inversion Hm.
  - inv_bind Hm. inv_bind Hm. inversion Hm; subst. simpl. f_equal. eauto.
Qed.

Lemma zip_with_zero (fs : list (field * value)) :
  zip fs (map (fun p => (fst p, zeroOf (snd p))) fs)
  = map (fun p => (p, (fst p, zeroOf (snd p)))) fs.
Proof. induction fs as [|p fs IH]; simpl; [done | by rewrite IH]. Qed.

Lemma forallb_impl {A} (f g : A -> bool) (l : list A) :
  (forall x, x ∈ l -> f x = true -> g x = true) ->
  forallb f l = true -> forallb g l = true.
Proof.
  induction l as [|x l IH]; simpl; intros Hfg; [done|].
  rewrite !andb_true_iff. intros [Hx Hl]. split.
  - apply Hfg; [left | done].
  - apply IH; [|done]. intros y Hy. apply Hfg. by right.
Qed.

Lemma forallb_Forall {A} (f : A -> bool) (l : list A) :
  forallb f l = true <-> Forall (fun x => f x = true) l.
Proof.
  induction l as [|x l IH]; simpl.
  - split; [constructor | done].
  - rewrite andb_true_iff, IH. split.
    + intros [? ?]. by constructor.
    + by inversion 1.
Qed.

(** ** The heap only grows under deep copy *)

Lemma alloc_Ret c h h' l : alloc c h = Ret h' l -> h' = h ++ [c] /\ l = length h.
Proof. unfold alloc. by inversion 1. Qed.

Lemma acyclicWithin_heap_mono n : forall h h' v,
  h `prefix_of` h' -> acyclicWithin n h v = true -> acyclicWithin n h' v = true.
Proof.
  induction n as [|n IH]; intros h h' v Hh; simpl; [done|].
  destruct v as [b|z|s|f|xs|fs|[l|]|[[t x]|]|[[[l len] cap]|]|[l|]]; try done.
  - apply forallb_impl. intros x _. by apply IH.
  - apply forallb_impl. intros x _. by apply IH.
  - destruct (h !! l) as [[x|xs|m]|] eqn:Hl; try done.
    rewrite (prefix_lookup_Some _ _ _ _ Hl Hh). by apply IH.
  - by apply IH.
  - destruct (h !! l) as [[x|xs|m]|] eqn:Hl; try done.
    rewrite (prefix_lookup_Some _ _ _ _ Hl Hh).
    rewrite !andb_true_iff. intros [? Hxs]. split; [done|].
    revert Hxs. apply forallb_impl. intros x _. by apply IH.
  - destruct (h !! l) as [[x|xs|m]|] eqn:Hl; try done.
    rewrite (prefix_lookup_Some _ _ _ _ Hl Hh).
    apply forallb_impl. intros x _. by apply IH.
Qed.

Lemma acyclicWithin_fuel_mono n : forall m h v,
  (n <= m)%nat -> acyclicWithin n h v = true -> acyclicWithin m h v = true.
Proof.
  induction n as [|n IH]; intros m h v Hm; simpl; [done|].
  destruct m as [|m]; [lia|]. simpl.
  assert (n <= m)%nat as Hnm by lia.
  destruct v as [b|z|s|f|xs|fs|[l|]|[[t x]|]|[[[l len] cap]|]|[l|]]; try done.
  - apply forallb_impl. intros x _. by apply IH.
  - apply forallb_impl. intros x _. by apply IH.
  - destruct (h !! l) as [[x|xs|m']|]; try done. by apply IH.
  - by apply IH.
  - destruct (h !! l) as [[x|xs|m']|]; try done.
    rewrite !andb_true_iff. intros [? Hxs]. split; [done|].
    revert Hxs. apply forallb_impl. intros x _. by apply IH.
  - destruct (h !! l) as [[x|xs|m']|]; try done.
    apply forallb_impl. intros x _. by apply IH.
Qed.

(** On a value whose references end within [n] steps, [copyRecursive]
    returns as soon as it is given fuel [n], and only appends cells. *)
Lemma copyRecursive_total n : forall v h fuel,
  acyclicWithin n h v = true -> (n <= fuel)%nat ->
  exists h' c, copyRecursive fuel v (zeroOf v) h = Ret h' c /\ h `prefix_of` h'.
Proof.
  induction n as [|n IH]; intros v h fuel Hac Hfuel; simpl in Hac; [done|].
  destruct fuel as [|fuel]; [lia|]. assert (n <= fuel)%nat as Hnf by lia.
  destruct v as [b|z|s|f|xs|fs|[l|]|[[t x]|]|[[[l len] cap]|]|[l|]];
    simpl; try (eexists _, _; split; [reflexivity | done]).
  - (* struct *)
    rewrite length_map. destruct (decide _) as [_|]; [|done].
    rewrite zip_with_zero.
    destruct (mapM_total (prefix) (fun p h => acyclicWithin n h (snd (fst p)) = true
                                             /\ snd (snd p) = zeroOf (snd (fst p)))
                (copyField (copyRecursive fuel))
                (map (fun p => (p, (fst p, zeroOf (snd p)))) fs)) with (s := h)
      as (h' & cfs' & Hm & Hpre).
    + intros p h1 h2 [? ?] ?. split; [|done]. by eapply acyclicWithin_heap_mono.
    + intros [[fd x] [cfd c]] h1 _ [Hx Hc]. simpl in *. subst c.
      unfold copyField. destruct (negb _).
      * eexists _, _. split; [reflexivity | done].
      * destruct (IH x h1 fuel Hx Hnf) as (h2 & c & Hc & Hpre).
        exists h2, (cfd, c). split; [|done].
        by rewrite (bind_Ret_step _ _ _ _ _ Hc).
    + apply Forall_map. apply forallb_Forall in Hac.
      eapply Forall_impl; [exact Hac|]. by intros [fd x].
    + exists h', (VStruct cfs'). split; [|done].
      by rewrite (bind_Ret_step _ _ _ _ _ Hm).
  - (* pointer *)
    destruct (h !! l) as [[x|xs|m]|] eqn:Hl; try done.
    destruct (IH x h fuel Hac Hnf) as (h1 & c & Hc & Hpre).
    exists (h1 ++ [CVar c]), (VPtr (Some (length h1))). split.
    + by rewrite (bind_Ret_step _ _ _ _ _ Hc).
    + etrans; [exact Hpre | by apply prefix_app_r].
  - (* interface *)
    destruct (IH x h fuel Hac Hnf) as (h1 & c & Hc & Hpre).
    exists h1, (VIface (Some (t, c))). split; [|done].
    by rewrite (bind_Ret_step _ _ _ _ _ Hc).
  - (* slice *)
    destruct (h !! l) as [[x|xs|m]|] eqn:Hl; try done.
    apply andb_true_iff in Hac as [Hb Hxs]. apply bool_decide_eq_true in Hb.
    destruct (decide _) as [_|]; [|done].
    destruct (mapM_total (prefix) (fun x h => acyclicWithin n h x = true)
                (fun x => copyRecursive fuel x (zeroOf x)) (take len xs)) with (s := h)
      as (h' & cs & Hm & Hpre).
    + intros x h1 h2 ? ?. by eapply acyclicWithin_heap_mono.
    + intros x h1 _ Hx. by apply IH.
    + by apply forallb_Forall.
    + eexists _, _. split.
      * rewrite (bind_Ret_step _ _ _ _ _ Hm). reflexivity.
      * etrans; [exact Hpre | by apply prefix_app_r].
  - (* map *)
    destruct (h !! l) as [[x|xs|m]|] eqn:Hl; try done.
    destruct (mapM_total (prefix) (fun kv h => acyclicWithin n h (snd kv) = true)
                (fun kv => let* c := copyRecursive fuel (snd kv) (zeroOf (snd kv)) in
                           ret (fst kv, c)) m) with (s := h)
      as (h' & m' & Hm & Hpre).
    + intros x h1 h2 ? ?. by eapply acyclicWithin_heap_mono.
    + intros kv h1 _ Hx. destruct (IH (snd kv) h1 fuel Hx Hnf) as (h2 & c & Hc & Hpre).
      exists h2, (fst kv, c). split; [|done]. by rewrite (bind_Ret_step _ _ _ _ _ Hc).
    + by apply forallb_Forall.
    + eexists _, _. split.
      * rewrite (bind_Ret_step _ _ _ _ _ Hm). reflexivity.
      * etrans; [exact Hpre | by apply prefix_app_r].
Qed.

Lemma deepCopy_total n v h fuel :
  acyclicWithin n h v = true -> (n <= fuel)%nat -> v <> VIface None ->
  exists h' c, deepCopy fuel v h = Ret h' c /\ h `prefix_of` h'.
Proof.
  intros Hac Hfuel Hnil.
  destruct v as [b|z|s|f|xs|fs|p|[[t x]|]|sl|m];
    try (by apply (copyRecursive_total n)); [|done].
  unfold deepCopy.
  destruct n as [|n]; [done|]. simpl in Hac.
  destruct (copyRecursive_total n x h fuel Hac) as (h' & c & Hc & Hpre); [lia|].
  exists h', (VIface (Some (t, c))). split; [|done].
  by rewrite (bind_Ret_step _ _ _ _ _ Hc).
Qed.

(** C7. On every input whose value graph is acyclic, [deepCopy] terminates:
    from some amount of fuel on, the recursion of [copyRecursive] through
    pointers, interfaces, struct fields, slice elements and map values
    comes to an end, by a normal return or by the panic of
    [reflect.Value.Type] on a nil interface. *)
Theorem deepCopy_terminates_on_acyclic (h : heap) (src : value) :
  acyclic h src ->
  exists n, forall fuel, (n <= fuel)%nat ->
    (exists h' c, deepCopy fuel src h = Ret h' c) \/ deepCopy fuel src h = Panic h.
Proof.
  intros [n Hac]. exists n. intros fuel Hfuel.
  assert (src = VIface None \/ src <> VIface None) as [->|Hnil].
  { destruct src as [| | | | | | |[|]| |]; (by left) || by right. }
  - by right.
  - left. destruct (deepCopy_total n src h fuel Hac Hfuel Hnil) as (h' & c & Hc & _).
    by exists h', c.
Qed.

(** C8, amended. On every input whose value graph is acyclic and which is
    not a nil interface, [deepCopy] returns normally, and only allocates.
    Inside the recursion a nil pointer, interface, slice or map leaves the
    destination as it is, and a value of any other kind than pointer,
    interface, struct, slice or map is copied by assignment. *)
Theorem deepCopy_returns_on_acyclic (h : heap) (src : value) :
  acyclic h src -> src <> VIface None ->
  (exists n, forall fuel, (n <= fuel)%nat ->
     exists h' c, deepCopy fuel src h = Ret h' c /\ h `prefix_of` h')
  /\ (forall fuel cpy h0,
        copyRecursive (S fuel) (VPtr None) cpy h0 = Ret h0 cpy
        /\ copyRecursive (S fuel) (VIface None) cpy h0 = Ret h0 cpy
        /\ copyRecursive (S fuel) (VSlice None) cpy h0 = Ret h0 cpy
        /\ copyRecursive (S fuel) (VMap None) cpy h0 = Ret h0 cpy)
  /\ (forall fuel cpy h0 b z s f xs,
        copyRecursive (S fuel) (VBool b) cpy h0 = Ret h0 (VBool b)
        /\ copyRecursive (S fuel) (VInt z) cpy h0 = Ret h0 (VInt z)
        /\ copyRecursive (S fuel) (VString s) cpy h0 = Ret h0 (VString s)
        /\ copyRecursive (S fuel) (VFunc f) cpy h0 = Ret h0 (VFunc f)
        /\ copyRecursive (S fuel) (VArray xs) cpy h0 = Ret h0 (VArray xs)).
Proof.
  intros [n Hac] Hnil. split; [|split].
  - exists n. intros fuel Hfuel. by apply (deepCopy_total n).
  - done.
  - done.
Qed.

(** A cyclic value graph: the copy of the self-referential node never
    returns, whatever the fuel. *)
Lemma copyRecursive_selfLoop fuel :
  copyRecursive fuel selfLoop (zeroOf selfLoop) selfLoopHeap = Diverge.
Proof.
  induction (lt_wf fuel) as [fuel _ IH].
  destruct fuel as [|[|fuel]]; [reflexivity..|].
  specialize (IH fuel ltac:(lia)).
  cbv [selfLoopHeap selfLoop mkNode] in *. simpl in *.
  cbv [bind ret]. simpl. by rewrite IH.
Qed.


(** The node that points to itself has no acyclic value graph. *)
Lemma selfLoop_not_acyclic : ~ acyclic selfLoopHeap selfLoop.
Proof.
  intros [n Hn]. induction (lt_wf n) as [n _ IH].
  destruct n as [|[|[|n]]]; try done.
  apply (IH (S n)); [lia|].
  cbv [selfLoopHeap selfLoop mkNode] in *. simpl in Hn.
  by rewrite andb_true_r in Hn.
Qed.

(** ** Write-back on eviction and purge *)

Lemma updatesIn_app evs1 evs2 :
  updatesIn (evs1 ++ evs2) = updatesIn evs1 ++ updatesIn evs2.
Proof.
  induction evs1 as [|e evs1 IH]; simpl; [done|].
  destruct e; simpl; by rewrite ?IH.
Qed.

Lemma saveIfModified_Ret fuel key v st s err :
  saveIfModified fuel key v st = Ret s err ->
  exists evs, afterSave err evs st s
    /\ (evs = [] \/ exists old new, evs = [CallUpdates old new]
                                   \/ evs = [CallUpdates old new; LogSaved key]).
Proof.
  unfold saveIfModified, afterSave.
  destruct (copies st !! key) as [oldCopy|].
  2: { inversion 1; subst. exists []. rewrite app_nil_r. naive_solver. }
  destruct v as [p|tag].
  2: { inversion 1; subst. exists []. rewrite app_nil_r. naive_solver. }
  destruct (p ≫= _) as [[cur| |]|]; try done.
  destruct (deepValueEqual _ _ _ _) as [[|]|]; try done.
  { inversion 1; subst. exists []. rewrite app_nil_r. naive_solver. }
  destruct (dbUpdates _ _ _ _) as [d [e|]]; inversion 1; subst; simpl.
  - exists [CallUpdates oldCopy cur]. split; [done|]. right. eauto.
  - exists [CallUpdates oldCopy cur; LogSaved key]. split.
    + by rewrite <- app_assoc.
    + right. eauto.
Qed.

Lemma evictToDB_unfold fuel key v st :
  evictToDB fuel key v st =
  match saveIfModified fuel key v st with
  | Ret s err => Ret (afterCallback LogEvictSaveFailed (LogEvicted key) key err s) tt
  | Panic s => Panic s
  | Diverge => Diverge
  end.
Proof.
  unfold evictToDB, bind. by destruct (saveIfModified _ _ _ _) as [s [e|]| |].
Qed.

Lemma purgeToDB_unfold fuel key v st :
  purgeToDB fuel key v st =
  match saveIfModified fuel key v st with
  | Ret s err => Ret (afterCallback LogPurgeSaveFailed (LogPurged key) key err s) tt
  | Panic s => Panic s
  | Diverge => Diverge
  end.
Proof.
  unfold purgeToDB, bind. by destruct (saveIfModified _ _ _ _) as [s [e|]| |].
Qed.

(** C10. The eviction callback and the purge visitor do the same to the
    snapshot registry and to the store: both run [saveIfModified], both
    delete the baseline of the key whatever it answered, and what they
    print differs only in the wording of the lines. *)
Theorem evict_and_purge_agree (fuel : nat) (key : Z) (v : boxed) (st : state) :
  match evictToDB fuel key v st, purgeToDB fuel key v st with
  | Ret s1 _, Ret s2 _ =>
      db s1 = db s2 /\ mem s1 = mem s2 /\ items s1 = items s2
      /\ copies s1 = delete key (copies st) /\ copies s2 = delete key (copies st)
      /\ updatesIn (trace s1) = updatesIn (trace s2)
      /\ exists evs, trace s1 = trace st ++ evs
                     /\ trace s2 = trace st ++ map asPurge evs
  | Panic s1, Panic s2 => s1 = s2
  | Diverge, Diverge => True
  | _, _ => False
  end.
Proof.
  rewrite evictToDB_unfold, purgeToDB_unfold.
  destruct (saveIfModified fuel key v st) as [s err| |] eqn:Hs; [|done..].
  destruct (saveIfModified_Ret _ _ _ _ _ _ Hs)
    as (evs & (Hm & Hc & Hi & Hsz & Ht & Hd) & Hevs).
  assert (map asPurge evs = evs) as Hsame.
  { destruct Hevs as [->|(old & new & [->| ->])]; reflexivity. }
  destruct err as [e|]; simpl; rewrite Hc, Ht, !updatesIn_app;
    repeat split; try done.
  - exists (evs ++ [LogEvictSaveFailed e; LogEvicted key]).
    rewrite map_app, Hsame. simpl. by rewrite <- !app_assoc.
  - exists (evs ++ [LogEvicted key]).
    rewrite map_app, Hsame. simpl. by rewrite <- !app_assoc.
Qed.

(** C1, amended. For a key whose baseline is recorded and whose live value
    is a [*T], eviction and purge ask the store for an update exactly when
    [reflect.DeepEqual] finds the live value different from the baseline,
    all fields compared, exported or not; and the baseline is discarded in
    either case. *)
Theorem writeback_iff_not_DeepEqual
    (fuel : nat) (key : Z) (l : loc) (st : state) (oldCopy cur : value) (r : bool) :
  copies st !! key = Some oldCopy ->
  mem st !! l = Some (CVar cur) ->
  deepValueEqual fuel (mem st) oldCopy cur = Some r ->
  exists s1 s2,
    evictToDB fuel key (BoxPtrT (Some l)) st = Ret s1 tt
    /\ purgeToDB fuel key (BoxPtrT (Some l)) st = Ret s2 tt
    /\ copies s1 = delete key (copies st)
    /\ copies s2 = delete key (copies st)
    /\ updatesIn (trace s1)
       = updatesIn (trace st) ++ (if r then [] else [(oldCopy, cur)])
    /\ updatesIn (trace s2)
       = updatesIn (trace st) ++ (if r then [] else [(oldCopy, cur)])
    /\ db s1 = (if r then db st else fst (dbUpdates (db st) (mem st) oldCopy cur))
    /\ db s2 = db s1.
Proof.
  intros Hc Hl Hr.
  rewrite evictToDB_unfold, purgeToDB_unfold.
  unfold saveIfModified. rewrite Hc. simpl. rewrite Hl, Hr.
  destruct r.
  - eexists _, _. split; [reflexivity|]. split; [reflexivity|]. simpl.
    rewrite !updatesIn_app. simpl. by rewrite !app_nil_r.
  - destruct (dbUpdates _ _ _ _) as [d [e|]];
      (eexists _, _; split; [reflexivity|]; split; [reflexivity|]; simpl;
       rewrite !updatesIn_app; simpl; by rewrite ?app_nil_r, <- ?app_assoc).
Qed.

Lemma findItem_dropItem key l : findItem key (dropItem key l) = None.
Proof.
  unfold dropItem. induction l as [|it l IH]; [done|].
  rewrite filter_cons. destruct (decide (ikey it <> key)) as [Hne|Heq]; [|done].
  simpl. by destruct (decide (ikey it = key)).
Qed.

Lemma findItem_dropItem_ne key key' l :
  key <> key' -> findItem key' (dropItem key l) = findItem key' l.
Proof.
  intros Hne. unfold dropItem. induction l as [|it l IH]; [done|].
  rewrite filter_cons. destruct (decide (ikey it <> key)) as [Hk|Hk]; simpl.
  - by rewrite IH.
  - destruct (decide (ikey it = key')); [|done].
    exfalso. apply Hk. congruence.
Qed.

(** [saveIfModified] does not look at the entries of the cache. *)
Lemma saveIfModified_setItems fuel key v l st :
  saveIfModified fuel key v (setItems l st)
  = match saveIfModified fuel key v st with
    | Ret s err => Ret (setItems l s) err
    | Panic s => Panic (setItems l s)
    | Diverge => Diverge
    end.
Proof.
  unfold saveIfModified. simpl.
  destruct (copies st !! key) as [oldCopy|]; [|done].
  destruct v as [p|tag]; [|done].
  destruct (p ≫= _) as [[cur| |]|]; try done.
  destruct (deepValueEqual _ _ _ _) as [[|]|]; try done.
  by destruct (dbUpdates _ _ _ _) as [d [e|]].
Qed.

Lemma removeElement_unfold fuel it st :
  removeElement fuel it st
  = evictToDB fuel (ikey it) (ivalue it) (setItems (dropItem (ikey it) (items st)) st).
Proof. reflexivity. Qed.

(** C5. The three errors of the write-back path are a missing baseline, a
    live value that is not a [*T] and a failed update of the store; each
    makes [saveIfModified] answer with an error.  Whenever it does, the
    eviction callback and the purge visitor print the error and return: the
    update is not asked again, the baseline is deleted, the entry leaves
    the cache, and the callbacks, which return nothing, pass no error
    on. *)
Theorem writeback_errors_only_logged
    (fuel : nat) (key : Z) (v : boxed) (st : state) :
  (copies st !! key = None ->
   saveIfModified fuel key v st = Ret st (Some (ENoCopy key)))
  /\ (forall tag, is_Some (copies st !! key) -> v = BoxOther tag ->
      saveIfModified fuel key v st = Ret st (Some (EInvalidType key)))
  /\ (forall old l cur d err,
        copies st !! key = Some old -> v = BoxPtrT (Some l) ->
        mem st !! l = Some (CVar cur) ->
        deepValueEqual fuel (mem st) old cur = Some false ->
        dbUpdates (db st) (mem st) old cur = (d, Some err) ->
        saveIfModified fuel key v st
        = Ret (addEvent (CallUpdates old cur) (setDb d st)) (Some (EUpdate err)))
  /\ (forall s e,
        saveIfModified fuel key v st = Ret s (Some e) ->
        (e = ENoCopy key \/ e = EInvalidType key \/ exists err, e = EUpdate err)
        /\ (exists s1,
              evictToDB fuel key v st = Ret s1 tt
              /\ copies s1 = delete key (copies st)
              /\ trace s1 = trace s ++ [LogEvictSaveFailed e; LogEvicted key]
              /\ (length (updatesIn (trace s1))
                  <= S (length (updatesIn (trace st))))%nat)
        /\ (exists s2,
              purgeToDB fuel key v st = Ret s2 tt
              /\ copies s2 = delete key (copies st)
              /\ trace s2 = trace s ++ [LogPurgeSaveFailed e; LogPurged key]
              /\ (length (updatesIn (trace s2))
                  <= S (length (updatesIn (trace st))))%nat)
        /\ (forall it, ikey it = key -> ivalue it = v ->
              (exists s3,
                 removeElement fuel it st = Ret s3 tt
                 /\ findItem key (items s3) = None
                 /\ copies s3 !! key = None)
              /\ (items st = [it] ->
                  exists s4,
                    lruPurge fuel st = Ret s4 tt
                    /\ items s4 = []
                    /\ copies s4 !! key = None))).
Proof.
  split; [|split; [|split]].
  - intros Hk. unfold saveIfModified. by rewrite Hk.
  - intros tag [old Hk] ->. unfold saveIfModified. by rewrite Hk.
  - intros old l cur d err Hk -> Hl Hr Hu. unfold saveIfModified.
    rewrite Hk. simpl. by rewrite Hl, Hr, Hu.
  - intros s e Hs.
    destruct (saveIfModified_Ret _ _ _ _ _ _ Hs)
      as (evs & (Hm & Hc & Hi & Hsz & Ht & Hd) & Hevs).
    assert (length (updatesIn evs) <= 1)%nat as Hlen.
    { destruct Hevs as [->|(old & new & [->| ->])]; simpl; lia. }
    split; [|split; [|split]].
    + revert Hs. unfold saveIfModified.
      destruct (copies st !! key) as [oldCopy|] eqn:Hk.
      2: { inversion 1. by left. }
      destruct v as [p|tag].
      2: { inversion 1. right; by left. }
      destruct p as [l|]; simpl; [|done].
      destruct (mem st !! l) as [[cur| |]|] eqn:Hl; try done.
      destruct (deepValueEqual _ _ _ _) as [[|]|] eqn:Hr; try done.
      destruct (dbUpdates _ _ _ _) as [d [err|]] eqn:Hu; inversion 1; subst.
      right; right. by exists err.
    + rewrite evictToDB_unfold, Hs. eexists. split; [reflexivity|]. simpl.
      rewrite Hc. repeat split.
      * by rewrite <- app_assoc.
      * rewrite Ht, !updatesIn_app, !length_app. simpl. lia.
    + rewrite purgeToDB_unfold, Hs. eexists. split; [reflexivity|]. simpl.
      rewrite Hc. repeat split.
      * by rewrite <- app_assoc.
      * rewrite Ht, !updatesIn_app, !length_app. simpl. lia.
    + intros it Hkey Hval. split.
      * rewrite removeElement_unfold, evictToDB_unfold, saveIfModified_setItems.
        rewrite Hkey, Hval, Hs. eexists. split; [reflexivity|]. simpl.
        split; [apply findItem_dropItem | apply lookup_delete_eq].
      * intros Hit. unfold lruPurge. rewrite Hit. simpl. unfold bind at 1.
        unfold bind at 1. rewrite purgeToDB_unfold, Hkey, Hval, Hs. simpl.
        eexists. split; [reflexivity|]. simpl.
        split; [done | apply lookup_delete_eq].
Qed.

(** ** What a deep copy contains *)

Lemma copyRecursive_prefix n : forall v cpy h h' c,
  copyRecursive n v cpy h = Ret h' c -> h `prefix_of` h'.
Proof.
  induction n as [|n IH]; intros v cpy h h' c Hc; simpl in Hc; [done|].
  destruct v as [b|z|s|f|xs|fs|[l|]|[[t x]|]|[[[l len] cap]|]|[l|]];
    try (by inversion Hc).
  - destruct cpy as [| | | | |cfs| | | |]; try done.
    destruct (decide _); [|done].
    inv_bind Hc. inversion Hc; subst.
    eapply (mapM_Ret_spec prefix (fun _ _ _ => True)); [done| |exact Hc0].
    intros [[fd x] [cfd c0]] t t' b _. unfold copyField.
    destruct (negb _); [by inversion 1|].
    intros Hb. inv_bind Hb. inversion Hb; subst. split; [by eapply IH | done].
  - destruct (h !! l) as [[x| |]|]; try done.
    inv_bind Hc. inv_bind Hc. inversion Hc; subst.
    apply alloc_Ret in Hc1 as [-> ->].
    etrans; [by eapply IH | by apply prefix_app_r].
  - inv_bind Hc. inversion Hc; subst. by eapply IH.
  - destruct (h !! l) as [[|xs|]|]; try done.
    destruct (decide _); [|done].
    inv_bind Hc. inv_bind Hc. inversion Hc; subst.
    apply alloc_Ret in Hc1 as [-> ->].
    etrans; [|by apply prefix_app_r].
    eapply (mapM_Ret_spec prefix (fun _ _ _ => True)); [done| |exact Hc0].
    intros x t t' b _ Hb. split; [exact (IH _ _ _ _ _ Hb) | done].
  - destruct (h !! l) as [[| |m]|]; try done.
    inv_bind Hc. inv_bind Hc. inversion Hc; subst.
    apply alloc_Ret in Hc1 as [-> ->].
    etrans; [|by apply prefix_app_r].
    eapply (mapM_Ret_spec prefix (fun _ _ _ => True)); [done| |exact Hc0].
    intros x t t' b _ Hb. inv_bind Hb. inversion Hb; subst.
    split; [exact (IH _ _ _ _ _ Hb0) | done].
Qed.

Lemma deepCopy_prefix fuel v h h' c :
  deepCopy fuel v h = Ret h' c -> h `prefix_of` h'.
Proof.
  unfold deepCopy.
  destruct v as [| | | | | | |[[t x]|]| |]; try (by apply copyRecursive_prefix).
  - intros Hc. inv_bind Hc. inversion Hc; subst. by eapply copyRecursive_prefix.
  - done.
Qed.

Lemma allM_Some_true {A} (f : A -> option bool) (l : list A) x :
  allM f l = Some true -> x ∈ l -> f x = Some true.
Proof.
  induction l as [|y l IH]; simpl; intros Hall Hx; [by inversion Hx|].
  destruct (f y) as [[|]|] eqn:Hy; try done.
  inversion Hx; subst; eauto.
Qed.

(** The fields of the copy of a struct. *)
Lemma copyRecursive_struct_fields n fs h h' cfs' :
  mapM (copyField (copyRecursive n))
       (zip fs (map (fun p => (fst p, zeroOf (snd p))) fs)) h = Ret h' cfs' ->
  length cfs' = length fs
  /\ forall i f x, fs !! i = Some (f, x) ->
       exists cx, cfs' !! i = Some (f, cx)
         /\ if exported f
            then exists h1 h2, copyRecursive n x (zeroOf x) h1 = Ret h2 cx
                               /\ h2 `prefix_of` h'
            else cx = zeroOf x.
Proof.
  intros Hm. split.
  { apply mapM_length in Hm. rewrite Hm, zip_with_zero. by rewrite length_map. }
  rewrite zip_with_zero in Hm.
  eapply (mapM_Ret_spec prefix
            (fun p s b => fst b = fst (snd p)
                          /\ if exported (fst (fst p))
                             then exists h1 h2,
                                 copyRecursive n (snd (fst p)) (snd (snd p)) h1
                                 = Ret h2 (snd b) /\ h2 `prefix_of` s
                             else snd b = snd (snd p))) in Hm as [_ HF].
  - intros i f x Hi.
    eapply Forall2_lookup_l in HF as ([cf cx] & Hcx & Hf & HP).
    2: { rewrite list_lookup_fmap, Hi. reflexivity. }
    simpl in *. subst cf. exists cx. split; [done|].
    destruct (exported f); [|done]. exact HP.
  - intros [[fd x] [cfd c]] b s1 s2 [? HP] Hs. split; [done|]. simpl in *.
    destruct (exported fd); [|done].
    destruct HP as (h1 & h2 & ? & ?). exists h1, h2. split; [done | by etrans].
  - intros [[fd x] [cfd c]] s s' b _. unfold copyField, exported. simpl.
    destruct (String.eqb (pkgPath fd) ""); simpl.
    + intros Hb. inv_bind Hb. inversion Hb; subst. simpl.
      split; [by eapply copyRecursive_prefix|]. split; [done|].
      by exists s, s'.
    + by inversion 1.
Qed.

Lemma mapM_ext_Forall2 {S A B} (f : A -> M S B) (l k : list A) :
  Forall2 (fun a b => f a = f b) l k -> mapM f l = mapM f k.
Proof. induction 1 as [|a b l k Hab _ IH]; simpl; [done|]. by rewrite Hab, IH. Qed.

(** C6, amended. In the copy of a struct every exported field holds the
    recursive copy of the field and every field that is not exported holds
    the zero value of its type.  Consequently the copy carries no trace of
    the unexported fields: two structs that differ in unexported fields
    only have the same deep copy. *)
Theorem deepCopy_blind_to_unexported
    (fuel : nat) (h : heap) (fs : list (field * value)) :
  (forall h' c,
     deepCopy fuel (VStruct fs) h = Ret h' c ->
     exists cfs, c = VStruct cfs /\ length cfs = length fs
       /\ forall i f x, fs !! i = Some (f, x) ->
            exists cx, cfs !! i = Some (f, cx)
              /\ if exported f
                 then exists n h1 h2, fuel = S n
                        /\ copyRecursive n x (zeroOf x) h1 = Ret h2 cx
                        /\ h2 `prefix_of` h'
                 else cx = zeroOf x)
  /\ (forall gs,
        Forall2 (fun p q => fst p = fst q
                   /\ if exported (fst p) then snd p = snd q
                      else zeroOf (snd p) = zeroOf (snd q)) fs gs ->
        deepCopy fuel (VStruct gs) h = deepCopy fuel (VStruct fs) h).
Proof.
  split.
  - intros h' c Hc. destruct fuel as [|fuel]; [done|].
    simpl in Hc. rewrite length_map in Hc.
    destruct (decide _) as [_|]; [|done].
    inv_bind Hc. inversion Hc; subst; clear Hc. rename a into cfs.
    destruct (copyRecursive_struct_fields _ _ _ _ _ Hc0) as [Hlen Hfields].
    exists cfs. split; [done|]. split; [done|].
    intros i f x Hi. destruct (Hfields i f x Hi) as (cx & Hcx & HP).
    exists cx. split; [done|]. destruct (exported f); [|done].
    destruct HP as (h1 & h2 & ? & ?). by exists fuel, h1, h2.
  - intros gs HF. destruct fuel as [|fuel]; [done|]. simpl.
    rewrite !length_map. destruct (decide _) as [_|]; [|done].
    destruct (decide _) as [_|]; [|done].
    unfold bind. rewrite !zip_with_zero.
    rewrite (mapM_ext_Forall2 (copyField (copyRecursive fuel))
               (map (fun p => (p, (fst p, zeroOf (snd p)))) gs)
               (map (fun p => (p, (fst p, zeroOf (snd p)))) fs)); [done|].
    apply Forall2_fmap, Forall2_flip. eapply Forall2_impl; [exact HF|].
    intros [f x] [g y] [Hfg Hxy]. simpl in *. subst g.
    unfold copyField, exported in *.
    destruct (String.eqb (pkgPath f) ""); simpl; by rewrite Hxy.
Qed.

(** The other side of the write-back: [reflect.DeepEqual] looks at the
    unexported fields too.  A live entry with an unexported field that is
    not deeply equal to its zero value is never found equal to its
    baseline, and whenever [saveIfModified] returns it has asked the store
    for the update. *)
Lemma nonzero_unexported_field_always_dirty
    (fuel n : nat) (h h' : heap) (fs gs : list (field * value)) (c : value)
    (i : nat) (f g : field) (x y : value) (st s : state) (key : Z) (l : loc)
    (err : option error) :
  deepCopy fuel (VStruct fs) h = Ret h' c ->
  fs !! i = Some (f, x) -> exported f = false ->
  gs !! i = Some (g, y) ->
  deepValueEqual n (mem st) (zeroOf x) y = Some false ->
  copies st !! key = Some c ->
  mem st !! l = Some (CVar (VStruct gs)) ->
  deepValueEqual (S n) (mem st) c (VStruct gs) <> Some true
  /\ (saveIfModified (S n) key (BoxPtrT (Some l)) st = Ret s err ->
      updatesIn (trace s) = updatesIn (trace st) ++ [(c, VStruct gs)]).
Proof.
  intros Hc Hi Hf Hg Hne Hk Hl.
  destruct fuel as [|fuel]; [done|].
  simpl in Hc. rewrite length_map in Hc.
  destruct (decide _) as [_|]; [|done].
  inv_bind Hc. inversion Hc; subst; clear Hc. rename a into cfs.
  destruct (copyRecursive_struct_fields _ _ _ _ _ Hc0) as [Hlen Hfields].
  assert (deepValueEqual (S n) (mem st) (VStruct cfs) (VStruct gs) <> Some true)
    as Hdirty.
  { simpl. destruct (decide _) as [Hl'|]; [|done]. intros Hall.
    destruct (Hfields i f x Hi) as (cx & Hcx & HP). rewrite Hf in HP. subst cx.
    assert (((f, zeroOf x), (g, y)) ∈ zip cfs gs) as Hin.
    { apply list_elem_of_lookup. exists i. rewrite lookup_zip_with.
      by rewrite Hcx; simpl; rewrite Hg. }
    apply (allM_Some_true _ _ _ Hall) in Hin. simpl in Hin. congruence. }
  split; [done|].
  unfold saveIfModified. rewrite Hk. cbn [mbind option_bind]. rewrite Hl.
  destruct (deepValueEqual (S n) _ _ _) as [[|]|]; try done.
  destruct (dbUpdates _ _ _ _) as [d [e|]]; inversion 1; subst; simpl;
    rewrite ?updatesIn_app; simpl; by rewrite ?app_nil_r.
Qed.

(** ** Load on a miss *)

Lemma lruGetValue_absent fuel now key st :
  findItem key (items st) = None -> lruGetValue fuel now key st = Ret st None.
Proof. unfold lruGetValue. by intros ->. Qed.

Lemma loadFromDB_failure fuel key st e :
  dbFirst (db st) (mem st) key = inl e ->
  loadFromDB fuel key st = Ret st (Err (ELoad e)).
Proof. unfold loadFromDB. by intros ->. Qed.

Lemma loadFromDB_success fuel key st cells entity h1 c :
  dbFirst (db st) (mem st) key = inr (cells, entity) ->
  deepCopy fuel entity (mem st ++ cells) = Ret h1 c ->
  loadFromDB fuel key st
  = Ret (State (db st) (h1 ++ [CVar entity]) (<[key := c]> (copies st))
               (items st) (size st) (trace st))
        (Ok (BoxPtrT (Some (length h1)))).
Proof.
  intros Hf Hc. unfold loadFromDB. rewrite Hf.
  unfold bind, onHeap, modify, ret, alloc. simpl. by rewrite Hc.
Qed.

Lemma removeElement_Ret fuel it st s :
  removeElement fuel it st = Ret s tt ->
  mem s = mem st /\ size s = size st
  /\ copies s = delete (ikey it) (copies st)
  /\ items s = dropItem (ikey it) (items st)
  /\ exists evs, trace s = trace st ++ evs.
Proof.
  rewrite removeElement_unfold, evictToDB_unfold, saveIfModified_setItems.
  destruct (saveIfModified _ _ _ _) as [s' err| |] eqn:Hs; [|done..].
  destruct (saveIfModified_Ret _ _ _ _ _ _ Hs)
    as (evs & (Hm & Hc & Hi & Hsz & Ht & Hd) & Hevs).
  inversion 1; subst. destruct err; simpl; rewrite ?Hm, ?Hc, ?Hsz, ?Ht;
    repeat split; try done; eexists; by rewrite <- ?app_assoc.
Qed.

Lemma findItem_Some key l it : findItem key l = Some it -> ikey it = key /\ it ∈ l.
Proof.
  induction l as [|it' l IH]; simpl; [done|].
  destruct (decide (ikey it' = key)).
  - inversion 1; subst. split; [done | left].
  - intros H. destruct (IH H). split; [done | by right].
Qed.

Lemma findItem_None key l it : findItem key l = None -> it ∈ l -> ikey it <> key.
Proof.
  induction l as [|it' l IH]; simpl; [by inversion 2|].
  destruct (decide (ikey it' = key)); [done|].
  intros H Hin. inversion Hin; subst; eauto.
Qed.

(** C4. When the load of a [Get] miss fails, the caller of [Get] receives
    the error and the failed load creates no state: on a key the cache does
    not hold, [Get] leaves the whole state as it was; on a key whose entry
    has expired, [Get] leaves the state the eviction of that entry produced,
    in which the key is in the cache and in the snapshot registry no more.
    When the load succeeds, the loader records the deep copy of the loaded
    entity under the key and returns a pointer to the entity, which [Get]
    hands to its caller. *)
Theorem load_failure_creates_no_state (fuel : nat) (now key : Z) (st : state) :
  (forall e,
     findItem key (items st) = None ->
     dbFirst (db st) (mem st) key = inl e ->
     Get fuel now key st = Ret st (Err (ELoad e)))
  /\ (forall it s1 e,
        findItem key (items st) = Some it -> isExpired now it = true ->
        removeElement fuel it st = Ret s1 tt ->
        dbFirst (db s1) (mem s1) key = inl e ->
        Get fuel now key st = Ret s1 (Err (ELoad e))
        /\ findItem key (items s1) = None
        /\ copies s1 = delete key (copies st))
  /\ (forall cells entity h1 c,
        dbFirst (db st) (mem st) key = inr (cells, entity) ->
        deepCopy fuel entity (mem st ++ cells) = Ret h1 c ->
        loadFromDB fuel key st
        = Ret (State (db st) (h1 ++ [CVar entity]) (<[key := c]> (copies st))
                     (items st) (size st) (trace st))
              (Ok (BoxPtrT (Some (length h1))))
        /\ (findItem key (items st) = None ->
            (Z.of_nat (length (items st)) < size st)%Z ->
            Get fuel now key st
            = Ret (State (db st) (h1 ++ [CVar entity]) (<[key := c]> (copies st))
                         (Item key (BoxPtrT (Some (length h1))) (now + expiration)
                          :: dropItem key (items st))
                         (size st) (trace st ++ [LogAdded key]))
                  (Ok (Some (length h1))))).
Proof.
  split; [|split].
  - intros e Habs Hf. unfold Get, lruGet, bind.
    rewrite (lruGetValue_absent fuel now key st Habs).
    unfold lruGetWithLoader, recover, bind.
    by rewrite (loadFromDB_failure fuel _ _ _ Hf).
  - intros it s1 e Hit Hexp Hrm Hf.
    destruct (findItem_Some _ _ _ Hit) as [Hkey _].
    destruct (removeElement_Ret _ _ _ _ Hrm) as (Hm & Hsz & Hc & Hi & _).
    split; [|split].
    + unfold Get, lruGet, lruGetValue, bind.
      rewrite Hit, Hexp, Hrm. unfold ret, lruGetWithLoader, recover, bind.
      by rewrite (loadFromDB_failure fuel _ _ _ Hf).
    + rewrite Hi, Hkey. apply findItem_dropItem.
    + by rewrite Hc, Hkey.
  - intros cells entity h1 c Hf Hc.
    pose proof (loadFromDB_success fuel key st cells entity h1 c Hf Hc) as Hload.
    split; [done|]. intros Habs Hroom.
    unfold Get, lruGet, bind.
    rewrite (lruGetValue_absent fuel now key st Habs).
    unfold lruGetWithLoader, recover, bind. rewrite Hload.
    unfold lruSet, bind, modify, logCacheAdd, ret. simpl. rewrite Habs.
    destruct (decide _) as [Hfull|_]; [lia|]. reflexivity.
Qed.

(** ** The comparison is stable under more fuel and a larger heap *)

Lemma allM_mono {A} (f g : A -> option bool) (l : list A) r :
  (forall x r', x ∈ l -> f x = Some r' -> g x = Some r') ->
  allM f l = Some r -> allM g l = Some r.
Proof.
  induction l as [|x l IH]; simpl; intros Hfg; [done|].
  destruct (f x) as [[|]|] eqn:Hx; [| |done].
  - rewrite (Hfg x true); [|left|done]. apply IH. intros y r' Hy. apply Hfg. by right.
  - rewrite (Hfg x false); [|left|done]. done.
Qed.

Lemma deepValueEqual_mono n : forall m h h' v1 v2 r,
  (n <= m)%nat -> h `prefix_of` h' ->
  deepValueEqual n h v1 v2 = Some r -> deepValueEqual m h' v1 v2 = Some r.
Proof.
  induction n as [|n IH]; intros m h h' v1 v2 r Hm Hh; simpl; [done|].
  destruct m as [|m]; [lia|]. assert (n <= m)%nat as Hnm by lia. simpl.
  destruct v1 as [b1|z1|s1|f1|xs1|fs1|[l1|]|[[t1 x1]|]|[[[l1 len1] cap1]|]|[l1|]],
           v2 as [b2|z2|s2|f2|xs2|fs2|[l2|]|[[t2 x2]|]|[[[l2 len2] cap2]|]|[l2|]];
    try done.
  - destruct (decide _); [|done]. apply allM_mono. intros p r' _. by apply IH.
  - destruct (decide _); [|done]. apply allM_mono. intros p r' _. by apply IH.
  - destruct (decide _); [done|].
    destruct (h !! l1) as [[x| |]|] eqn:H1; try done;
      destruct (h !! l2) as [[y| |]|] eqn:H2; try done.
    rewrite (prefix_lookup_Some _ _ _ _ H1 Hh), (prefix_lookup_Some _ _ _ _ H2 Hh).
    by apply IH.
  - destruct (decide _); [|done]. by apply IH.
  - destruct (decide _); [|done]. destruct (decide _); [done|].
    destruct (h !! l1) as [[|xs|]|] eqn:H1; try done;
      destruct (h !! l2) as [[|ys|]|] eqn:H2; try done.
    rewrite (prefix_lookup_Some _ _ _ _ H1 Hh), (prefix_lookup_Some _ _ _ _ H2 Hh).
    apply allM_mono. intros p r' _. by apply IH.
  - destruct (decide _); [done|].
    destruct (h !! l1) as [[| |m1]|] eqn:H1; try done;
      destruct (h !! l2) as [[| |m2]|] eqn:H2; try done.
    rewrite (prefix_lookup_Some _ _ _ _ H1 Hh), (prefix_lookup_Some _ _ _ _ H2 Hh).
    destruct (decide _); [|done].
    apply allM_mono. intros k r' _.
    destruct (mapIndex m1 k), (mapIndex m2 k); try done. by apply IH.
Qed.

(** ** Round trip *)

Lemma lruEvict_settled n fuel st key c h1 :
  settled n st -> (n <= fuel)%nat -> mem st `prefix_of` h1 ->
  findItem key (items st) = None ->
  exists s,
    lruEvict fuel (State (db st) h1 (<[key := c]> (copies st))
                         (items st) (size st) (trace st)) = Ret s tt
    /\ mem s = h1 /\ findItem key (items s) = None.
Proof.
  intros Hst Hfuel Hpre Habs. unfold lruEvict. simpl.
  destruct (last (items st)) as [it|] eqn:Hlast.
  2: { eexists. split; [reflexivity|]. by split. }
  assert (it ∈ items st) as Hin.
  { apply last_Some in Hlast as [l' Hl']. rewrite Hl'. apply elem_of_app. right. left. }
  destruct (Hst it Hin) as (l & cur & Hv & Hl & Hcmp).
  pose proof (findItem_None _ _ _ Habs Hin) as Hne.
  rewrite removeElement_unfold, evictToDB_unfold, saveIfModified_setItems.
  unfold saveIfModified. simpl.
  rewrite lookup_insert_ne by done. rewrite Hv. simpl.
  rewrite (prefix_lookup_Some _ _ _ _ Hl Hpre).
  destruct (copies st !! ikey it) as [old|] eqn:Hold.
  2: { eexists. split; [reflexivity|]. simpl. split; [done|].
       by rewrite findItem_dropItem_ne. }
  destruct (Hcmp old eq_refl) as [r Hr].
  rewrite (deepValueEqual_mono n fuel (mem st) h1 old cur r Hfuel Hpre Hr).
  destruct r.
  - eexists. split; [reflexivity|]. simpl. split; [done|].
    by rewrite findItem_dropItem_ne.
  - destruct (dbUpdates _ _ _ _) as [d [e|]];
      (eexists; split; [reflexivity|]; simpl; split; [done|];
       by rewrite findItem_dropItem_ne).
Qed.

(** C3, amended. For every key and every value whose value graph is acyclic
    and which is not a nil interface, in a cache whose entries are live
    [*T] values, [Set] followed by a [Get] of the same key before the entry
    expires succeeds, and the pointer [Get] returns points to a variable
    that holds the value itself; the cells the value refers to are as they
    were. *)
Theorem set_then_get_round_trip
    (n : nat) (now now' key : Z) (v : value) (st : state) (fuel : nat) :
  acyclicWithin n (mem st) v = true -> v <> VIface None ->
  settled n st ->
  (now' <= now + expiration)%Z ->
  (n <= fuel)%nat ->
  exists s1 s2 l,
    Set_ fuel now key v st = Ret s1 None
    /\ Get fuel now' key s1 = Ret s2 (Ok (Some l))
    /\ mem s2 !! l = Some (CVar v)
    /\ mem st `prefix_of` mem s2.
Proof.
  intros Hac Hnil Hst Hnow Hfuel.
  destruct (deepCopy_total n v (mem st) fuel Hac Hfuel Hnil) as (h1 & c & Hc & Hpre).
  assert (mem st `prefix_of` h1 ++ [CVar v]) as Hpre'.
  { etrans; [exact Hpre | by apply prefix_app_r]. }
  assert (exists s0,
    (let* _ := match findItem key (items st) with
               | Some _ => ret tt
               | None =>
                   if decide (size st <= Z.of_nat (length (items st)))%Z
                   then lruEvict fuel else ret tt
               end in ret tt)
      (State (db st) (h1 ++ [CVar v]) (<[key := c]> (copies st))
             (items st) (size st) (trace st)) = Ret s0 tt
    /\ mem s0 = h1 ++ [CVar v]) as (s0 & Hs0 & Hm0).
  { destruct (findItem key (items st)) as [it|] eqn:Hfind.
    - eexists. split; [reflexivity | done].
    - destruct (decide _).
      + destruct (lruEvict_settled n fuel st key c (h1 ++ [CVar v])
                    Hst Hfuel Hpre' Hfind) as (s & Hs & Hm & _).
        exists s. split; [|done]. unfold bind. by rewrite Hs.
      + eexists. split; [reflexivity | done]. }
  apply bind_Ret_inv in Hs0 as (s0' & [] & Hev & Hret).
  inversion Hret; subst s0'; clear Hret.
  set (it := Item key (BoxPtrT (Some (length h1))) (now + expiration)).
  exists (addEvent (LogAdded key) (setItems (it :: dropItem key (items s0)) s0)).
  exists (setItems (it :: dropItem key (it :: dropItem key (items s0)))
            (addEvent (LogAdded key) (setItems (it :: dropItem key (items s0)) s0))).
  exists (length h1).
  split; [|split; [|split]].
  - unfold Set_, bind, onHeap, modify, alloc, ret. rewrite Hc. simpl.
    unfold lruSet, bind, modify, logCacheAdd, ret. simpl.
    unfold setCopies, setMem. simpl. unfold ret in Hev. by rewrite Hev.
  - unfold Get, lruGet, lruGetValue, bind. simpl.
    destruct (decide (key = key)) as [_|]; [|done].
    unfold isExpired. simpl.
    destruct (Z.ltb_spec (now + expiration) now') as [|_]; [lia|]. reflexivity.
  - simpl. rewrite Hm0. by rewrite lookup_app_r, Nat.sub_diag.
  - simpl. by rewrite Hm0.
Qed.

(** ** A copy equals its original over exported state *)

Lemma forallb_zip_Forall2 {A B} (p : A * B -> bool) (l : list A) (k : list B) :
  Forall2 (fun a b => p (a, b) = true) l k -> forallb p (zip l k) = true.
Proof. induction 1 as [|a b l k Hab _ IH]; simpl; [done|]. by rewrite Hab, IH. Qed.

Lemma Forall2_common_fuel {A B} (P : nat -> A -> B -> Prop) (l : list A) (k : list B) :
  (forall m m' a b, (m <= m')%nat -> P m a b -> P m' a b) ->
  Forall2 (fun a b => exists m, P m a b) l k ->
  exists m, Forall2 (P m) l k.
Proof.
  intros Hmono. induction 1 as [|a b l k [m1 Hab] _ [m2 IH]].
  - exists O. constructor.
  - exists (m1 `max` m2)%nat. constructor.
    + eapply Hmono; [|exact Hab]. lia.
    + eapply Forall2_impl; [exact IH|]. intros a' b' H'.
      eapply Hmono; [|exact H']. lia.
Qed.

Lemma eqExported_mono n : forall m h h' v1 v2,
  (n <= m)%nat -> h `prefix_of` h' ->
  eqExported n h v1 v2 = true -> eqExported m h' v1 v2 = true.
Proof.
  induction n as [|n IH]; intros m h h' v1 v2 Hm Hh; simpl; [done|].
  destruct m as [|m]; [lia|]. assert (n <= m)%nat as Hnm by lia. simpl.
  destruct v1 as [b1|z1|s1|f1|xs1|fs1|[l1|]|[[t1 x1]|]|[[[l1 len1] cap1]|]|[l1|]],
           v2 as [b2|z2|s2|f2|xs2|fs2|[l2|]|[[t2 x2]|]|[[[l2 len2] cap2]|]|[l2|]];
    try done.
  - rewrite !andb_true_iff. intros [? Hall]. split; [done|].
    revert Hall. apply forallb_impl. intros p _. by apply IH.
  - rewrite !andb_true_iff. intros [? Hall]. split; [done|].
    revert Hall. apply forallb_impl. intros p _.
    rewrite !andb_true_iff, !orb_true_iff. intros [? [?|?]]; split; eauto.
  - rewrite !orb_true_iff. intros [?|Hx]; [by left|right].
    destruct (h !! l1) as [[x| |]|] eqn:H1; try done;
      destruct (h !! l2) as [[y| |]|] eqn:H2; try done.
    rewrite (prefix_lookup_Some _ _ _ _ H1 Hh), (prefix_lookup_Some _ _ _ _ H2 Hh).
    by eapply IH.
  - rewrite !andb_true_iff. intros [? ?]. split; [done|]. by eapply IH.
  - rewrite !andb_true_iff, !orb_true_iff. intros [? [?|Hx]]; (split; [done|]);
      [by left|right].
    destruct (h !! l1) as [[|xs|]|] eqn:H1; try done;
      destruct (h !! l2) as [[|ys|]|] eqn:H2; try done.
    rewrite (prefix_lookup_Some _ _ _ _ H1 Hh), (prefix_lookup_Some _ _ _ _ H2 Hh).
    revert Hx. rewrite !andb_true_iff. intros [? Hall]. split; [done|].
    revert Hall. apply forallb_impl. intros p _. by apply IH.
  - rewrite !orb_true_iff. intros [?|Hx]; [by left|right].
    destruct (h !! l1) as [[| |m1]|] eqn:H1; try done;
      destruct (h !! l2) as [[| |m2]|] eqn:H2; try done.
    rewrite (prefix_lookup_Some _ _ _ _ H1 Hh), (prefix_lookup_Some _ _ _ _ H2 Hh).
    revert Hx. rewrite !andb_true_iff. intros [? Hall]. split; [done|].
    revert Hall. apply forallb_impl. intros k _.
    destruct (mapIndex m1 k), (mapIndex m2 k); try done. by apply IH.
Qed.

Lemma forallb_zip_diag {A} (p : A * A -> bool) (l : list A) :
  (forall x, x ∈ l -> p (x, x) = true) -> forallb p (zip l l) = true.
Proof.
  induction l as [|x l IH]; simpl; intros Hp; [done|].
  rewrite Hp by left. apply IH. intros y Hy. apply Hp. by right.
Qed.

(** A value equals itself: references are the same references. *)
Lemma eqExported_refl n : forall h v,
  (inlineDepth v <= n)%nat -> eqExported n h v v = true.
Proof.
  induction n as [|n IH]; intros h v Hd.
  { destruct v as [| | | | | | |[[]|]| |]; simpl in Hd; lia. }
  destruct v as [b|z|s|f|xs|fs|[l|]|[[t x]|]|[[[l len] cap]|]|[l|]]; simpl in *;
    rewrite ?bool_decide_eq_true_2 by done; try done.
  - apply forallb_zip_diag. intros x Hx. simpl. apply IH.
    assert (inlineDepth x <= max_list (map inlineDepth xs))%nat; [|lia].
    apply max_list_elem_of_le. by apply list_elem_of_fmap_2.
  - apply forallb_zip_diag. intros [f x] Hx. simpl.
    rewrite bool_decide_eq_true_2 by done. simpl.
    rewrite IH; [by rewrite orb_true_r|].
    assert (inlineDepth x <= max_list (map (fun p => inlineDepth (snd p)) fs))%nat;
      [|lia].
    apply max_list_elem_of_le.
    by apply (list_elem_of_fmap_2 (fun p => inlineDepth (snd p)) _ (f, x)).
  - apply IH. lia.
Qed.

Lemma mapIndex_Forall2 (R : value -> value -> Prop) (m m' : list (mkey * value)) :
  Forall2 (fun kv kv' => fst kv' = fst kv /\ R (snd kv') (snd kv)) m m' ->
  forall k, k ∈ map fst m' ->
    exists x y, mapIndex m' k = Some x /\ mapIndex m k = Some y /\ R x y.
Proof.
  induction 1 as [|[k1 y1] [k1' x1] m m' [Hk HR] _ IH]; simpl; intros k Hin.
  - by inversion Hin.
  - simpl in *. subst k1'. destruct (decide (k1 = k)) as [->|Hne].
    + by exists x1, y1.
    + apply IH. inversion Hin; subst; [done|done].
Qed.

Lemma copyRecursive_eqExported n : forall v h h' c,
  copyRecursive n v (zeroOf v) h = Ret h' c ->
  exists m, eqExported m h' c v = true.
Proof.
  induction n as [|n IH]; intros v h h' c Hc; [done|].
  pose proof (copyRecursive_prefix _ _ _ _ _ _ Hc) as Hpre.
  destruct v as [b|z|s|f|xs|fs|[l|]|[[t x]|]|[[[l len] cap]|]|[l|]]; simpl in Hc;
    try (inversion Hc; subst; by exists 1%nat);
    try (inversion Hc; subst; eexists; by apply eqExported_refl).
  - (* struct *)
    rewrite length_map in Hc. destruct (decide _) as [_|]; [|done].
    inv_bind Hc. inversion Hc; subst; clear Hc. rename a into cfs.
    destruct (copyRecursive_struct_fields _ _ _ _ _ Hc0) as [Hlen Hfields].
    assert (Forall2 (fun cf f => exists m,
              bool_decide (fst cf = fst f)
              && (negb (exported (fst cf)) || eqExported m h' (snd cf) (snd f)) = true)
              cfs fs) as HF.
    { apply Forall2_same_length_lookup_2; [done|].
      intros i [cf cx] [f x] Hcf Hf.
      destruct (Hfields i f x Hf) as (cx' & Hcx' & HP).
      rewrite Hcf in Hcx'. inversion Hcx'; subst cf cx'. simpl.
      rewrite bool_decide_eq_true_2 by done. simpl.
      destruct (exported f); simpl; [|by exists O].
      destruct HP as (h1 & h2 & Hcx & Hh2).
      destruct (IH _ _ _ _ Hcx) as [m Hm]. exists m.
      by apply (eqExported_mono m m h2 h'). }
    apply Forall2_common_fuel in HF as [m HF].
    + exists (S m). simpl. rewrite bool_decide_eq_true_2 by done. simpl.
      by apply (forallb_zip_Forall2
                  (fun p => bool_decide (fst (fst p) = fst (snd p))
                            && (negb (exported (fst (fst p)))
                                || eqExported m h' (snd (fst p)) (snd (snd p))))).
    + intros m m' cf f Hmm. rewrite !andb_true_iff, !orb_true_iff.
      intros [? [?|?]]; split; eauto using eqExported_mono.
  - (* pointer *)
    destruct (h !! l) as [[x| |]|] eqn:Hl; try done.
    inv_bind Hc. inv_bind Hc. inversion Hc; subst; clear Hc.
    apply alloc_Ret in Hc1 as [-> ->].
    destruct (IH _ _ _ _ Hc0) as [m Hm]. exists (S m). simpl.
    rewrite lookup_app_r, Nat.sub_diag by done. simpl.
    rewrite (prefix_lookup_Some _ _ _ _ Hl Hpre).
    rewrite (eqExported_mono m m s (s ++ [CVar a]) a x); [by rewrite orb_true_r|done| |done].
    by apply prefix_app_r.
  - (* interface *)
    inv_bind Hc. inversion Hc; subst; clear Hc.
    destruct (IH _ _ _ _ Hc0) as [m Hm]. exists (S m). simpl.
    by rewrite bool_decide_eq_true_2, Hm.
  - (* slice *)
    destruct (h !! l) as [[|xs|]|] eqn:Hl; try done.
    destruct (decide _) as [Hb|]; [|done].
    inv_bind Hc. inv_bind Hc. inversion Hc; subst; clear Hc.
    apply alloc_Ret in Hc1 as [-> ->]. rename a into cs, s into h1.
    pose proof (mapM_length _ _ _ _ _ Hc0) as Hlen.
    rewrite length_take_le in Hlen by lia.
    eapply (mapM_Ret_spec prefix
              (fun x s cx => exists m, eqExported m s cx x = true)) in Hc0 as [_ HF].
    2: { intros x cx s1 s2 [m Hm] Hs. exists m. by apply (eqExported_mono m m s1 s2). }
    2: { intros x s s' cx _ Hx. split; [exact (copyRecursive_prefix _ _ _ _ _ _ Hx)|].
         exact (IH _ _ _ _ Hx). }
    apply Forall2_flip in HF.
    apply (Forall2_common_fuel (fun m cx x => eqExported m h1 cx x = true)) in HF
      as [m HF].
    2: { intros m m' cx x Hmm. by apply eqExported_mono. }
    exists (S m). simpl. rewrite bool_decide_eq_true_2 by done. simpl.
    rewrite lookup_app_r, Nat.sub_diag by done. simpl.
    rewrite (prefix_lookup_Some _ _ _ _ Hl Hpre).
    apply orb_true_iff. right. rewrite !andb_true_iff.
    split; [split; apply bool_decide_eq_true_2; [rewrite length_app|]; lia|].
    rewrite take_app_length' by done.
    apply (forallb_zip_Forall2 (fun p => eqExported m _ (fst p) (snd p))).
    eapply Forall2_impl; [exact HF|]. intros cx x Hx. simpl.
    apply (eqExported_mono m m h1); [done|by apply prefix_app_r|done].
  - (* map *)
    destruct (h !! l) as [[| |m0]|] eqn:Hl; try done.
    inv_bind Hc. inv_bind Hc. inversion Hc; subst; clear Hc.
    apply alloc_Ret in Hc1 as [-> ->]. rename a into m', s into h1.
    pose proof (mapM_length _ _ _ _ _ Hc0) as Hlen.
    eapply (mapM_Ret_spec prefix
              (fun kv s kv' => fst kv' = fst kv
                 /\ exists m, eqExported m s (snd kv') (snd kv) = true))
      in Hc0 as [_ HF].
    2: { intros x cx s1 s2 [? [m Hm]] Hs. split; [done|]. exists m.
         by apply (eqExported_mono m m s1 s2). }
    2: { intros kv s s' kv' _ Hx. inv_bind Hx. inversion Hx; subst. simpl.
         split; [exact (copyRecursive_prefix _ _ _ _ _ _ Hx0)|]. split; [done|].
         exact (IH _ _ _ _ Hx0). }
    assert (exists m, forall k, k ∈ map fst m' ->
              exists x y, mapIndex m' k = Some x /\ mapIndex m0 k = Some y
                          /\ eqExported m h1 x y = true) as [m Hm].
    { assert (Forall2 (fun kv kv' => exists m, fst kv' = fst kv
                  /\ eqExported m h1 (snd kv') (snd kv) = true) m0 m') as HF'.
      { eapply Forall2_impl; [exact HF|]. intros kv kv' [? [m ?]]. by exists m. }
      apply (Forall2_common_fuel
               (fun m kv kv' => fst kv' = fst kv
                  /\ eqExported m h1 (snd kv') (snd kv) = true)) in HF' as [m HF'].
      - exists m. by apply (mapIndex_Forall2 (fun x y => eqExported m h1 x y = true)).
      - intros m m2 kv kv' Hmm [? ?]. split; [done|]. by apply (eqExported_mono m m2 h1 h1). }
    exists (S m). simpl.
    rewrite lookup_app_r, Nat.sub_diag by done. simpl.
    rewrite (prefix_lookup_Some _ _ _ _ Hl Hpre).
    apply orb_true_iff. right. apply andb_true_iff.
    split; [by apply bool_decide_eq_true_2|].
    apply forallb_Forall, Forall_forall. intros k Hk.
    destruct (Hm k Hk) as (x & y & -> & -> & Hxy).
    apply (eqExported_mono m m h1); [done|by apply prefix_app_r|done].
Qed.

Lemma deepCopy_eqExported fuel v h h' c :
  deepCopy fuel v h = Ret h' c -> exists m, eqExported m h' c v = true.
Proof.
  unfold deepCopy.
  destruct v as [| | | | | | |[[t x]|]| |]; try (by apply copyRecursive_eqExported).
  - intros Hc. inv_bind Hc. inversion Hc; subst.
    destruct (copyRecursive_eqExported _ _ _ _ _ Hc0) as [m Hm].
    exists (S m). simpl. by rewrite bool_decide_eq_true_2, Hm.
  - done.
Qed.

(** ** Panics keep the heap too *)

Lemma bind_Panic_inv {S A B} (m : M S A) (f : A -> M S B) s s' :
  bind m f s = Panic s' ->
  m s = Panic s' \/ exists s1 a, m s = Ret s1 a /\ f a s1 = Panic s'.
Proof.
  unfold bind. destruct (m s) as [s1 a|s1|].
  - intros H. right. by exists s1, a.
  - intros H. inversion H. by left.
  - done.
Qed.

Lemma mapM_Panic_spec {S A B} (R : relation S) `{!PreOrder R}
    (f : A -> M S B) (xs : list A) :
  (forall x s s' b, f x s = Ret s' b -> R s s') ->
  (forall x s s', f x s = Panic s' -> R s s') ->
  forall s s', mapM f xs s = Panic s' -> R s s'.
Proof.
  intros HRet HPanic. induction xs as [|x xs IH]; intros s s' Hm; simpl in Hm; [done|].
  apply bind_Panic_inv in Hm as [Hx|(s1 & b & Hx & Hm)]; [by eapply HPanic|].
  apply bind_Panic_inv in Hm as [Hxs|(s2 & bs & Hxs & Hm)]; [|done].
  etrans; [by eapply HRet | by apply IH].
Qed.

Lemma copyRecursive_Panic_prefix n : forall v cpy h h',
  copyRecursive n v cpy h = Panic h' -> h `prefix_of` h'.
Proof.
  induction n as [|n IH]; intros v cpy h h' Hc; simpl in Hc; [done|].
  destruct v as [b|z|s|f|xs|fs|[l|]|[[t x]|]|[[[l len] cap]|]|[l|]];
    try (by inversion Hc).
  - destruct cpy as [| | | | |cfs| | | |]; try (by inversion Hc).
    destruct (decide _); [|by inversion Hc].
    apply bind_Panic_inv in Hc as [Hc|(s1 & r & _ & Hc)]; [|done].
    eapply (mapM_Panic_spec prefix); [| |exact Hc].
    + intros [[fd x] [cfd c0]] t t' b. unfold copyField.
      destruct (negb _); [by inversion 1|].
      intros Hb. inv_bind Hb. inversion Hb; subst. by eapply copyRecursive_prefix.
    + intros [[fd x] [cfd c0]] t t'. unfold copyField.
      destruct (negb _); [done|].
      intros Hb. apply bind_Panic_inv in Hb as [Hb|(s1 & r & _ & Hb)]; [|done].
      by eapply IH.
  - destruct (h !! l) as [[x| |]|]; try (by inversion Hc).
    apply bind_Panic_inv in Hc as [Hc|(s1 & r & _ & Hc)]; [by eapply IH|].
    apply bind_Panic_inv in Hc as [Hc|(s2 & r' & _ & Hc)]; done.
  - apply bind_Panic_inv in Hc as [Hc|(s1 & r & _ & Hc)]; [by eapply IH|done].
  - destruct (h !! l) as [[|xs|]|]; try (by inversion Hc).
    destruct (decide _); [|by inversion Hc].
    apply bind_Panic_inv in Hc as [Hc|(s1 & r & _ & Hc)].
    + eapply (mapM_Panic_spec prefix); [| |exact Hc].
      * intros x t t' b Hb. exact (copyRecursive_prefix _ _ _ _ _ _ Hb).
      * intros x t t' Hb. exact (IH _ _ _ _ Hb).
    + apply bind_Panic_inv in Hc as [Hc|(s2 & r' & _ & Hc)]; done.
  - destruct (h !! l) as [[| |m]|]; try (by inversion Hc).
    apply bind_Panic_inv in Hc as [Hc|(s1 & r & _ & Hc)].
    + eapply (mapM_Panic_spec prefix); [| |exact Hc].
      * intros x t t' b Hb. inv_bind Hb. inversion Hb; subst.
        exact (copyRecursive_prefix _ _ _ _ _ _ Hb0).
      * intros x t t' Hb.
        apply bind_Panic_inv in Hb as [Hb|(s1 & r & _ & Hb)]; [|done].
        exact (IH _ _ _ _ Hb).
    + apply bind_Panic_inv in Hc as [Hc|(s2 & r' & _ & Hc)]; done.
Qed.

Lemma deepCopy_Panic_prefix fuel v h h' :
  deepCopy fuel v h = Panic h' -> h `prefix_of` h'.
Proof.
  unfold deepCopy.
  destruct v as [| | | | | | |[[t x]|]| |]; try (by apply copyRecursive_Panic_prefix).
  - intros Hc. apply bind_Panic_inv in Hc as [Hc|(s1 & a & _ & Hc)]; [|done].
    by eapply copyRecursive_Panic_prefix.
  - by inversion 1.
Qed.

(** ** Registry and cache stay in step *)

Lemma elem_of_keysOf key l : key ∈ keysOf l <-> exists it, it ∈ l /\ ikey it = key.
Proof.
  unfold keysOf. rewrite elem_of_list_to_set, list_elem_of_fmap. naive_solver.
Qed.

Lemma keysOf_cons it l : keysOf (it :: l) = {[ikey it]} ∪ keysOf l.
Proof. reflexivity. Qed.

Lemma keysOf_dropItem key l : keysOf (dropItem key l) = keysOf l ∖ {[key]}.
Proof.
  apply set_eq. intros k. rewrite elem_of_difference, !elem_of_keysOf.
  unfold dropItem. setoid_rewrite list_elem_of_filter.
  rewrite elem_of_singleton. naive_solver.
Qed.

Lemma findItem_keysOf key l : findItem key l = None <-> key ∉ keysOf l.
Proof.
  rewrite elem_of_keysOf. split.
  - intros Hnone (it & Hin & Hk). by apply (findItem_None _ _ _ Hnone Hin).
  - intros Hnot. destruct (findItem key l) as [it|] eqn:Hf; [|done].
    apply findItem_Some in Hf as [? ?]. exfalso. apply Hnot. eauto.
Qed.

Lemma live_prefix h h' it : h `prefix_of` h' -> live h it -> live h' it.
Proof.
  intros Hh (l & cur & Hv & Hl). exists l, cur. split; [done|].
  by eapply prefix_lookup_Some.
Qed.

Lemma Forall_live_dropItem h key l :
  Forall (live h) l -> Forall (live h) (dropItem key l).
Proof.
  rewrite !Forall_forall. intros Hl it Hin.
  apply list_elem_of_filter in Hin as [_ Hin]. by apply Hl.
Qed.

Lemma saveIfModified_no_panic fuel key it st s :
  live (mem st) it -> saveIfModified fuel key (ivalue it) st <> Panic s.
Proof.
  intros (l & cur & -> & Hl). unfold saveIfModified.
  destruct (copies st !! key) as [old|]; [|done]. simpl. rewrite Hl.
  destruct (deepValueEqual _ _ _ _) as [[|]|]; try done.
  by destruct (dbUpdates _ _ _ _) as [d [e|]].
Qed.

Lemma removeElement_no_panic fuel it st s :
  live (mem st) it -> removeElement fuel it st <> Panic s.
Proof.
  intros Hl. rewrite removeElement_unfold, evictToDB_unfold, saveIfModified_setItems.
  pose proof (saveIfModified_no_panic fuel (ikey it) it st) as Hnp.
  destruct (saveIfModified _ _ _ _) as [s' err|s'|]; try done.
  by specialize (Hnp s' Hl).
Qed.

(** The state [lruSet] leaves: the new entry in front of what is left of
    the old entries after the removal, if any, of the least recently used
    one. *)
Lemma lruSet_Ret fuel now key v st s :
  lruSet fuel now key v st = Ret s tt ->
  exists s0,
    items s = Item key v (now + expiration) :: dropItem key (items s0)
    /\ copies s = copies s0 /\ mem s = mem s0
    /\ (s0 = st
        \/ findItem key (items st) = None
           /\ exists it, it ∈ items st /\ removeElement fuel it st = Ret s0 tt).
Proof.
  unfold lruSet. intros Hs. inv_bind Hs. inv_bind Hs.
  unfold logCacheAdd, modify in *. inversion Hs; subst; clear Hs.
  inversion Hs1; subst; clear Hs1. exists s0. repeat split.
  destruct (findItem key (items st)) as [it|] eqn:Hf.
  { inversion Hs0. by left. }
  destruct (decide _); [|inversion Hs0; by left].
  unfold lruEvict in Hs0. destruct (last (items st)) as [it|] eqn:Hlast.
  - right. split; [done|]. exists it. destruct a. split; [|done].
    apply last_Some in Hlast as [l' Hl']. rewrite Hl'. apply elem_of_app. right. left.
  - inversion Hs0. by left.
Qed.

Lemma lruSet_no_panic fuel now key v st s :
  Forall (live (mem st)) (items st) -> lruSet fuel now key v st <> Panic s.
Proof.
  intros Hlive Hs. unfold lruSet in Hs.
  apply bind_Panic_inv in Hs as [Hs|(s1 & a & _ & Hs)].
  - destruct (findItem key (items st)); [done|].
    destruct (decide _); [|done].
    unfold lruEvict in Hs. destruct (last (items st)) as [it|] eqn:Hlast; [|done].
    apply (removeElement_no_panic fuel it st s); [|done].
    rewrite Forall_forall in Hlive. apply Hlive.
    apply last_Some in Hlast as [l' Hl']. rewrite Hl'. apply elem_of_app. right. left.
  - apply bind_Panic_inv in Hs as [Hs|(s2 & a' & _ & Hs)]; done.
Qed.

Lemma lruSet_inSync fuel now key l cur st s :
  dom (copies st) = {[key]} ∪ keysOf (items st) ->
  Forall (live (mem st)) (items st) ->
  mem st !! l = Some (CVar cur) ->
  lruSet fuel now key (BoxPtrT (Some l)) st = Ret s tt ->
  inSync s /\ mem s = mem st
  /\ copies s !! key = copies st !! key
  /\ (forall k b, copies s !! k = Some b -> copies st !! k = Some b)
  /\ findItem key (items s)
     = Some (Item key (BoxPtrT (Some l)) (now + expiration)).
Proof.
  intros Hdom Hlive Hl Hs.
  destruct (lruSet_Ret _ _ _ _ _ _ Hs) as (s0 & Hi & Hc & Hm & Hs0).
  assert (findItem key (items s)
          = Some (Item key (BoxPtrT (Some l)) (now + expiration))) as Hfind.
  { rewrite Hi. simpl. by destruct (decide (key = key)). }
  destruct Hs0 as [->|(Habs & it & Hin & Hrm)].
  - repeat split; try done.
    + rewrite Hc, Hdom, Hi, keysOf_cons, keysOf_dropItem. simpl.
      apply set_eq. intros k. destruct (decide (k = key)); set_solver.
    + rewrite Hi, Hm. constructor; [by exists l, cur|].
      by apply Forall_live_dropItem.
    + by rewrite Hc.
    + by rewrite Hc.
  - destruct (removeElement_Ret _ _ _ _ Hrm) as (Hm0 & _ & Hc0 & Hi0 & _).
    pose proof (findItem_None _ _ _ Habs Hin) as Hne.
    repeat split.
    + rewrite Hc, Hc0, dom_delete_L, Hdom, Hi, keysOf_cons. simpl.
      rewrite keysOf_dropItem, Hi0, keysOf_dropItem.
      apply set_eq. intros k.
      destruct (decide (k = key)), (decide (k = ikey it)); set_solver.
    + rewrite Hi, Hm, Hm0. constructor; [by exists l, cur|].
      apply Forall_live_dropItem. rewrite Hi0. by apply Forall_live_dropItem.
    + by rewrite Hm, Hm0.
    + rewrite Hc, Hc0. by rewrite lookup_delete_ne.
    + intros k b. rewrite Hc, Hc0. intros Hk.
      apply lookup_delete_Some in Hk as [_ Hk]. done.
    + done.
Qed.

Lemma onHeap_Ret {A} (m : M heap A) st s a :
  onHeap m st = Ret s a -> exists h, m (mem st) = Ret h a /\ s = setMem h st.
Proof.
  unfold onHeap. destruct (m (mem st)) as [h a'| |]; [|done..].
  inversion 1; subst. by exists h.
Qed.

Lemma removeElement_inSync fuel it st s :
  inSync st -> removeElement fuel it st = Ret s tt ->
  inSync s
  /\ (forall k b, copies s !! k = Some b -> copies st !! k = Some b)
  /\ findItem (ikey it) (items s) = None.
Proof.
  intros [Hdom Hlive] Hrm.
  destruct (removeElement_Ret _ _ _ _ Hrm) as (Hm & _ & Hc & Hi & _).
  split; [split|split].
  - by rewrite Hc, Hi, dom_delete_L, keysOf_dropItem, Hdom.
  - rewrite Hi, Hm. by apply Forall_live_dropItem.
  - intros k b. rewrite Hc. intros Hk. by apply lookup_delete_Some in Hk as [_ Hk].
  - rewrite Hi. apply findItem_dropItem.
Qed.

Lemma baselinesFaithful_sub st s g :
  (forall k b, copies s !! k = Some b -> copies st !! k = Some b) ->
  baselinesFaithful st g -> baselinesFaithful s g.
Proof. intros Hsub HJ key b Hk. apply HJ. by apply Hsub. Qed.

(** A baseline recorded by [deepCopy] for the live entry [v], then the
    [lruSet] of a pointer to [v]. *)
Lemma record_then_lruSet fuel now key v c h0 h1 st s g :
  inSync st -> baselinesFaithful st g ->
  mem st `prefix_of` h0 ->
  deepCopy fuel v h0 = Ret h1 c ->
  lruSet fuel now key (BoxPtrT (Some (length h1)))
    (State (db st) (h1 ++ [CVar v]) (<[key := c]> (copies st))
           (items st) (size st) (trace st)) = Ret s tt ->
  inSync s
  /\ baselinesFaithful s (<[key := (mem s, v)]> g)
  /\ liveValue key s = Some v.
Proof.
  intros [Hdom Hlive] HJ Hpre0 Hc Hs.
  pose proof (deepCopy_prefix _ _ _ _ _ Hc) as Hpre1.
  assert (mem st `prefix_of` h1 ++ [CVar v]) as Hpre.
  { etrans; [exact Hpre0|]. etrans; [exact Hpre1 | by apply prefix_app_r]. }
  eapply (lruSet_inSync _ _ _ _ v) in Hs as (Hsync & Hm & Hk & Hsub & Hfind); simpl in *.
  - split; [done|]. split.
    + intros k b Hb. destruct (decide (k = key)) as [->|Hne].
      * rewrite Hk, lookup_insert_eq in Hb. inversion Hb; subst b.
        destruct (deepCopy_eqExported _ _ _ _ _ Hc) as [m Hm'].
        exists (mem s), v, m. rewrite lookup_insert_eq. split; [done|].
        rewrite Hm. apply (eqExported_mono m m h1); [done|by apply prefix_app_r|done].
      * apply Hsub in Hb. rewrite lookup_insert_ne in Hb by done.
        destruct (HJ k b Hb) as (h' & v' & n & Hg & He).
        exists h', v', n. by rewrite lookup_insert_ne.
    + unfold liveValue. rewrite Hfind, Hm.
      by rewrite lookup_app_r, Nat.sub_diag.
  - by rewrite dom_insert_L, Hdom.
  - eapply Forall_impl; [exact Hlive|]. intros it. by apply live_prefix.
  - by rewrite lookup_app_r, Nat.sub_diag.
Qed.

Lemma Set_step fuel now key v st s err g :
  inSync st -> baselinesFaithful st g ->
  Set_ fuel now key v st = Ret s err ->
  inSync s /\ baselinesFaithful s (<[key := (mem s, v)]> g).
Proof.
  intros Hsync HJ Hs. unfold Set_ in Hs.
  inv_bind Hs. inv_bind Hs. inv_bind Hs. inv_bind Hs.
  apply onHeap_Ret in Hs0 as (h1 & Hc & ->).
  unfold modify in Hs1. inversion Hs1; subst; clear Hs1.
  apply onHeap_Ret in Hs2 as (h2 & Ha & ->). apply alloc_Ret in Ha as [-> ->].
  inversion Hs; subst; clear Hs. destruct a2. simpl in *.
  destruct (record_then_lruSet fuel now key v a (mem st) h1 st s g) as (? & ? & _);
    done.
Qed.

Lemma loadFromDB_unfold fuel key st :
  loadFromDB fuel key st
  = match dbFirst (db st) (mem st) key with
    | inl e => Ret st (Err (ELoad e))
    | inr (cells, entity) =>
        match deepCopy fuel entity (mem st ++ cells) with
        | Ret h1 c =>
            Ret (State (db st) (h1 ++ [CVar entity]) (<[key := c]> (copies st))
                       (items st) (size st) (trace st))
                (Ok (BoxPtrT (Some (length h1))))
        | Panic h1 => Panic (setMem h1 st)
        | Diverge => Diverge
        end
    end.
Proof.
  unfold loadFromDB. destruct (dbFirst _ _ _) as [e|[cells entity]]; [done|].
  unfold bind, onHeap, modify, alloc, ret. simpl.
  by destruct (deepCopy _ _ _).
Qed.

Lemma lruGetWithLoader_step fuel now key st s r g :
  inSync st -> baselinesFaithful st g ->
  findItem key (items st) = None ->
  lruGetWithLoader fuel now key st = Ret s r ->
  inSync s
  /\ baselinesFaithful s (match liveValue key s with
                          | Some v => <[key := (mem s, v)]> g
                          | None => g
                          end).
Proof.
  intros Hsync HJ Habs Hs.
  assert (liveValue key st = None) as Hnone by (unfold liveValue; by rewrite Habs).
  unfold lruGetWithLoader, recover, bind in Hs. rewrite loadFromDB_unfold in Hs.
  destruct (dbFirst (db st) (mem st) key) as [e|[cells entity]] eqn:Hf.
  { inversion Hs; subst. by rewrite Hnone. }
  destruct (deepCopy fuel entity (mem st ++ cells)) as [h1 c|h1|] eqn:Hc;
    simpl in Hs; [| |done].
  - unfold ret in Hs.
    match type of Hs with
    | match match lruSet ?f ?n ?k ?v ?t with _ => _ end with _ => _ end = _ =>
        destruct (lruSet f n k v t) as [s1 []|s1|] eqn:Hset
    end; [| |done].
    + inversion Hs; subst s1 r; clear Hs.
      destruct (record_then_lruSet fuel now key entity c (mem st ++ cells) h1 st s g)
        as (? & ? & ->); try done. by apply prefix_app_r.
    + exfalso. apply (lruSet_no_panic _ _ _ _ _ _) in Hset; [done|]. simpl.
      destruct Hsync as [_ Hlive]. eapply Forall_impl; [exact Hlive|].
      intros it. apply live_prefix.
      etrans; [by apply prefix_app_r|].
      etrans; [exact (deepCopy_prefix _ _ _ _ _ Hc) | by apply prefix_app_r].
  - unfold ret in Hs. inversion Hs; subst; clear Hs.
    unfold liveValue. simpl. rewrite Habs.
    destruct Hsync as [Hdom Hlive]. split; [split|]; simpl; try done.
    eapply Forall_impl; [exact Hlive|]. intros it. apply live_prefix.
    etrans; [by apply prefix_app_r | exact (deepCopy_Panic_prefix _ _ _ _ Hc)].
Qed.

Lemma Get_step fuel now key st s r g :
  inSync st -> baselinesFaithful st g ->
  Get fuel now key st = Ret s r ->
  inSync s /\ baselinesFaithful s (observe (OpGet now key) st s g).
Proof.
  intros Hsync HJ Hs. unfold Get in Hs. inv_bind Hs.
  assert (s = s0) as ->.
  { destruct a as [[p|tag]|e]; by inversion Hs. }
  clear Hs. unfold lruGet in Hs0. inv_bind Hs0.
  unfold observe, isHit. unfold lruGetValue in Hs1.
  destruct (findItem key (items st)) as [it|] eqn:Hfind.
  - destruct (findItem_Some _ _ _ Hfind) as [Hkey Hin].
    destruct (isExpired now it) eqn:Hexp; simpl.
    + inv_bind Hs1. inversion Hs1; subst; clear Hs1. destruct a1.
      destruct (removeElement_inSync _ _ _ _ Hsync Hs2) as (Hsync' & Hsub & Habs).
      eapply lruGetWithLoader_step; [exact Hsync'| |exact Habs|exact Hs0].
      by eapply baselinesFaithful_sub.
    + inversion Hs1; subst; clear Hs1. inversion Hs0; subst; clear Hs0.
      destruct Hsync as [Hdom Hlive]. split; [split|]; simpl; try done.
      * rewrite Hdom, keysOf_cons, keysOf_dropItem.
        assert (ikey it ∈ keysOf (items st)) by (apply elem_of_keysOf; eauto).
        apply set_eq. intros k. destruct (decide (k = ikey it)); set_solver.
      * constructor; [|by apply Forall_live_dropItem].
        rewrite Forall_forall in Hlive. by apply Hlive.
  - inversion Hs1; subst; clear Hs1. simpl.
    eapply lruGetWithLoader_step; [exact Hsync|exact HJ|exact Hfind|exact Hs0].
Qed.

Lemma purgeToDB_Ret fuel key v st s :
  purgeToDB fuel key v st = Ret s tt ->
  mem s = mem st /\ items s = items st /\ copies s = delete key (copies st).
Proof.
  rewrite purgeToDB_unfold.
  destruct (saveIfModified _ _ _ _) as [s' err| |] eqn:Hs; [|done..].
  destruct (saveIfModified_Ret _ _ _ _ _ _ Hs)
    as (evs & (Hm & Hc & Hi & _) & _).
  inversion 1; subst. destruct err; simpl; by rewrite ?Hm, ?Hc, ?Hi.
Qed.

Local Instance purging_preorder : PreOrder purging.
Proof.
  split.
  - intros s. by repeat split.
  - intros s1 s2 s3 (Hm1 & Hi1 & Hc1) (Hm2 & Hi2 & Hc2). repeat split.
    + by rewrite Hm2.
    + by rewrite Hi2.
    + eauto.
Qed.

Lemma Purge_step fuel st s g :
  inSync st -> baselinesFaithful st g ->
  Purge fuel st = Ret s tt ->
  inSync s /\ baselinesFaithful s g /\ items s = [] /\ copies s = ∅.
Proof.
  intros [Hdom Hlive] HJ Hs. unfold Purge, lruPurge in Hs.
  inv_bind Hs. unfold modify in Hs. inversion Hs; subst; clear Hs.
  eapply (mapM_Ret_spec purging
            (fun it t (_ : unit) => copies t !! ikey it = None)) in Hs0
    as [(Hm & Hi & Hsub) HF].
  2: { intros it [] s1 s2 Hk (_ & _ & Hc).
       destruct (copies s2 !! ikey it) as [b|] eqn:Hb; [|done].
       apply Hc in Hb. congruence. }
  2: { intros it t t' [] _ Ht. apply purgeToDB_Ret in Ht as (Hm & Hi & Hc).
       split; [|by rewrite Hc, lookup_delete_eq].
       repeat split; try done. intros k b. rewrite Hc. intros Hk.
       by apply lookup_delete_Some in Hk as [_ Hk]. }
  assert (copies s0 = ∅) as Hempty.
  { apply map_eq. intros k. rewrite lookup_empty.
    destruct (copies s0 !! k) as [b|] eqn:Hb; [|done].
    assert (k ∈ keysOf (items st)) as Hk.
    { rewrite <- Hdom. apply elem_of_dom. exists b. by apply Hsub. }
    apply elem_of_keysOf in Hk as (it & Hin & <-).
    apply list_elem_of_lookup in Hin as [i Hi'].
    destruct (Forall2_lookup_l _ _ _ _ _ HF Hi') as ([] & _ & Hnone). congruence. }
  split; [split|split; [|split]]; simpl; try done.
  - rewrite Hempty. by rewrite dom_empty_L.
  - intros k b. simpl. rewrite Hempty, lookup_empty. done.
Qed.

Lemma assign_step l v st s g :
  inSync st -> baselinesFaithful st g ->
  assign l v st = Ret s tt ->
  inSync s /\ baselinesFaithful s g.
Proof.
  intros [Hdom Hlive] HJ Hs. unfold assign in Hs.
  destruct (mem st !! l) as [[old| |]|] eqn:Hl; try done.
  inversion Hs; subst; clear Hs. split; [split|]; simpl; try done.
  eapply Forall_impl; [exact Hlive|]. intros it (l' & cur & Hv & Hl').
  destruct (decide (l' = l)) as [->|Hne].
  - exists l, v. split; [done|]. apply list_lookup_insert_eq.
    by eapply lookup_lt_Some.
  - exists l', cur. split; [done|]. by rewrite list_lookup_insert_ne.
Qed.

Lemma lruRemove_step fuel key st s g :
  inSync st -> baselinesFaithful st g ->
  lruRemove fuel key st = Ret s tt ->
  inSync s /\ baselinesFaithful s g.
Proof.
  intros Hsync HJ Hs. unfold lruRemove in Hs.
  destruct (findItem key (items st)) as [it|].
  - destruct (removeElement_inSync _ _ _ _ Hsync Hs) as (? & Hsub & _).
    split; [done|]. by eapply baselinesFaithful_sub.
  - by inversion Hs; subst.
Qed.

Lemma step_preserves fuel o st s g :
  inSync st -> baselinesFaithful st g ->
  step fuel o st = Ret s tt ->
  inSync s /\ baselinesFaithful s (observe o st s g).
Proof.
  intros Hsync HJ Hs. destruct o as [now key|now key v|l v|key|]; simpl in Hs.
  - inv_bind Hs. inversion Hs; subst. by eapply Get_step.
  - inv_bind Hs. inversion Hs; subst. by eapply Set_step.
  - by eapply assign_step.
  - by eapply lruRemove_step.
  - destruct (Purge_step _ _ _ _ Hsync HJ Hs) as (? & ? & _). done.
Qed.

Lemma runHist_preserves fuel ops : forall st s g g',
  inSync st -> baselinesFaithful st g ->
  runHist fuel ops g st = Ret s g' ->
  inSync s /\ baselinesFaithful s g'.
Proof.
  induction ops as [|o ops IH]; intros st s g g' Hsync HJ Hr; simpl in Hr.
  - by inversion Hr; subst.
  - destruct (step fuel o st) as [s1 []| |] eqn:Hstep; [|done..].
    destruct (step_preserves _ _ _ _ _ Hsync HJ Hstep). by eapply IH.
Qed.

Lemma run_runHist fuel ops : forall st s g,
  run fuel ops st = Ret s tt -> exists g', runHist fuel ops g st = Ret s g'.
Proof.
  induction ops as [|o ops IH]; intros st s g Hr; simpl in *.
  - inversion Hr; subst. by exists g.
  - inv_bind Hr. destruct a. rewrite Hr0. by apply IH.
Qed.

(** C9. After every sequence of [Get], [Set], eviction and purge (and of
    assignments by the caller through the pointers it holds) on a fresh
    cache, the snapshot registry holds exactly the keys the cache holds,
    and every baseline in it was equal, over exported state, to the live
    entry at the moment it was recorded, by the load or by the last
    [Set]. *)
Theorem registry_mirrors_cache
    (fuel : nat) (ops : list op) (d : DB) (sz : Z) (h : heap) (st0 st : state) :
  NewWithCache d sz h = Some st0 ->
  run fuel ops st0 = Ret st tt ->
  dom (copies st) = keysOf (items st)
  /\ exists g, runHist fuel ops ∅ st0 = Ret st g
       /\ forall key b, copies st !! key = Some b ->
            exists h0 v0 n, g !! key = Some (h0, v0)
                            /\ eqExported n h0 b v0 = true.
Proof.
  intros Hnew Hrun. unfold NewWithCache in Hnew.
  destruct (decide _); [done|]. inversion Hnew; subst; clear Hnew.
  destruct (run_runHist _ _ _ _ ∅ Hrun) as [g Hg].
  pose proof Hg as Hg'.
  eapply runHist_preserves in Hg' as [[Hdom _] HJ].
  - split; [done|]. by exists g.
  - split; simpl; [|constructor]. unfold keysOf. simpl. by rewrite dom_empty_L.
  - intros key b Hk. simpl in Hk. by rewrite lookup_empty in Hk.
Qed.

(** ** Entries a deep copy reproduces are not written back *)

Lemma mapM_Ret_spec_pre {S A B} (R : relation S) `{!PreOrder R}
    (Q : A -> S -> Prop) (P : A -> S -> B -> Prop) (f : A -> M S B) (xs : list A) :
  (forall x s1 s2, Q x s1 -> R s1 s2 -> Q x s2) ->
  (forall x b s1 s2, P x s1 b -> R s1 s2 -> P x s2 b) ->
  (forall x s s' b, x ∈ xs -> Q x s -> f x s = Ret s' b -> R s s' /\ P x s' b) ->
  forall s s' bs, Forall (fun x => Q x s) xs -> mapM f xs s = Ret s' bs ->
    R s s' /\ Forall2 (fun x b => P x s' b) xs bs.
Proof.
  intros HQ HP. induction xs as [|x xs IH]; intros Hf s s' bs Hall Hm; simpl in Hm.
  - inversion Hm; subst. split; [reflexivity | constructor].
  - inv_bind Hm. inv_bind Hm. inversion Hm; subst; clear Hm.
    inversion Hall as [|? ? Hx Hxs]; subst.
    destruct (Hf x s s0 a) as [HR HPx]; [left | done | done |].
    destruct (IH (fun y t t' b Hy => Hf y t t' b (list_elem_of_further _ _ _ Hy))
                 s0 s' a0) as [HR' HF]; [|done|].
    { eapply Forall_impl; [exact Hxs|]. intros y Hy. exact (HQ _ _ _ Hy HR). }
    split; [by etrans | constructor; eauto].
Qed.

Lemma allM_zip_Forall2 {A B} (p : A * B -> option bool) (l : list A) (k : list B) :
  Forall2 (fun a b => p (a, b) = Some true) l k -> allM p (zip l k) = Some true.
Proof. induction 1 as [|a b l k Hab _ IH]; simpl; [done|]. by rewrite Hab. Qed.

Lemma allM_zip_diag {A} (p : A * A -> option bool) (l : list A) :
  (forall x, x ∈ l -> p (x, x) = Some true) -> allM p (zip l l) = Some true.
Proof.
  induction l as [|x l IH]; simpl; intros Hp; [done|].
  rewrite Hp by left. apply IH. intros y Hy. apply Hp. by right.
Qed.

Lemma allM_Forall {A} (p : A -> option bool) (l : list A) :
  Forall (fun x => p x = Some true) l -> allM p l = Some true.
Proof. induction 1 as [|x l Hx _ IH]; simpl; [done|]. by rewrite Hx. Qed.

Lemma selfEqual_deepValueEqual n : forall h v,
  selfEqual v = true -> (inlineDepth v <= n)%nat ->
  deepValueEqual n h v v = Some true.
Proof.
  induction n as [|n IH]; intros h v Hv Hd.
  { destruct v as [| | | | | | |[[]|]| |]; simpl in Hd; lia. }
  destruct v as [b|z|s|f|xs|fs|[l|]|[[t x]|]|[[[l len] cap]|]|[l|]]; simpl in *;
    try done.
  - by rewrite bool_decide_eq_true_2.
  - by rewrite bool_decide_eq_true_2.
  - by rewrite bool_decide_eq_true_2.
  - apply bool_decide_eq_true in Hv. by subst f.
  - destruct (decide _); [|done]. apply allM_zip_diag. intros x Hx. simpl.
    apply IH.
    + rewrite forallb_Forall, Forall_forall in Hv. by apply Hv.
    + assert (inlineDepth x <= max_list (map inlineDepth xs))%nat; [|lia].
      apply max_list_elem_of_le. by apply list_elem_of_fmap_2.
  - destruct (decide _); [|done]. apply allM_zip_diag. intros [f x] Hx. simpl.
    apply IH.
    + rewrite forallb_Forall, Forall_forall in Hv. by apply (Hv (f, x)).
    + assert (inlineDepth x <= max_list (map (fun p => inlineDepth (snd p)) fs))%nat;
        [|lia].
      apply max_list_elem_of_le.
      by apply (list_elem_of_fmap_2 (fun p => inlineDepth (snd p)) _ (f, x)).
  - by destruct (decide _).
  - destruct (decide _); [|done]. apply IH; [done|lia].
  - destruct (decide _); [|done]. by destruct (decide _).
  - by destruct (decide _).
Qed.

Lemma isZero_deepValueEqual n : forall h v,
  isZero v = true -> (inlineDepth v <= n)%nat ->
  deepValueEqual n h (zeroOf v) v = Some true.
Proof.
  induction n as [|n IH]; intros h v Hv Hd.
  { destruct v as [| | | | | | |[[]|]| |]; simpl in Hd; lia. }
  destruct v as [b|z|s|f|xs|fs|[l|]|[[t x]|]|[[[l len] cap]|]|[l|]]; simpl in *;
    try done.
  - destruct b; [done|]. by rewrite bool_decide_eq_true_2.
  - apply bool_decide_eq_true in Hv. subst z. by rewrite bool_decide_eq_true_2.
  - apply bool_decide_eq_true in Hv. subst s. by rewrite bool_decide_eq_true_2.
  - apply bool_decide_eq_true in Hv. by subst f.
  - rewrite length_map. destruct (decide _); [|done].
    apply allM_zip_Forall2. apply Forall2_fmap_l, Forall_Forall2_diag.
    rewrite forallb_Forall in Hv. rewrite Forall_forall in *. intros x Hx. simpl.
    apply IH; [by apply Hv|].
    assert (inlineDepth x <= max_list (map inlineDepth xs))%nat; [|lia].
    apply max_list_elem_of_le. by apply list_elem_of_fmap_2.
  - rewrite length_map. destruct (decide _); [|done].
    apply allM_zip_Forall2. apply Forall2_fmap_l, Forall_Forall2_diag.
    rewrite forallb_Forall in Hv. rewrite Forall_forall in *. intros [f x] Hx. simpl.
    apply IH; [by apply (Hv (f, x))|].
    assert (inlineDepth x <= max_list (map (fun p => inlineDepth (snd p)) fs))%nat;
      [|lia].
    apply max_list_elem_of_le.
    by apply (list_elem_of_fmap_2 (fun p => inlineDepth (snd p)) _ (f, x)).
Qed.

Lemma reproducible_heap_mono n : forall h h' v,
  h `prefix_of` h' -> reproducible n h v = true -> reproducible n h' v = true.
Proof.
  induction n as [|n IH]; intros h h' v Hh; simpl; [done|].
  destruct v as [b|z|s|f|xs|fs|[l|]|[[t x]|]|[[[l len] cap]|]|[l|]]; try done.
  - apply forallb_impl. intros [f x] _. simpl. destruct (exported f); [|done].
    by apply IH.
  - destruct (h !! l) as [[x|xs|m]|] eqn:Hl; try done.
    rewrite (prefix_lookup_Some _ _ _ _ Hl Hh). by apply IH.
  - by apply IH.
  - destruct (h !! l) as [[x|xs|m]|] eqn:Hl; try done.
    rewrite (prefix_lookup_Some _ _ _ _ Hl Hh).
    rewrite !andb_true_iff. intros [? Hxs]. split; [done|].
    revert Hxs. apply forallb_impl. intros x _. by apply IH.
  - destruct (h !! l) as [[x|xs|m]|] eqn:Hl; try done.
    rewrite (prefix_lookup_Some _ _ _ _ Hl Hh).
    apply forallb_impl. intros x _. by apply IH.
Qed.

(** [reflect.DeepEqual] finds the copy of a reproducible value equal to the
    value. *)
Lemma copyRecursive_deepValueEqual n : forall fuel v h h' c,
  reproducible n h v = true ->
  copyRecursive fuel v (zeroOf v) h = Ret h' c ->
  exists m, deepValueEqual m h' c v = Some true.
Proof.
  induction n as [|n IH]; intros fuel v h h' c Hv Hc; [done|].
  destruct fuel as [|fuel]; [done|].
  pose proof (copyRecursive_prefix _ _ _ _ _ _ Hc) as Hpre.
  destruct v as [b|z|s|f|xs|fs|[l|]|[[t x]|]|[[[l len] cap]|]|[l|]];
    simpl in Hc, Hv;
    try (inversion Hc; subst; exists 1%nat; simpl; by rewrite ?bool_decide_eq_true_2).
  - (* function *)
    inversion Hc; subst. apply bool_decide_eq_true in Hv. subst f. by exists 1%nat.
  - (* array *)
    inversion Hc; subst. eexists. apply selfEqual_deepValueEqual; [done|reflexivity].
  - (* struct *)
    rewrite length_map in Hc. destruct (decide _) as [_|]; [|done].
    inv_bind Hc. inversion Hc; subst; clear Hc. rename a into cfs, Hc0 into Hm.
    rewrite zip_with_zero in Hm.
    eapply (mapM_Ret_spec_pre prefix
              (fun p s => if exported (fst (fst p))
                          then reproducible n s (snd (fst p)) = true
                               /\ snd (snd p) = zeroOf (snd (fst p))
                          else isZero (snd (fst p)) = true
                               /\ snd (snd p) = zeroOf (snd (fst p)))
              (fun p s b => exists m, deepValueEqual m s (snd b) (snd (fst p)) = Some true))
      in Hm as [_ HF].
    + apply Forall2_fmap_l in HF. apply Forall2_flip in HF.
      apply (Forall2_common_fuel
               (fun m cf f => deepValueEqual m h' (snd cf) (snd f) = Some true)) in HF
        as [m HF].
      2: { intros m m' cf f Hmm. by apply deepValueEqual_mono. }
      exists (S m). simpl.
      rewrite (Forall2_length _ _ _ HF). destruct (decide _); [|done].
      by apply (allM_zip_Forall2
                  (fun p => deepValueEqual m h' (snd (fst p)) (snd (snd p)))).
    + intros [[fd x] [cfd c0]] s1 s2 HQ Hs. simpl in *.
      destruct (exported fd); [|done].
      destruct HQ. split; [|done]. by eapply reproducible_heap_mono.
    + intros p b s1 s2 [m Hm'] Hs. exists m. by apply (deepValueEqual_mono m m s1 s2).
    + intros [[fd x] [cfd c0]] s s' b _ HQ. unfold copyField. simpl in *.
      unfold exported in HQ. destruct (String.eqb (pkgPath fd) ""); simpl.
      * destruct HQ as [Hx ->]. intros Hb. inv_bind Hb. inversion Hb; subst. simpl.
        split; [exact (copyRecursive_prefix _ _ _ _ _ _ Hb0)|].
        exact (IH _ _ _ _ _ Hx Hb0).
      * destruct HQ as [Hx ->]. inversion 1; subst. simpl. split; [done|].
        eexists. apply isZero_deepValueEqual; [done|reflexivity].
    + apply Forall_fmap. rewrite forallb_Forall in Hv.
      eapply Forall_impl; [exact Hv|]. intros [fd x]. simpl.
      by destruct (exported fd).
  - (* pointer *)
    destruct (h !! l) as [[x| |]|] eqn:Hl; try done.
    inv_bind Hc. inv_bind Hc. inversion Hc; subst; clear Hc.
    apply alloc_Ret in Hc1 as [-> ->].
    destruct (IH _ _ _ _ _ Hv Hc0) as [m Hm]. exists (S m). simpl.
    assert (length s <> l) as Hne.
    { apply lookup_lt_Some in Hl. apply prefix_length in Hpre.
      rewrite length_app in Hpre. simpl in Hpre.
      pose proof (prefix_length _ _ (copyRecursive_prefix _ _ _ _ _ _ Hc0)). lia. }
    destruct (decide _); [done|].
    rewrite lookup_app_r, Nat.sub_diag by done. simpl.
    rewrite (prefix_lookup_Some _ _ _ _ Hl Hpre).
    apply (deepValueEqual_mono m m s); [done|by apply prefix_app_r|done].
  - (* interface *)
    inv_bind Hc. inversion Hc; subst; clear Hc.
    destruct (IH _ _ _ _ _ Hv Hc0) as [m Hm]. exists (S m). simpl.
    by destruct (decide _).
  - (* slice *)
    destruct (h !! l) as [[|xs|]|] eqn:Hl; try done.
    destruct (decide _) as [Hb|]; [|done].
    apply andb_true_iff in Hv as [_ Hv].
    inv_bind Hc. inv_bind Hc. inversion Hc; subst; clear Hc.
    apply alloc_Ret in Hc1 as [-> ->]. rename a into cs, s into h1.
    pose proof (mapM_length _ _ _ _ _ Hc0) as Hlen.
    rewrite length_take_le in Hlen by lia.
    pose proof Hc0 as Hm.
    eapply (mapM_Ret_spec_pre prefix
              (fun x s => reproducible n s x = true)
              (fun x s cx => exists m, deepValueEqual m s cx x = Some true))
      in Hm as [Hpre1 HF].
    2: { intros x s1 s2 ? ?. by eapply reproducible_heap_mono. }
    2: { intros x cx s1 s2 [m Hm'] Hs. exists m. by apply (deepValueEqual_mono m m s1 s2). }
    2: { intros x s s' cx _ Hx Hcx. split; [exact (copyRecursive_prefix _ _ _ _ _ _ Hcx)|].
         exact (IH _ _ _ _ _ Hx Hcx). }
    2: { by apply forallb_Forall. }
    apply Forall2_flip in HF.
    apply (Forall2_common_fuel (fun m cx x => deepValueEqual m h1 cx x = Some true)) in HF
      as [m HF].
    2: { intros m m' cx x Hmm. by apply deepValueEqual_mono. }
    exists (S m). simpl. destruct (decide _); [|done].
    assert (length h1 <> l) as Hne.
    { apply lookup_lt_Some in Hl. apply prefix_length in Hpre1. lia. }
    destruct (decide _); [done|].
    rewrite lookup_app_r, Nat.sub_diag by done. simpl.
    rewrite (prefix_lookup_Some _ _ _ _ Hl Hpre).
    rewrite take_app_length' by done.
    apply (allM_zip_Forall2 (fun p => deepValueEqual m _ (fst p) (snd p))).
    eapply Forall2_impl; [exact HF|]. intros cx x Hx. simpl.
    apply (deepValueEqual_mono m m h1); [done|by apply prefix_app_r|done].
  - (* map *)
    destruct (h !! l) as [[| |m0]|] eqn:Hl; try done.
    inv_bind Hc. inv_bind Hc. inversion Hc; subst; clear Hc.
    apply alloc_Ret in Hc1 as [-> ->]. rename a into m', s into h1.
    pose proof (mapM_length _ _ _ _ _ Hc0) as Hlen.
    pose proof Hc0 as Hm.
    eapply (mapM_Ret_spec_pre prefix
              (fun kv s => reproducible n s (snd kv) = true)
              (fun kv s kv' => fst kv' = fst kv
                 /\ exists m, deepValueEqual m s (snd kv') (snd kv) = Some true))
      in Hm as [Hpre1 HF].
    2: { intros x s1 s2 ? ?. by eapply reproducible_heap_mono. }
    2: { intros x cx s1 s2 [? [m Hm']] Hs. split; [done|]. exists m.
         by apply (deepValueEqual_mono m m s1 s2). }
    2: { intros kv s s' kv' _ Hx Hkv. inv_bind Hkv. inversion Hkv; subst. simpl.
         split; [exact (copyRecursive_prefix _ _ _ _ _ _ Hkv0)|]. split; [done|].
         exact (IH _ _ _ _ _ Hx Hkv0). }
    2: { by apply forallb_Forall. }
    assert (exists m, forall k, k ∈ map fst m' ->
              exists x y, mapIndex m' k = Some x /\ mapIndex m0 k = Some y
                          /\ deepValueEqual m h1 x y = Some true) as [m Hmk].
    { assert (Forall2 (fun kv kv' => exists m, fst kv' = fst kv
                  /\ deepValueEqual m h1 (snd kv') (snd kv) = Some true) m0 m') as HF'.
      { eapply Forall2_impl; [exact HF|]. intros kv kv' [? [m ?]]. by exists m. }
      apply (Forall2_common_fuel
               (fun m kv kv' => fst kv' = fst kv
                  /\ deepValueEqual m h1 (snd kv') (snd kv) = Some true)) in HF' as [m HF'].
      - exists m.
        by apply (mapIndex_Forall2 (fun x y => deepValueEqual m h1 x y = Some true)).
      - intros m m2 kv kv' Hmm [? ?]. split; [done|].
        by apply (deepValueEqual_mono m m2 h1 h1). }
    exists (S m). simpl.
    assert (length h1 <> l) as Hne.
    { apply lookup_lt_Some in Hl. apply prefix_length in Hpre1. lia. }
    destruct (decide _); [done|].
    rewrite lookup_app_r, Nat.sub_diag by done. simpl.
    rewrite (prefix_lookup_Some _ _ _ _ Hl Hpre).
    destruct (decide _); [|done].
    apply allM_Forall, Forall_forall. intros k Hk.
    destruct (Hmk k Hk) as (x & y & -> & -> & Hxy).
    apply (deepValueEqual_mono m m h1); [done|by apply prefix_app_r|done].
Qed.

Lemma deepCopy_deepValueEqual n fuel v h h' c :
  reproducible n h v = true ->
  deepCopy fuel v h = Ret h' c ->
  exists m, deepValueEqual m h' c v = Some true.
Proof.
  unfold deepCopy.
  destruct v as [| | | | | | |[[t x]|]| |];
    try (by apply copyRecursive_deepValueEqual); [|done].
  intros Hv Hc. destruct n as [|n]; [done|]. simpl in Hv.
  inv_bind Hc. inversion Hc; subst.
  destruct (copyRecursive_deepValueEqual _ _ _ _ _ _ Hv Hc0) as [m Hm].
  exists (S m). simpl. by destruct (decide _).
Qed.

(** No-op on unchanged, where it holds: the baseline [c] was recorded for
    the value [v], a value that a deep copy reproduces; since then the heap
    has only grown and the live entry still holds [v].  From some amount of
    fuel on, eviction and purge ask the store for nothing. *)
Lemma unchanged_reproducible_entry_not_written
    (n fuel : nat) (key : Z) (v c : value) (h0 h1 : heap) (st : state) (l : loc) :
  reproducible n h0 v = true ->
  deepCopy fuel v h0 = Ret h1 c ->
  h1 `prefix_of` mem st ->
  copies st !! key = Some c ->
  mem st !! l = Some (CVar v) ->
  exists m, forall fuel', (m <= fuel')%nat ->
    exists s1 s2,
      evictToDB fuel' key (BoxPtrT (Some l)) st = Ret s1 tt
      /\ purgeToDB fuel' key (BoxPtrT (Some l)) st = Ret s2 tt
      /\ updatesIn (trace s1) = updatesIn (trace st)
      /\ updatesIn (trace s2) = updatesIn (trace st)
      /\ db s1 = db st /\ db s2 = db st.
Proof.
  intros Hv Hc Hpre Hk Hl.
  destruct (deepCopy_deepValueEqual _ _ _ _ _ _ Hv Hc) as [m Hm].
  exists m. intros fuel' Hfuel.
  pose proof (deepValueEqual_mono m fuel' h1 (mem st) c v true Hfuel Hpre Hm) as Heq.
  rewrite evictToDB_unfold, purgeToDB_unfold.
  unfold saveIfModified. rewrite Hk. simpl. rewrite Hl, Heq.
  eexists _, _. split; [reflexivity|]. split; [reflexivity|]. simpl.
  rewrite !updatesIn_app. simpl. by rewrite !app_nil_r.
Qed.


(** * Further properties of the code *)

(** ** deepCopy *)

(** X1.  On a value whose graph is acyclic and which is not a nil interface,
    [deepCopy] returns; it only adds cells to the heap, and its result equals
    the original over exported state. *)
Theorem deepCopy_equals_original_over_exported_state
    (n fuel : nat) (h : heap) (v : value) :
  acyclicWithin n h v = true -> v <> VIface None -> (n <= fuel)%nat ->
  exists h' c m,
    deepCopy fuel v h = Ret h' c /\ h `prefix_of` h'
    /\ eqExported m h' c v = true.
Proof.
  intros Hv Hnil Hn.
  destruct (deepCopy_total n v h fuel Hv Hn Hnil) as (h' & c & Hc & Hpre).
  destruct (deepCopy_eqExported _ _ _ _ _ Hc) as [m Hm].
  by exists h', c, m.
Qed.

(** ** Set *)

(** X2.  [Set] on a key that the cache holds replaces the baseline and the
    live entry and calls neither callback of eviction: the store is not
    updated, whatever the entry replaced held. *)
Theorem Set_on_cached_key_overwrites_without_writeback
    (fuel : nat) (now key : Z) (v : value) (st : state) (it : item)
    (h1 : heap) (c : value) :
  findItem key (items st) = Some it ->
  deepCopy fuel v (mem st) = Ret h1 c ->
  Set_ fuel now key v st
  = Ret (State (db st) (h1 ++ [CVar v]) (<[key := c]> (copies st))
               (Item key (BoxPtrT (Some (length h1))) (now + expiration)
                :: dropItem key (items st))
               (size st) (trace st ++ [LogAdded key]))
        None.
Proof.
  intros Hf Hc. unfold Set_, bind, onHeap. rewrite Hc. simpl.
  unfold lruSet, bind. simpl. by rewrite Hf.
Qed.

(** X3.  When [Set] returns, it returns no error, the registry holds the
    copy of the argument under the key and the cache holds a pointer to the
    argument under the key: the eviction that [Set] may trigger never removes
    the baseline it has just recorded. *)
Theorem Set_records_baseline_and_entry
    (fuel : nat) (now key : Z) (v : value) (st s : state) (err : option error) :
  Set_ fuel now key v st = Ret s err ->
  err = None
  /\ exists h1 c,
       deepCopy fuel v (mem st) = Ret h1 c
       /\ copies s !! key = Some c
       /\ findItem key (items s)
          = Some (Item key (BoxPtrT (Some (length h1))) (now + expiration))
       /\ mem s = h1 ++ [CVar v].
Proof.
  intros Hs. unfold Set_ in Hs.
  inv_bind Hs. inv_bind Hs. inv_bind Hs. inv_bind Hs.
  apply onHeap_Ret in Hs0 as (h1 & Hc & ->).
  unfold modify in Hs1. inversion Hs1; subst; clear Hs1.
  apply onHeap_Ret in Hs2 as (h2 & Ha & ->). apply alloc_Ret in Ha as [-> ->].
  inversion Hs; subst; clear Hs. destruct a2. simpl in *.
  split; [done|]. exists h1, a. split; [done|].
  destruct (lruSet_Ret _ _ _ _ _ _ Hs3) as (s0 & Hi & Hcp & Hm & Hs0).
  assert (findItem key (items s)
          = Some (Item key (BoxPtrT (Some (length h1))) (now + expiration))) as Hfind.
  { rewrite Hi. simpl. by destruct (decide (key = key)). }
  destruct Hs0 as [->|(Habs & it & Hin & Hrm)]; simpl in *.
  - rewrite Hcp, Hm. by rewrite lookup_insert_eq.
  - destruct (removeElement_Ret _ _ _ _ Hrm) as (Hm0 & _ & Hc0 & _ & _).
    pose proof (findItem_None _ _ _ Habs Hin) as Hne. simpl in *.
    rewrite Hcp, Hc0, Hm, Hm0. by rewrite lookup_delete_ne, lookup_insert_eq.
Qed.

(** ** Get *)

Lemma lruGetWithLoader_Ok fuel now key st s v :
  lruGetWithLoader fuel now key st = Ret s (Ok v) ->
  findItem key (items s) = Some (Item key v (now + expiration)).
Proof.
  unfold lruGetWithLoader, recover, bind. rewrite loadFromDB_unfold.
  destruct (dbFirst (db st) (mem st) key) as [e|[cells entity]]; [by inversion 1|].
  destruct (deepCopy fuel entity (mem st ++ cells)) as [h1 c|h1|]; simpl;
    [|by inversion 1|done].
  unfold ret.
  match goal with
  | |- match match lruSet ?f ?n ?k ?b ?t with _ => _ end with _ => _ end = _ -> _ =>
      destruct (lruSet f n k b t) as [s1 []|s1|] eqn:Hset
  end; [|by inversion 1|done].
  inversion 1; subst.
  destruct (lruSet_Ret _ _ _ _ _ _ Hset) as (s0 & Hi & _).
  rewrite Hi. simpl. by destruct (decide (key = key)).
Qed.

Lemma lruGet_Ok fuel now key st s v :
  lruGet fuel now key st = Ret s (Ok v) ->
  exists e, findItem key (items s) = Some (Item key v e) /\ (now <= e)%Z.
Proof.
  unfold lruGet. intros Hs. inv_bind Hs. unfold lruGetValue in Hs0.
  assert (forall t, lruGetWithLoader fuel now key t = Ret s (Ok v) ->
            exists e, findItem key (items s) = Some (Item key v e) /\ (now <= e)%Z)
    as Hload.
  { intros t Ht. exists (now + expiration)%Z.
    split; [by eapply lruGetWithLoader_Ok|]. unfold expiration. lia. }
  destruct (findItem key (items st)) as [it|] eqn:Hfind.
  - destruct (findItem_Some _ _ _ Hfind) as [Hkey _].
    destruct (isExpired now it) eqn:Hexp.
    + inv_bind Hs0. inversion Hs0; subst. eauto.
    + inversion Hs0; subst; clear Hs0. inversion Hs; subst; clear Hs.
      exists (iexpiration it). simpl. destruct (decide (ikey it = ikey it)); [|done].
      split; [by destruct it|]. unfold isExpired in Hexp. lia.
  - inversion Hs0; subst. eauto.
Qed.

(** X4.  A read is repeatable.  After [Get] has returned a pointer, the
    cache holds that pointer under the key in an entry that has not expired,
    and until it expires every [Get] of the key returns the same pointer
    and changes nothing but the order of the entries: the store is not
    asked, the baseline is not recorded anew and nothing is logged. *)
Theorem Get_is_repeatable
    (fuel : nat) (now key : Z) (st s1 : state) (p : option loc) :
  Get fuel now key st = Ret s1 (Ok p) ->
  exists e,
    findItem key (items s1) = Some (Item key (BoxPtrT p) e)
    /\ (now <= e)%Z
    /\ forall now', (now' <= e)%Z ->
         Get fuel now' key s1
         = Ret (setItems (Item key (BoxPtrT p) e :: dropItem key (items s1)) s1)
               (Ok p).
Proof.
  intros Hs. unfold Get in Hs. inv_bind Hs.
  destruct a as [[p'|tag]|err]; inversion Hs; subst; clear Hs.
  destruct (lruGet_Ok _ _ _ _ _ _ Hs0) as (e & Hfind & He).
  exists e. repeat split; [done..|].
  intros now' Hnow. unfold Get, lruGet, lruGetValue, bind. rewrite Hfind.
  unfold isExpired. simpl. by destruct (Z.ltb_spec e now'); [lia|].
Qed.

(** ** Purge *)

Lemma purgeToDB_updates fuel key v st s :
  purgeToDB fuel key v st = Ret s tt ->
  size s = size st
  /\ (length (updatesIn (trace s)) <= S (length (updatesIn (trace st))))%nat.
Proof.
  rewrite purgeToDB_unfold.
  destruct (saveIfModified _ _ _ _) as [s' err| |] eqn:Hs; [|done..].
  destruct (saveIfModified_Ret _ _ _ _ _ _ Hs)
    as (evs & (_ & _ & _ & Hsz & Ht & _) & Hevs).
  inversion 1; subst. unfold afterCallback.
  split; [by destruct err|].
  assert (length (updatesIn evs) <= 1)%nat as Hle.
  { destruct Hevs as [->|(old & new & [->| ->])]; simpl; lia. }
  destruct err; simpl; rewrite ?updatesIn_app, ?Ht, ?updatesIn_app, ?length_app;
    simpl; lia.
Qed.

Lemma mapM_purgeToDB fuel : forall (l : list item) st s bs,
  mapM (fun it => purgeToDB fuel (ikey it) (ivalue it)) l st = Ret s bs ->
  mem s = mem st /\ items s = items st /\ size s = size st
  /\ (length (updatesIn (trace s)) <= length (updatesIn (trace st)) + length l)%nat
  /\ forall k b, copies s !! k = Some b ->
       copies st !! k = Some b /\ k ∉ map ikey l.
Proof.
  induction l as [|it l IH]; intros st s bs Hs; simpl in Hs.
  - inversion Hs; subst. repeat split; [simpl; lia|done|]. apply not_elem_of_nil.
  - inv_bind Hs. inv_bind Hs. inversion Hs; subst; clear Hs. destruct a.
    destruct (purgeToDB_Ret _ _ _ _ _ Hs0) as (Hm & Hi & Hc).
    destruct (purgeToDB_updates _ _ _ _ _ Hs0) as (Hsz & Hu).
    destruct (IH _ _ _ Hs1) as (Hm' & Hi' & Hsz' & Hu' & Hc').
    repeat split; try congruence; [simpl; lia|..].
    + apply Hc' in H as [H _]. rewrite Hc in H.
      by apply lookup_delete_Some in H as [_ H].
    + apply Hc' in H as [H Hnot]. rewrite Hc in H.
      apply lookup_delete_Some in H as [Hne _].
      simpl. rewrite not_elem_of_cons. split; [done|done].
Qed.

Lemma lruPurge_items_size fuel st s :
  inSync st -> Purge fuel st = Ret s tt -> items s = [] /\ size s = size st.
Proof.
  intros _ Hs. unfold Purge, lruPurge in Hs.
  inv_bind Hs. unfold modify in Hs. inversion Hs; subst; clear Hs.
  by destruct (mapM_purgeToDB _ _ _ _ _ Hs0) as (_ & _ & Hsz & _).
Qed.

Lemma purgeToDB_settled n fuel it st :
  (n <= fuel)%nat ->
  (exists l cur,
     ivalue it = BoxPtrT (Some l) /\ mem st !! l = Some (CVar cur)
     /\ forall old, copies st !! ikey it = Some old ->
          exists r, deepValueEqual n (mem st) old cur = Some r) ->
  exists s, purgeToDB fuel (ikey it) (ivalue it) st = Ret s tt /\ purging st s.
Proof.
  intros Hfuel (l & cur & Hv & Hl & Hcmp).
  destruct (purgeToDB fuel (ikey it) (ivalue it) st) as [s []|s|] eqn:Hp.
  - exists s. split; [done|].
    destruct (purgeToDB_Ret _ _ _ _ _ Hp) as (Hm & Hi & Hc).
    repeat split; try done. intros k b. rewrite Hc. intros Hk.
    by apply lookup_delete_Some in Hk as [_ Hk].
  - exfalso. rewrite purgeToDB_unfold in Hp.
    destruct (saveIfModified _ _ _ _) as [s' err|s'|] eqn:Hsave; [done| |done].
    apply (saveIfModified_no_panic _ _ _ _ _) in Hsave; [done|]. by exists l, cur.
  - exfalso. rewrite purgeToDB_unfold in Hp. unfold saveIfModified in Hp.
    rewrite Hv in Hp. simpl in Hp. rewrite Hl in Hp.
    destruct (copies st !! ikey it) as [old|] eqn:Hk; [|done].
    destruct (Hcmp old eq_refl) as [r Hr].
    rewrite (deepValueEqual_mono n fuel (mem st) (mem st) old cur r Hfuel
               ltac:(done) Hr) in Hp.
    destruct r; [done|]. by destruct (dbUpdates _ _ _ _) as [d [e|]].
Qed.

(** X5.  [Purge] flushes and clears.  From a state in which the registry
    and the cache hold the same keys and the comparison of every entry with
    its baseline comes to an end, [Purge] returns; it leaves the cache and
    the registry empty and the heap as it was, and it has asked the store
    for at most one update for each entry that the cache held. *)
Theorem Purge_flushes_and_clears (n fuel : nat) (st : state) :
  inSync st -> settled n st -> (n <= fuel)%nat ->
  exists s,
    Purge fuel st = Ret s tt
    /\ items s = [] /\ copies s = ∅ /\ mem s = mem st /\ size s = size st
    /\ (length (updatesIn (trace s))
        <= length (updatesIn (trace st)) + length (items st))%nat.
Proof.
  intros [Hdom _] Hst Hfuel.
  destruct (mapM_total purging
              (fun it t => exists l cur,
                 ivalue it = BoxPtrT (Some l) /\ mem t !! l = Some (CVar cur)
                 /\ forall old, copies t !! ikey it = Some old ->
                      exists r, deepValueEqual n (mem t) old cur = Some r)
              (fun it => purgeToDB fuel (ikey it) (ivalue it)) (items st))
    with (s := st) as (s0 & bs & Hs0 & _).
  { intros it s1 s2 (l & cur & Hv & Hl & Hcmp) (Hm & _ & Hsub).
    exists l, cur. rewrite Hm. repeat split; try done.
    intros old Hold. apply Hcmp. by apply Hsub. }
  { intros it t _ HQ. destruct (purgeToDB_settled n fuel it t Hfuel HQ) as (s' & ? & ?).
    by exists s', tt. }
  { apply Forall_forall. intros it Hin. exact (Hst it Hin). }
  destruct (mapM_purgeToDB _ _ _ _ _ Hs0) as (Hm & Hi & Hsz & Hu & Hc).
  exists (setItems [] s0). split.
  { unfold Purge, lruPurge, bind. by rewrite Hs0. }
  simpl. repeat split; try done.
  apply map_eq. intros k. rewrite lookup_empty.
  destruct (copies s0 !! k) as [b|] eqn:Hb; [|done].
  destruct (Hc _ _ Hb) as [Hk Hnot]. exfalso. apply Hnot.
  assert (k ∈ keysOf (items st)) as Hin.
  { rewrite <- Hdom. apply elem_of_dom. by exists b. }
  unfold keysOf in Hin. by apply elem_of_list_to_set in Hin.
Qed.

(** ** The capacity *)

Lemma dropItem_length key l : (length (dropItem key l) <= length l)%nat.
Proof. unfold dropItem. apply length_filter. Qed.

Lemma dropItem_length_lt key l it :
  it ∈ l -> ikey it = key -> (length (dropItem key l) < length l)%nat.
Proof.
  unfold dropItem. induction l as [|x l IH]; intros Hin Hk; [by inversion Hin|].
  rewrite filter_cons. destruct (decide (ikey x <> key)) as [Hne|_]; simpl.
  - apply elem_of_cons in Hin as [->|Hin]; [done|]. specialize (IH Hin Hk). lia.
  - pose proof (length_filter (fun it => ikey it <> key) l). lia.
Qed.

Lemma removeElement_capacity fuel it st s :
  withinCapacity st -> removeElement fuel it st = Ret s tt ->
  withinCapacity s /\ size s = size st.
Proof.
  intros [Hpos Hcap] Hs.
  destruct (removeElement_Ret _ _ _ _ Hs) as (_ & Hsz & _ & Hi & _).
  split; [|done]. split; rewrite Hsz; [done|]. rewrite Hi.
  pose proof (dropItem_length (ikey it) (items st)). lia.
Qed.

Lemma lruSet_capacity fuel now key v st s :
  withinCapacity st -> lruSet fuel now key v st = Ret s tt ->
  withinCapacity s /\ size s = size st.
Proof.
  intros [Hpos Hcap] Hs. unfold lruSet in Hs. inv_bind Hs. inv_bind Hs.
  unfold logCacheAdd, modify in *. inversion Hs; subst; clear Hs.
  inversion Hs1; subst; clear Hs1. unfold withinCapacity. simpl.
  pose proof (dropItem_length key (items s0)) as Hd.
  destruct (findItem key (items st)) as [it|] eqn:Hf.
  { inversion Hs0; subst. destruct (findItem_Some _ _ _ Hf) as [Hk Hin].
    pose proof (dropItem_length_lt _ _ _ Hin Hk). repeat split; lia. }
  destruct (decide _) as [Hfull|Hroom]; [|inversion Hs0; subst; repeat split; lia].
  unfold lruEvict in Hs0. destruct (last (items st)) as [it|] eqn:Hlast.
  - destruct a. destruct (removeElement_Ret _ _ _ _ Hs0) as (_ & Hsz & _ & Hi & _).
    assert (it ∈ items st) as Hin.
    { apply last_Some in Hlast as [l' Hl']. rewrite Hl'. apply elem_of_app. right. left. }
    pose proof (dropItem_length_lt (ikey it) _ _ Hin eq_refl).
    rewrite Hi in Hd. rewrite Hsz, Hi. repeat split; lia.
  - inversion Hs0; subst. apply last_None in Hlast. rewrite Hlast in *.
    simpl in *. repeat split; lia.
Qed.

Lemma lruGetWithLoader_capacity fuel now key st s r :
  inSync st -> withinCapacity st ->
  lruGetWithLoader fuel now key st = Ret s r ->
  withinCapacity s /\ size s = size st.
Proof.
  intros [_ Hlive] Hcap. unfold lruGetWithLoader, recover, bind.
  rewrite loadFromDB_unfold.
  destruct (dbFirst (db st) (mem st) key) as [e|[cells entity]];
    [by inversion 1; subst|].
  destruct (deepCopy fuel entity (mem st ++ cells)) as [h1 c|h1|] eqn:Hc; simpl;
    [|by inversion 1; subst|done].
  unfold ret.
  match goal with
  | |- match match lruSet ?f ?n ?k ?b ?t with _ => _ end with _ => _ end = _ -> _ =>
      destruct (lruSet f n k b t) as [s1 []|s1|] eqn:Hset
  end; [| |done].
  - inversion 1; subst. by apply lruSet_capacity in Hset.
  - exfalso. apply (lruSet_no_panic _ _ _ _ _ _) in Hset; [done|]. simpl.
    eapply Forall_impl; [exact Hlive|]. intros it. apply live_prefix.
    etrans; [by apply prefix_app_r|].
    etrans; [exact (deepCopy_prefix _ _ _ _ _ Hc) | by apply prefix_app_r].
Qed.

Lemma Get_capacity fuel now key st s r :
  inSync st -> withinCapacity st ->
  Get fuel now key st = Ret s r ->
  withinCapacity s /\ size s = size st.
Proof.
  intros Hsync Hcap Hs. unfold Get in Hs. inv_bind Hs.
  assert (s = s0) as ->.
  { destruct a as [[p|tag]|e]; by inversion Hs. }
  clear Hs. unfold lruGet in Hs0. inv_bind Hs0. unfold lruGetValue in Hs1.
  destruct (findItem key (items st)) as [it|] eqn:Hfind.
  - destruct (findItem_Some _ _ _ Hfind) as [Hkey Hin].
    destruct (isExpired now it) eqn:Hexp.
    + inv_bind Hs1. inversion Hs1; subst; clear Hs1. destruct a1.
      destruct (removeElement_inSync _ _ _ _ Hsync Hs2) as (Hsync' & _ & _).
      destruct (removeElement_capacity _ _ _ _ Hcap Hs2) as [Hcap' Hsz].
      destruct (lruGetWithLoader_capacity _ _ _ _ _ _ Hsync' Hcap' Hs0) as [? Hsz'].
      split; [done|congruence].
    + inversion Hs1; subst; clear Hs1. inversion Hs0; subst; clear Hs0.
      destruct Hcap as [Hpos Hcap]. unfold withinCapacity. simpl.
      pose proof (dropItem_length_lt _ _ _ Hin eq_refl). repeat split; lia.
  - inversion Hs1; subst; clear Hs1. by eapply lruGetWithLoader_capacity.
Qed.

Lemma Set_capacity fuel now key v st s err :
  withinCapacity st -> Set_ fuel now key v st = Ret s err ->
  withinCapacity s /\ size s = size st.
Proof.
  intros Hcap Hs. unfold Set_ in Hs.
  inv_bind Hs. inv_bind Hs. inv_bind Hs. inv_bind Hs.
  apply onHeap_Ret in Hs0 as (h1 & Hc & ->).
  unfold modify in Hs1. inversion Hs1; subst; clear Hs1.
  apply onHeap_Ret in Hs2 as (h2 & Ha & ->).
  inversion Hs; subst; clear Hs. destruct a2.
  by apply lruSet_capacity in Hs3.
Qed.

Lemma step_capacity fuel o st s :
  inSync st -> withinCapacity st ->
  step fuel o st = Ret s tt ->
  withinCapacity s /\ size s = size st.
Proof.
  intros Hsync Hcap Hs. destruct o as [now key|now key v|l v|key|]; simpl in Hs.
  - inv_bind Hs. inversion Hs; subst. by eapply Get_capacity.
  - inv_bind Hs. inversion Hs; subst. by eapply Set_capacity.
  - unfold assign in Hs. destruct (mem st !! l) as [[old| |]|]; try done.
    by inversion Hs; subst.
  - unfold lruRemove in Hs. destruct (findItem key (items st)) as [it|].
    + by eapply removeElement_capacity.
    + by inversion Hs; subst.
  - destruct (lruPurge_items_size _ _ _ Hsync Hs) as (Hi & Hsz).
    destruct Hcap as [Hpos Hcap]. unfold withinCapacity. rewrite Hi, Hsz.
    simpl. repeat split; lia.
Qed.

Lemma runHist_capacity fuel ops : forall st s g g',
  inSync st -> baselinesFaithful st g -> withinCapacity st ->
  runHist fuel ops g st = Ret s g' ->
  inSync s /\ withinCapacity s /\ size s = size st.
Proof.
  induction ops as [|o ops IH]; intros st s g g' Hsync HJ Hcap Hr; simpl in Hr.
  - by inversion Hr; subst.
  - destruct (step fuel o st) as [s1 []| |] eqn:Hstep; [|done..].
    destruct (step_preserves _ _ _ _ _ Hsync HJ Hstep) as [Hsync1 HJ1].
    destruct (step_capacity _ _ _ _ Hsync Hcap Hstep) as [Hcap1 Hsz1].
    destruct (IH _ _ _ _ Hsync1 HJ1 Hcap1 Hr) as (? & ? & Hsz).
    split; [done|]. split; [done|congruence].
Qed.

Lemma size_keysOf l : (base.size (keysOf l) <= length l)%nat.
Proof.
  unfold keysOf. induction l as [|it l IH].
  - change (base.size (∅ : gset Z) <= 0)%nat. by rewrite size_empty.
  - change (base.size ({[ikey it]} ∪ list_to_set (map ikey l) : gset Z)
            <= S (length l))%nat.
    rewrite size_union_alt, size_singleton.
    pose proof (subseteq_size (list_to_set (map ikey l) ∖ {[ikey it]})
                  (list_to_set (map ikey l) : gset Z)) as Hle.
    specialize (Hle ltac:(set_solver)). lia.
Qed.

(** X6.  The capacity bounds the cache and the registry.  After any
    sequence of operations on a cache built by [NewWithCache] with size
    [sz], the cache holds at most [sz] entries and the registry at most
    [sz] baselines. *)
Theorem cache_and_registry_within_capacity
    (fuel : nat) (ops : list op) (d : DB) (sz : Z) (h : heap) (st0 st : state) :
  NewWithCache d sz h = Some st0 ->
  run fuel ops st0 = Ret st tt ->
  size st = sz
  /\ (Z.of_nat (length (items st)) <= sz)%Z
  /\ (Z.of_nat (base.size (copies st)) <= sz)%Z.
Proof.
  unfold NewWithCache. destruct (decide _) as [|Hpos]; [done|].
  intros Hnew Hrun. inversion Hnew; subst st0; clear Hnew.
  destruct (run_runHist _ _ _ _ ∅ Hrun) as [g Hg].
  eapply runHist_capacity in Hg as ([Hdom _] & [_ Hcap] & Hsz).
  - simpl in Hsz. rewrite Hsz in Hcap. repeat split; [done..|].
    rewrite <- size_dom, Hdom. pose proof (size_keysOf (items st)). lia.
  - split; simpl; [|done]. unfold keysOf. simpl. by rewrite dom_empty_L.
  - intros key b. simpl. by rewrite lookup_empty.
  - unfold withinCapacity. simpl. lia.
Qed.

(** ** Detection of a change *)

Lemma scalar_copy n x cpy h h' c :
  scalar x = true -> copyRecursive n x cpy h = Ret h' c -> c = x.
Proof.
  destruct n as [|n]; [done|].
  destruct x; try done; simpl; by inversion 2.
Qed.

Lemma scalar_differs n h x y :
  scalar x = true -> x <> y -> deepValueEqual (S n) h x y = Some false.
Proof.
  intros Hx Hne. destruct x, y; try done; simpl;
    rewrite bool_decide_eq_false_2; congruence.
Qed.

Lemma deepValueEqual_struct n h fs gs :
  deepValueEqual (S n) h (VStruct fs) (VStruct gs)
  = if decide (length fs = length gs)
    then allM (fun p => deepValueEqual n h (snd (fst p)) (snd (snd p))) (zip fs gs)
    else Some false.
Proof. done. Qed.

(** The loop of [deepValueEqual] over two lists that agree before place
    [i] and differ at place [i]. *)
Lemma allM_zip_insert_false {A B} (g : A * B -> option bool) :
  forall (l : list A) (k : list B) i a b,
    (forall p, p ∈ zip l k -> g p = Some true) ->
    l !! i = Some a -> (i < length k)%nat ->
    g (a, b) = Some false ->
    allM g (zip l (<[i := b]> k)) = Some false.
Proof.
  induction l as [|a0 l IH]; intros k i a b Hall Hi Hlen Hg; [done|].
  destruct k as [|b0 k]; [simpl in Hlen; lia|].
  destruct i as [|i]; simpl in *.
  - inversion Hi; subst. by rewrite Hg.
  - rewrite (Hall (a0, b0)) by left.
    apply (IH k i a b); [|done|lia|done].
    intros p Hp. apply Hall. by right.
Qed.

(** X7.  An assignment to an exported field is written back.  The baseline
    [c] was recorded for the struct [fs], a value that a deep copy
    reproduces; since then the heap has only grown, and the live entry holds
    [fs] with the exported field [i], a boolean, an integer or a string,
    set to another value.  From some amount of fuel on, eviction and purge
    ask the store for exactly one update, of the baseline to the live
    value. *)
Theorem assigned_exported_field_is_written_back
    (n fuel : nat) (key : Z) (fs : list (field * value)) (c : value)
    (h0 h1 : heap) (st : state) (l : loc) (i : nat) (f : field) (x y : value) :
  reproducible n h0 (VStruct fs) = true ->
  deepCopy fuel (VStruct fs) h0 = Ret h1 c ->
  h1 `prefix_of` mem st ->
  copies st !! key = Some c ->
  fs !! i = Some (f, x) -> exported f = true -> scalar x = true -> x <> y ->
  mem st !! l = Some (CVar (VStruct (<[i := (f, y)]> fs))) ->
  exists m, forall fuel', (m <= fuel')%nat ->
    exists s1 s2,
      evictToDB fuel' key (BoxPtrT (Some l)) st = Ret s1 tt
      /\ purgeToDB fuel' key (BoxPtrT (Some l)) st = Ret s2 tt
      /\ updatesIn (trace s1)
         = updatesIn (trace st) ++ [(c, VStruct (<[i := (f, y)]> fs))]
      /\ updatesIn (trace s2)
         = updatesIn (trace st) ++ [(c, VStruct (<[i := (f, y)]> fs))]
      /\ db s1 = fst (dbUpdates (db st) (mem st) c (VStruct (<[i := (f, y)]> fs)))
      /\ db s2 = db s1.
Proof.
  intros Hv Hc Hpre Hk Hi Hf Hx Hne Hl.
  destruct (deepCopy_deepValueEqual _ _ _ _ _ _ Hv Hc) as [m Hm].
  destruct fuel as [|fuel]; [done|].
  simpl in Hc. rewrite length_map in Hc.
  destruct (decide _) as [_|]; [|done].
  inv_bind Hc. inversion Hc; subst; clear Hc. rename a into cfs.
  destruct (copyRecursive_struct_fields _ _ _ _ _ Hc0) as [Hlen Hfields].
  destruct (Hfields i f x Hi) as (cx & Hcx & HP). rewrite Hf in HP.
  destruct HP as (h2 & h3 & Hcopy & _).
  apply scalar_copy in Hcopy; [subst cx|done].
  destruct m as [|m]; [done|]. simpl in Hm.
  destruct (decide _) as [_|]; [|done].
  exists (S (S m)). intros fuel' Hfuel.
  assert (deepValueEqual fuel' (mem st) (VStruct cfs) (VStruct (<[i := (f, y)]> fs))
          = Some false) as Hdirty.
  { apply (deepValueEqual_mono (S (S m)) fuel' (mem st) (mem st)); [done..|].
    rewrite deepValueEqual_struct, length_insert.
    destruct (decide _) as [_|]; [|done].
    apply (allM_zip_insert_false
             (fun p => deepValueEqual (S m) (mem st) (snd (fst p)) (snd (snd p)))
             cfs fs i (f, x) (f, y)); [|done| |].
    - intros p Hp. pose proof (allM_Some_true _ _ _ Hm Hp) as Hp'. simpl in Hp'.
      exact (deepValueEqual_mono m (S m) h1 (mem st) _ _ true
               ltac:(lia) Hpre Hp').
    - by eapply lookup_lt_Some.
    - by apply (scalar_differs m). }
  rewrite evictToDB_unfold, purgeToDB_unfold.
  unfold saveIfModified. rewrite Hk. simpl. rewrite Hl, Hdirty.
  destruct (dbUpdates _ _ _ _) as [d [e|]];
    (eexists _, _; split; [reflexivity|]; split; [reflexivity|]; simpl;
     rewrite !updatesIn_app; simpl; by rewrite ?app_nil_r, <- ?app_assoc).
Qed.

(** ** A row read, changed and purged *)

(** X8.  The sequence of [TestNewWithCache], on any store.  On a cache just
    built, [Get] of a key that the store holds loads the row and returns a
    pointer to it; the caller assigns the value [v'] through the pointer;
    [Purge] then asks the store for one update of the baseline to [v'] when
    [reflect.DeepEqual] finds the two different and for none when it finds
    them equal, and leaves the cache and the registry empty. *)
Theorem load_assign_purge_writes_back
    (fuel : nat) (now key : Z) (d : DB) (sz : Z) (h : heap) (st0 : state)
    (cells : list cell) (entity c v' : value) (h1 : heap) (r : bool) :
  NewWithCache d sz h = Some st0 ->
  dbFirst d h key = inr (cells, entity) ->
  deepCopy fuel entity (h ++ cells) = Ret h1 c ->
  deepValueEqual fuel (h1 ++ [CVar v']) c v' = Some r ->
  exists s1 s,
    Get fuel now key st0 = Ret s1 (Ok (Some (length h1)))
    /\ mem s1 = h1 ++ [CVar entity]
    /\ run fuel [OpGet now key; OpAssign (length h1) v'; OpPurge] st0 = Ret s tt
    /\ db s = (if r then d else fst (dbUpdates d (h1 ++ [CVar v']) c v'))
    /\ updatesIn (trace s) = (if r then [] else [(c, v')])
    /\ items s = [] /\ copies s = ∅.
Proof.
  unfold NewWithCache. destruct (decide _) as [|Hpos]; [done|].
  intros Hnew Hfirst Hc Hr. inversion Hnew; subst st0; clear Hnew.
  set (s1 := State d (h1 ++ [CVar entity]) (<[key := c]> ∅)
                   [Item key (BoxPtrT (Some (length h1))) (now + expiration)]
                   sz [LogAdded key]).
  assert (Get fuel now key (State d h ∅ [] sz []) = Ret s1 (Ok (Some (length h1))))
    as Hget.
  { unfold Get, lruGet, bind. rewrite lruGetValue_absent by done.
    unfold lruGetWithLoader, recover, bind. rewrite loadFromDB_unfold. simpl.
    rewrite Hfirst, Hc. unfold lruSet, bind. simpl.
    destruct (decide _) as [|_]; [lia|]. done. }
  set (s2 := setMem (h1 ++ [CVar v']) s1).
  assert (assign (length h1) v' s1 = Ret s2 tt) as Hassign.
  { unfold assign. simpl. rewrite lookup_app_r, Nat.sub_diag by done. simpl.
    unfold s2. do 2 f_equal.
    rewrite insert_app_r_alt, Nat.sub_diag by done. done. }
  assert (delete key (<[key := c]> (∅ : gmap Z value)) = ∅) as Hdel.
  { apply map_eq. intros k. rewrite lookup_empty.
    destruct (decide (k = key)) as [->|Hne].
    - by rewrite lookup_delete_eq.
    - by rewrite lookup_delete_ne, lookup_insert_ne. }
  assert (exists s, Purge fuel s2 = Ret s tt
            /\ db s = (if r then d else fst (dbUpdates d (h1 ++ [CVar v']) c v'))
            /\ updatesIn (trace s) = (if r then [] else [(c, v')])
            /\ items s = [] /\ copies s = ∅) as (s & Hpurge & Hs).
  { unfold Purge, lruPurge, bind. simpl. unfold bind.
    rewrite purgeToDB_unfold. unfold saveIfModified. simpl.
    rewrite lookup_insert_eq. simpl.
    rewrite lookup_app_r, Nat.sub_diag by done. simpl. rewrite Hr.
    destruct r.
    - eexists. split; [reflexivity|]. simpl. by rewrite Hdel.
    - destruct (dbUpdates d (h1 ++ [CVar v']) c v') as [d' [e|]];
        (eexists; split; [reflexivity|]; simpl; by rewrite Hdel). }
  exists s1, s. split; [done|]. split; [done|]. split; [|done].
  simpl. unfold bind. rewrite Hget. unfold ret. rewrite Hassign.
  by rewrite Hpurge.
Qed.

(** ** What a copy shares with its original *)

Lemma ownedWithin_mono n : forall m k k' h h' v,
  (n <= m)%nat -> (k' <= k)%nat -> h `prefix_of` h' ->
  ownedWithin n k h v = true -> ownedWithin m k' h' v = true.
Proof.
  induction n as [|n IH]; intros m k k' h h' v Hm Hk Hh; simpl; [done|].
  destruct m as [|m]; [lia|]. simpl.
  assert (n <= m)%nat as Hnm by lia.
  destruct v as [b|z|s|f|xs|fs|[l|]|[[t x]|]|[[[l len] cap]|]|[l|]]; try done.
  - apply forallb_impl. intros x _. by apply IH.
  - apply forallb_impl. intros x _. by apply IH.
  - rewrite !andb_true_iff. intros [Hl Hx]. apply bool_decide_eq_true in Hl.
    split; [apply bool_decide_eq_true_2; lia|].
    destruct (h !! l) as [[x|xs|m']|] eqn:Hlk; try done.
    rewrite (prefix_lookup_Some _ _ _ _ Hlk Hh). revert Hx. by apply IH.
  - by apply IH.
  - rewrite !andb_true_iff. intros [Hl Hx]. apply bool_decide_eq_true in Hl.
    split; [apply bool_decide_eq_true_2; lia|].
    destruct (h !! l) as [[x|xs|m']|] eqn:Hlk; try done.
    rewrite (prefix_lookup_Some _ _ _ _ Hlk Hh). revert Hx.
    apply forallb_impl. intros x _. by apply IH.
  - rewrite !andb_true_iff. intros [Hl Hx]. apply bool_decide_eq_true in Hl.
    split; [apply bool_decide_eq_true_2; lia|].
    destruct (h !! l) as [[x|xs|m']|] eqn:Hlk; try done.
    rewrite (prefix_lookup_Some _ _ _ _ Hlk Hh). revert Hx.
    apply forallb_impl. intros x _. by apply IH.
Qed.

Lemma arraysHoldNoRefs_heap_mono n : forall h h' v,
  h `prefix_of` h' -> arraysHoldNoRefs n h v = true -> arraysHoldNoRefs n h' v = true.
Proof.
  induction n as [|n IH]; intros h h' v Hh; simpl; [done|].
  destruct v as [b|z|s|f|xs|fs|[l|]|[[t x]|]|[[[l len] cap]|]|[l|]]; try done.
  - apply forallb_impl. intros [f x] _. simpl. destruct (exported f); [|done].
    by apply IH.
  - destruct (h !! l) as [[x|xs|m]|] eqn:Hl; try done.
    rewrite (prefix_lookup_Some _ _ _ _ Hl Hh). by apply IH.
  - by apply IH.
  - destruct (h !! l) as [[x|xs|m]|] eqn:Hl; try done.
    rewrite (prefix_lookup_Some _ _ _ _ Hl Hh).
    apply forallb_impl. intros x _. by apply IH.
  - destruct (h !! l) as [[x|xs|m]|] eqn:Hl; try done.
    rewrite (prefix_lookup_Some _ _ _ _ Hl Hh).
    apply forallb_impl. intros x _. by apply IH.
Qed.

(** A value without references reaches no cell. *)
Lemma noRefs_ownedWithin n : forall k h v,
  noRefs v = true -> (inlineDepth v <= n)%nat -> ownedWithin n k h v = true.
Proof.
  induction n as [|n IH]; intros k h v Hv Hd.
  { destruct v as [| | | | | | |[[]|]| |]; simpl in Hd; lia. }
  destruct v as [b|z|s|f|xs|fs|[l|]|[[t x]|]|[[[l len] cap]|]|[l|]]; simpl in *;
    try done.
  - apply forallb_Forall, Forall_forall. intros x Hx.
    rewrite forallb_Forall, Forall_forall in Hv. apply IH; [by apply Hv|].
    assert (inlineDepth x <= max_list (map inlineDepth xs))%nat; [|lia].
    apply max_list_elem_of_le. by apply list_elem_of_fmap_2.
  - apply forallb_Forall, Forall_forall. intros [f x] Hx. simpl.
    rewrite forallb_Forall, Forall_forall in Hv. apply IH; [by apply (Hv (f, x))|].
    assert (inlineDepth x <= max_list (map (fun p => inlineDepth (snd p)) fs))%nat;
      [|lia].
    apply max_list_elem_of_le.
    by apply (list_elem_of_fmap_2 (fun p => inlineDepth (snd p)) _ (f, x)).
  - apply IH; [done|lia].
Qed.

(** A zero value reaches no cell. *)
Lemma zeroOf_ownedWithin n : forall k h v,
  (inlineDepth v <= n)%nat -> ownedWithin n k h (zeroOf v) = true.
Proof.
  induction n as [|n IH]; intros k h v Hd.
  { destruct v as [| | | | | | |[[]|]| |]; simpl in Hd; lia. }
  destruct v as [b|z|s|f|xs|fs|[l|]|[[t x]|]|[[[l len] cap]|]|[l|]]; simpl in *;
    try done.
  - apply forallb_Forall, Forall_fmap, Forall_forall. intros x Hx. simpl.
    apply IH.
    assert (inlineDepth x <= max_list (map inlineDepth xs))%nat; [|lia].
    apply max_list_elem_of_le. by apply list_elem_of_fmap_2.
  - apply forallb_Forall, Forall_fmap, Forall_forall. intros [f x] Hx. simpl.
    apply IH.
    assert (inlineDepth x <= max_list (map (fun p => inlineDepth (snd p)) fs))%nat;
      [|lia].
    apply max_list_elem_of_le.
    by apply (list_elem_of_fmap_2 (fun p => inlineDepth (snd p)) _ (f, x)).
Qed.

Lemma Forall_common_fuel {A} (P : nat -> A -> Prop) (l : list A) :
  (forall m m' a, (m <= m')%nat -> P m a -> P m' a) ->
  Forall (fun a => exists m, P m a) l ->
  exists m, Forall (P m) l.
Proof.
  intros Hmono. induction 1 as [|a l [m Ha] _ [m' IH]]; [by exists O|].
  exists (m `max` m')%nat. constructor.
  - eapply Hmono; [|exact Ha]. lia.
  - eapply Forall_impl; [exact IH|]. intros b. apply Hmono. lia.
Qed.

Lemma Forall2_right {A B} (Q : B -> Prop) (l : list A) (k : list B) :
  Forall2 (fun _ b => Q b) l k -> Forall Q k.
Proof. induction 1; by constructor. Qed.

Lemma copyRecursive_ownedWithin fuel : forall n v h h' c,
  arraysHoldNoRefs n h v = true ->
  copyRecursive fuel v (zeroOf v) h = Ret h' c ->
  exists m, ownedWithin m (length h) h' c = true.
Proof.
  induction fuel as [|fuel IH]; intros n v h h' c Hv Hc; [done|].
  destruct n as [|n]; [done|].
  pose proof (copyRecursive_prefix _ _ _ _ _ _ Hc) as Hpre.
  assert (forall m m' (a : value), (m <= m')%nat ->
            ownedWithin m (length h) h' a = true ->
            ownedWithin m' (length h) h' a = true) as Hmono.
  { intros m m' a Hm. by apply ownedWithin_mono. }
  destruct v as [b|z|s|f|xs|fs|[l|]|[[t x]|]|[[[l len] cap]|]|[l|]];
    simpl in Hc, Hv;
    try (inversion Hc; subst; by exists 1%nat).
  - (* array *)
    inversion Hc; subst. exists (inlineDepth (VArray xs)).
    by apply noRefs_ownedWithin.
  - (* struct *)
    rewrite length_map in Hc. destruct (decide _) as [_|]; [|done].
    inv_bind Hc. inversion Hc; subst; clear Hc. rename a into cfs.
    rewrite zip_with_zero in Hc0.
    eapply (mapM_Ret_spec_pre prefix
              (fun p s => h `prefix_of` s
                          /\ (exported (fst (fst p)) = true ->
                              arraysHoldNoRefs n s (snd (fst p)) = true)
                          /\ snd (snd p) = zeroOf (snd (fst p)))
              (fun _ s cf => exists m, ownedWithin m (length h) s (snd cf) = true))
      in Hc0 as [_ HF].
    + apply Forall2_right in HF.
      apply (Forall_common_fuel
               (fun m cf => ownedWithin m (length h) h' (snd cf) = true)) in HF
        as [m HF]; [|intros m m' a; apply Hmono].
      exists (S m). simpl. by apply forallb_Forall.
    + intros p s1 s2 (Hh & Ha & Hz) Hs. split; [by etrans|]. split; [|done].
      intros He. apply (arraysHoldNoRefs_heap_mono n s1); [done|by apply Ha].
    + intros p cf s1 s2 [m Hm] Hs. exists m.
      by apply (ownedWithin_mono m m (length h) (length h) s1 s2).
    + intros [[f x] [cf z]] s s' b _ (Hh & Ha & Hz) Hx. simpl in *. subst z.
      unfold exported in Ha. destruct (String.eqb (pkgPath f) "") eqn:He;
        simpl in Hx.
      * inv_bind Hx. inversion Hx; subst; clear Hx. simpl.
        split; [exact (copyRecursive_prefix _ _ _ _ _ _ Hx0)|].
        destruct (IH _ _ _ _ _ (Ha eq_refl) Hx0) as [m Hm]. exists m.
        apply (ownedWithin_mono m m (length s) (length h) s' s'); try done.
        by apply prefix_length.
      * inversion Hx; subst; clear Hx. simpl. split; [done|].
        exists (inlineDepth x). by apply zeroOf_ownedWithin.
    + apply Forall_fmap, Forall_forall. intros [f x] Hx. simpl. split; [done|].
      split; [|done]. intros He.
      rewrite forallb_Forall, Forall_forall in Hv. specialize (Hv _ Hx).
      simpl in Hv. by rewrite He in Hv.
  - (* pointer *)
    destruct (h !! l) as [[x| |]|] eqn:Hl; try done.
    inv_bind Hc. inv_bind Hc. inversion Hc; subst; clear Hc.
    apply alloc_Ret in Hc1 as [-> ->].
    destruct (IH _ _ _ _ _ Hv Hc0) as [m Hm]. exists (S m). simpl.
    rewrite lookup_app_r, Nat.sub_diag by done. simpl.
    pose proof (copyRecursive_prefix _ _ _ _ _ _ Hc0) as Hp.
    rewrite bool_decide_eq_true_2 by (by apply prefix_length). simpl.
    apply (ownedWithin_mono m m (length h) (length h) s); [done..| |done].
    by apply prefix_app_r.
  - (* interface *)
    inv_bind Hc. inversion Hc; subst; clear Hc.
    destruct (IH _ _ _ _ _ Hv Hc0) as [m Hm]. by exists (S m).
  - (* slice *)
    destruct (h !! l) as [[|xs|]|] eqn:Hl; try done.
    destruct (decide _) as [Hb|]; [|done].
    inv_bind Hc. inv_bind Hc. inversion Hc; subst; clear Hc.
    apply alloc_Ret in Hc1 as [-> ->]. rename a into cs, s into h1.
    pose proof Hc0 as Hmap.
    eapply (mapM_Ret_spec_pre prefix
              (fun x s => h `prefix_of` s /\ arraysHoldNoRefs n s x = true)
              (fun _ s cx => exists m, ownedWithin m (length h) s cx = true))
      in Hc0 as [Hh1 HF].
    + apply Forall2_right in HF.
      assert (Forall (fun c => exists m, ownedWithin m (length h) h1 c = true)
                (cs ++ map zeroOf (drop len (take cap xs)))) as HF'.
      { apply Forall_app. split; [done|].
        apply Forall_fmap, Forall_forall. intros x _. simpl.
        exists (inlineDepth x). by apply zeroOf_ownedWithin. }
      apply (Forall_common_fuel
               (fun m c => ownedWithin m (length h) h1 c = true)) in HF'
        as [m Hm].
      2: { intros m m' a Hmm. by apply ownedWithin_mono. }
      exists (S m). simpl.
      rewrite lookup_app_r, Nat.sub_diag by done. simpl.
      rewrite bool_decide_eq_true_2 by (by apply prefix_length). simpl.
      apply forallb_Forall. eapply Forall_impl; [exact Hm|]. intros c Hc. simpl in Hc.
      apply (ownedWithin_mono m m (length h) (length h) h1); [done..| |done].
      by apply prefix_app_r.
    + intros x s1 s2 [Hh Ha] Hs. split; [by etrans|].
      by apply (arraysHoldNoRefs_heap_mono n s1).
    + intros x cx s1 s2 [m Hm] Hs. exists m.
      by apply (ownedWithin_mono m m (length h) (length h) s1 s2).
    + intros x s s' cx _ [Hh Ha] Hx.
      split; [exact (copyRecursive_prefix _ _ _ _ _ _ Hx)|].
      destruct (IH _ _ _ _ _ Ha Hx) as [m Hm]. exists m.
      apply (ownedWithin_mono m m (length s) (length h) s' s'); try done.
      by apply prefix_length.
    + rewrite forallb_Forall in Hv. eapply Forall_impl; [exact Hv|].
      intros x Hx. by split.
  - (* map *)
    destruct (h !! l) as [[| |m0]|] eqn:Hl; try done.
    inv_bind Hc. inv_bind Hc. inversion Hc; subst; clear Hc.
    apply alloc_Ret in Hc1 as [-> ->]. rename a into m', s into h1.
    eapply (mapM_Ret_spec_pre prefix
              (fun kv s => h `prefix_of` s /\ arraysHoldNoRefs n s (snd kv) = true)
              (fun _ s kv' => exists m, ownedWithin m (length h) s (snd kv') = true))
      in Hc0 as [Hh1 HF].
    + apply Forall2_right in HF.
      apply (Forall_common_fuel
               (fun m kv => ownedWithin m (length h) h1 (snd kv) = true)) in HF
        as [m Hm].
      2: { intros m m2 a Hmm. by apply ownedWithin_mono. }
      exists (S m). simpl.
      rewrite lookup_app_r, Nat.sub_diag by done. simpl.
      rewrite bool_decide_eq_true_2 by (by apply prefix_length). simpl.
      apply forallb_Forall. eapply Forall_impl; [exact Hm|]. intros c Hc. simpl in Hc.
      apply (ownedWithin_mono m m (length h) (length h) h1); [done..| |done].
      by apply prefix_app_r.
    + intros x s1 s2 [Hh Ha] Hs. split; [by etrans|].
      by apply (arraysHoldNoRefs_heap_mono n s1).
    + intros x cx s1 s2 [m Hm] Hs. exists m.
      by apply (ownedWithin_mono m m (length h) (length h) s1 s2).
    + intros kv s s' kv' _ [Hh Ha] Hx. inv_bind Hx. inversion Hx; subst. simpl.
      split; [exact (copyRecursive_prefix _ _ _ _ _ _ Hx0)|].
      destruct (IH _ _ _ _ _ Ha Hx0) as [m Hm]. exists m.
      apply (ownedWithin_mono m m (length s) (length h) s' s'); try done.
      by apply prefix_length.
    + rewrite forallb_Forall in Hv. eapply Forall_impl; [exact Hv|].
      intros x Hx. by split.
Qed.

(** X9.  The copy owns its cells.  If no array on the way through the
    exported state of [src] holds a reference, every cell that the result
    of [deepCopy] reaches was made by this call: none of them is a cell of
    the heap that [deepCopy] started from, which it leaves as it was. *)
Theorem deepCopy_shares_no_cell
    (n fuel : nat) (h h' : heap) (src c : value) :
  arraysHoldNoRefs n h src = true ->
  deepCopy fuel src h = Ret h' c ->
  h `prefix_of` h'
  /\ exists m, ownedWithin m (length h) h' c = true.
Proof.
  intros Hv Hc. split; [by eapply deepCopy_prefix|]. revert Hc.
  unfold deepCopy.
  destruct src as [| | | | | | |[[t x]|]| |];
    try (by apply (copyRecursive_ownedWithin fuel n)).
  - destruct n as [|n]; [done|]. simpl in Hv.
    intros Hc. inv_bind Hc. inversion Hc; subst.
    destruct (copyRecursive_ownedWithin _ _ _ _ _ _ Hv Hc0) as [m Hm].
    by exists (S m).
  - done.
Qed.




(** ** Expiry *)

(** X11.  An entry found expired is written back, then read again.  [Get]
    of a key whose entry has expired first evicts the entry, which writes
    it back through [evictToDB] and discards its baseline, and then loads
    the row from the store as the write-back left it.  The pointer it
    returns is a new one: the cell it points to is none of the cells that
    existed before the call, so a pointer obtained before the expiry no
    longer reaches the cache. *)
Theorem expired_entry_is_written_back_then_reloaded
    (fuel : nat) (now key : Z) (st s1 : state) (it : item)
    (cells : list cell) (entity c : value) (h1 : heap) :
  withinCapacity st ->
  findItem key (items st) = Some it -> isExpired now it = true ->
  removeElement fuel it st = Ret s1 tt ->
  dbFirst (db s1) (mem s1) key = inr (cells, entity) ->
  deepCopy fuel entity (mem s1 ++ cells) = Ret h1 c ->
  Get fuel now key st
  = Ret (State (db s1) (h1 ++ [CVar entity]) (<[key := c]> (copies s1))
               (Item key (BoxPtrT (Some (length h1))) (now + expiration)
                :: dropItem key (items s1))
               (size st) (trace s1 ++ [LogAdded key]))
        (Ok (Some (length h1)))
  /\ copies s1 = delete key (copies st)
  /\ mem s1 = mem st
  /\ (length (mem st) <= length h1)%nat.
Proof.
  intros [Hpos Hcap] Hfind Hexp Hrm Hfirst Hc.
  destruct (findItem_Some _ _ _ Hfind) as [Hkey Hin].
  destruct (removeElement_Ret _ _ _ _ Hrm) as (Hm & Hsz & Hcp & Hi & _).
  rewrite Hkey in Hcp, Hi.
  split; [|split; [done|split; [done|]]].
  - unfold Get, lruGet, bind, lruGetValue. rewrite Hfind, Hexp.
    rewrite (bind_Ret_step _ _ _ _ _ Hrm). unfold ret.
    unfold lruGetWithLoader, recover, bind. rewrite loadFromDB_unfold.
    rewrite Hfirst, Hc. unfold lruSet, bind. simpl.
    assert (findItem key (items s1) = None) as Habs
      by (rewrite Hi; apply findItem_dropItem).
    rewrite Habs.
    destruct (decide _) as [Hfull|_].
    + exfalso. rewrite Hi, Hsz in Hfull.
      pose proof (dropItem_length_lt _ _ _ Hin Hkey). lia.
    + simpl. by rewrite Hsz.
  - apply deepCopy_prefix, prefix_length in Hc.
    rewrite length_app, Hm in Hc. lia.
Qed.

(** ** The store *)

Lemma removeElement_store fuel it st s :
  removeElement fuel it st = Ret s tt ->
  exists evs, trace s = trace st ++ evs /\ (updatesIn evs = [] -> db s = db st).
Proof.
  rewrite removeElement_unfold, evictToDB_unfold.
  destruct (saveIfModified _ _ _ _) as [s' err| |] eqn:Hs; [|done..].
  destruct (saveIfModified_Ret _ _ _ _ _ _ Hs)
    as (evs & (_ & _ & _ & _ & Ht & Hdb) & Hevs).
  inversion 1; subst; clear H. unfold afterCallback. simpl in *.
  destruct err as [e|]; simpl.
  - exists (evs ++ [LogEvictSaveFailed e; LogEvicted (ikey it)]).
    rewrite Ht, <- !app_assoc. split; [done|].
    rewrite updatesIn_app. intros Hu. apply app_eq_nil in Hu as [Hu _].
    apply Hdb. by destruct Hevs as [->|(old & new & [->| ->])].
  - exists (evs ++ [LogEvicted (ikey it)]).
    rewrite Ht, <- !app_assoc. split; [done|].
    rewrite updatesIn_app. intros Hu. apply app_eq_nil in Hu as [Hu _].
    apply Hdb. by destruct Hevs as [->|(old & new & [->| ->])].
Qed.

Lemma lruSet_store fuel now key v st s :
  lruSet fuel now key v st = Ret s tt ->
  exists evs, trace s = trace st ++ evs /\ (updatesIn evs = [] -> db s = db st).
Proof.
  intros Hs. unfold lruSet in Hs. inv_bind Hs. inv_bind Hs.
  unfold logCacheAdd, modify in *. inversion Hs; subst; clear Hs.
  inversion Hs1; subst; clear Hs1. simpl.
  assert (exists evs, trace s0 = trace st ++ evs
            /\ (updatesIn evs = [] -> db s0 = db st)) as (evs & Ht & Hdb).
  { destruct (findItem key (items st)) as [it|].
    { inversion Hs0; subst. exists []. by rewrite app_nil_r. }
    destruct (decide _);
      [|inversion Hs0; subst; exists []; by rewrite app_nil_r].
    unfold lruEvict in Hs0. destruct (last (items st)) as [it|].
    - destruct a. by eapply removeElement_store.
    - inversion Hs0; subst. exists []. by rewrite app_nil_r. }
  exists (evs ++ [LogAdded key]). rewrite Ht, <- app_assoc. split; [done|].
  rewrite updatesIn_app. intros Hu. apply app_eq_nil in Hu as [Hu _]. auto.
Qed.

Lemma lruGetWithLoader_store fuel now key st s r :
  inSync st ->
  lruGetWithLoader fuel now key st = Ret s r ->
  exists evs, trace s = trace st ++ evs /\ (updatesIn evs = [] -> db s = db st).
Proof.
  intros [_ Hlive]. unfold lruGetWithLoader, recover, bind.
  rewrite loadFromDB_unfold.
  destruct (dbFirst (db st) (mem st) key) as [e|[cells entity]].
  { inversion 1; subst. exists []. by rewrite app_nil_r. }
  destruct (deepCopy fuel entity (mem st ++ cells)) as [h1 c|h1|] eqn:Hc; simpl;
    [| |done].
  - unfold ret.
    match goal with
    | |- match match lruSet ?f ?n ?k ?b ?t with _ => _ end with _ => _ end = _ -> _ =>
        destruct (lruSet f n k b t) as [s1 []|s1|] eqn:Hset
    end; [| |done].
    + inversion 1; subst. by apply lruSet_store in Hset.
    + exfalso. apply (lruSet_no_panic _ _ _ _ _ _) in Hset; [done|]. simpl.
      eapply Forall_impl; [exact Hlive|]. intros it. apply live_prefix.
      etrans; [by apply prefix_app_r|].
      etrans; [exact (deepCopy_prefix _ _ _ _ _ Hc) | by apply prefix_app_r].
  - inversion 1; subst. exists []. simpl. by rewrite app_nil_r.
Qed.

Lemma mapM_purgeToDB_store fuel : forall (l : list item) st s bs,
  mapM (fun it => purgeToDB fuel (ikey it) (ivalue it)) l st = Ret s bs ->
  exists evs, trace s = trace st ++ evs /\ (updatesIn evs = [] -> db s = db st).
Proof.
  induction l as [|it l IH]; intros st s0 a Hs; simpl in Hs.
  - inversion Hs; subst. exists []. by rewrite app_nil_r.
  - inv_bind Hs. inv_bind Hs. inversion Hs; subst; clear Hs. destruct a0.
    destruct (IH _ _ _ Hs1) as (evs2 & Ht2 & Hdb2).
    rewrite purgeToDB_unfold in Hs0.
    destruct (saveIfModified _ _ _ _) as [s' err| |] eqn:Hsave; [|done..].
    destruct (saveIfModified_Ret _ _ _ _ _ _ Hsave)
      as (evs & (_ & _ & _ & _ & Ht & Hdb) & Hevs).
    inversion Hs0; subst; clear Hs0. unfold afterCallback in *. simpl in *.
    assert (updatesIn evs = [] -> evs = []) as Hnil.
    { by destruct Hevs as [->|(old & new & [->| ->])]. }
    destruct err as [e|]; simpl in *.
    + exists (evs ++ [LogPurgeSaveFailed e; LogPurged (ikey it)] ++ evs2).
      rewrite Ht2, Ht, <- !app_assoc. split; [done|].
      rewrite !updatesIn_app. intros Hu.
      apply app_eq_nil in Hu as [Hu1 Hu]. apply app_eq_nil in Hu as [_ Hu2].
      rewrite Hdb2 by done. auto.
    + exists (evs ++ [LogPurged (ikey it)] ++ evs2).
      rewrite Ht2, Ht, <- !app_assoc. split; [done|].
      rewrite !updatesIn_app. intros Hu.
      apply app_eq_nil in Hu as [Hu1 Hu]. apply app_eq_nil in Hu as [_ Hu2].
      rewrite Hdb2 by done. auto.
Qed.

Lemma Get_store fuel now key st s r :
  inSync st ->
  Get fuel now key st = Ret s r ->
  exists evs, trace s = trace st ++ evs /\ (updatesIn evs = [] -> db s = db st).
Proof.
  intros Hsync Hs. unfold Get in Hs. inv_bind Hs.
  assert (s = s0) as ->.
  { destruct a as [[p|tag]|e]; by inversion Hs. }
  clear Hs. unfold lruGet in Hs0. inv_bind Hs0. unfold lruGetValue in Hs1.
  destruct (findItem key (items st)) as [it|] eqn:Hfind.
  - destruct (isExpired now it).
    + inv_bind Hs1. inversion Hs1; subst; clear Hs1. destruct a1.
      destruct (removeElement_inSync _ _ _ _ Hsync Hs2) as (Hsync' & _ & _).
      destruct (removeElement_store _ _ _ _ Hs2) as (evs1 & Ht1 & Hdb1).
      destruct (lruGetWithLoader_store _ _ _ _ _ _ Hsync' Hs0)
        as (evs2 & Ht2 & Hdb2).
      exists (evs1 ++ evs2). rewrite Ht2, Ht1, <- app_assoc. split; [done|].
      rewrite updatesIn_app. intros Hu. apply app_eq_nil in Hu as [Hu1 Hu2].
      rewrite Hdb2, Hdb1; done.
    + inversion Hs1; subst; clear Hs1. inversion Hs0; subst; clear Hs0.
      exists []. simpl. by rewrite app_nil_r.
  - inversion Hs1; subst; clear Hs1. by eapply lruGetWithLoader_store.
Qed.

Lemma Set_store fuel now key v st s err :
  Set_ fuel now key v st = Ret s err ->
  exists evs, trace s = trace st ++ evs /\ (updatesIn evs = [] -> db s = db st).
Proof.
  intros Hs. unfold Set_ in Hs.
  inv_bind Hs. inv_bind Hs. inv_bind Hs. inv_bind Hs.
  apply onHeap_Ret in Hs0 as (h1 & Hc & ->).
  unfold modify in Hs1. inversion Hs1; subst; clear Hs1.
  apply onHeap_Ret in Hs2 as (h2 & Ha & ->).
  inversion Hs; subst; clear Hs. destruct a2.
  by apply lruSet_store in Hs3.
Qed.

Lemma step_store fuel o st s :
  inSync st ->
  step fuel o st = Ret s tt ->
  exists evs, trace s = trace st ++ evs /\ (updatesIn evs = [] -> db s = db st).
Proof.
  intros Hsync Hs. destruct o as [now key|now key v|l v|key|]; simpl in Hs.
  - inv_bind Hs. inversion Hs; subst. by eapply Get_store.
  - inv_bind Hs. inversion Hs; subst. by eapply Set_store.
  - unfold assign in Hs. destruct (mem st !! l) as [[old| |]|]; try done.
    inversion Hs; subst. exists []. simpl. by rewrite app_nil_r.
  - unfold lruRemove in Hs. destruct (findItem key (items st)) as [it|].
    + by eapply removeElement_store.
    + inversion Hs; subst. exists []. by rewrite app_nil_r.
  - unfold Purge, lruPurge in Hs. inv_bind Hs. unfold modify in Hs.
    inversion Hs; subst; clear Hs. simpl.
    by eapply mapM_purgeToDB_store.
Qed.

Lemma runHist_store fuel ops : forall st s g g',
  inSync st -> baselinesFaithful st g ->
  runHist fuel ops g st = Ret s g' ->
  exists evs, trace s = trace st ++ evs /\ (updatesIn evs = [] -> db s = db st).
Proof.
  induction ops as [|o ops IH]; intros st s g g' Hsync HJ Hr; simpl in Hr.
  - inversion Hr; subst. exists []. by rewrite app_nil_r.
  - destruct (step fuel o st) as [s1 []| |] eqn:Hstep; [|done..].
    destruct (step_preserves _ _ _ _ _ Hsync HJ Hstep) as [Hsync1 HJ1].
    destruct (step_store _ _ _ _ Hsync Hstep) as (evs1 & Ht1 & Hdb1).
    destruct (IH _ _ _ _ Hsync1 HJ1 Hr) as (evs2 & Ht2 & Hdb2).
    exists (evs1 ++ evs2). rewrite Ht2, Ht1, <- app_assoc. split; [done|].
    rewrite updatesIn_app. intros Hu. apply app_eq_nil in Hu as [Hu1 Hu2].
    rewrite Hdb2, Hdb1; done.
Qed.

(** X12.  The store is written by write-backs only.  After any sequence of
    operations on a cache built by [NewWithCache], if no update of the store
    has been asked for, the store is what it was when the cache was built:
    no [Get], [Set], purge or assignment changes the store by itself. *)
Theorem store_written_by_writebacks_only
    (fuel : nat) (ops : list op) (d : DB) (sz : Z) (h : heap) (st0 st : state) :
  NewWithCache d sz h = Some st0 ->
  run fuel ops st0 = Ret st tt ->
  updatesIn (trace st) = [] -> db st = d.
Proof.
  unfold NewWithCache. destruct (decide _) as [|Hpos]; [done|].
  intros Hnew Hrun. inversion Hnew; subst st0; clear Hnew.
  destruct (run_runHist _ _ _ _ ∅ Hrun) as [g Hg].
  eapply runHist_store in Hg as (evs & Ht & Hdb).
  - simpl in *. rewrite Ht. auto.
  - split; simpl; [|done]. unfold keysOf. simpl. by rewrite dom_empty_L.
  - intros key b. simpl. by rewrite lookup_empty.
Qed.

(** ** The copy under reflect.DeepEqual *)


(** ** Eviction at capacity *)

Lemma removeElement_updates fuel it st s :
  removeElement fuel it st = Ret s tt ->
  (length (updatesIn (trace s)) <= S (length (updatesIn (trace st))))%nat.
Proof.
  rewrite removeElement_unfold, evictToDB_unfold.
  destruct (saveIfModified _ _ _ _) as [s' err| |] eqn:Hs; [|done..].
  destruct (saveIfModified_Ret _ _ _ _ _ _ Hs)
    as (evs & (_ & _ & _ & _ & Ht & _) & Hevs).
  inversion 1; subst. unfold afterCallback. simpl in Ht.
  assert (length (updatesIn evs) <= 1)%nat as Hle.
  { destruct Hevs as [->|(old & new & [->| ->])]; simpl; lia. }
  destruct err; simpl; rewrite ?updatesIn_app, ?Ht, ?updatesIn_app, ?length_app;
    simpl; lia.
Qed.

(** X14.  At capacity, [Set] of a key that the cache does not hold evicts
    the least recently used entry and nothing else: that entry and its
    baseline are gone, every other entry and baseline is as it was, and the
    store has been asked for at most one update. *)
Theorem Set_at_capacity_evicts_least_recently_used
    (fuel : nat) (now key : Z) (v : value) (st s : state) (err : option error)
    (it : item) :
  findItem key (items st) = None ->
  (size st <= Z.of_nat (length (items st)))%Z ->
  last (items st) = Some it ->
  Set_ fuel now key v st = Ret s err ->
  findItem (ikey it) (items s) = None
  /\ copies s !! ikey it = None
  /\ (forall k, k <> key -> k <> ikey it ->
        findItem k (items s) = findItem k (items st)
        /\ copies s !! k = copies st !! k)
  /\ (length (updatesIn (trace s)) <= S (length (updatesIn (trace st))))%nat.
Proof.
  intros Habs Hfull Hlast Hs. unfold Set_ in Hs.
  inv_bind Hs. inv_bind Hs. inv_bind Hs. inv_bind Hs.
  apply onHeap_Ret in Hs0 as (h1 & Hc & ->).
  unfold modify in Hs1. inversion Hs1; subst; clear Hs1.
  apply onHeap_Ret in Hs2 as (h2 & Ha & ->).
  inversion Hs; subst; clear Hs. destruct a2.
  unfold lruSet in Hs3. simpl in Hs3. rewrite Habs in Hs3.
  inv_bind Hs3. inv_bind Hs3.
  unfold logCacheAdd, modify in *. inversion Hs3; subst; clear Hs3.
  inversion Hs1; subst; clear Hs1. rename Hs0 into Hs.
  destruct (decide _) as [_|]; [|done].
  unfold lruEvict in Hs. simpl in Hs. rewrite Hlast in Hs. destruct a0.
  assert (it ∈ items st) as Hin.
  { apply last_Some in Hlast as [l' Hl']. rewrite Hl'. apply elem_of_app. right. left. }
  pose proof (findItem_None _ _ _ Habs Hin) as Hne.
  pose proof (removeElement_updates _ _ _ _ Hs) as Hu.
  destruct (removeElement_Ret _ _ _ _ Hs) as (_ & _ & Hcp & Hi & _).
  simpl in *. rewrite Hcp, Hi. repeat split.
  - destruct (decide (key = ikey it)) as [Heq|_]; [by rewrite Heq in Hne|].
    rewrite findItem_dropItem_ne by done. apply findItem_dropItem.
  - by rewrite lookup_delete_eq.
  - destruct (decide (key = k)); [done|].
    rewrite !findItem_dropItem_ne; done.
  - rewrite lookup_delete_ne, lookup_insert_ne; done.
  - rewrite updatesIn_app. simpl. rewrite app_nil_r. exact Hu.
Qed.

(** ** No panic *)

Lemma lruGet_Ok_pointer fuel now key st s v :
  Forall (live (mem st)) (items st) ->
  lruGet fuel now key st = Ret s (Ok v) -> exists p, v = BoxPtrT p.
Proof.
  intros Hlive Hs. unfold lruGet in Hs. inv_bind Hs. unfold lruGetValue in Hs0.
  assert (forall t, lruGetWithLoader fuel now key t = Ret s (Ok v) ->
            exists p, v = BoxPtrT p) as Hload.
  { intros t. unfold lruGetWithLoader, recover, bind. rewrite loadFromDB_unfold.
    destruct (dbFirst (db t) (mem t) key) as [e|[cells entity]]; [by inversion 1|].
    destruct (deepCopy fuel entity (mem t ++ cells)) as [h1 c|h1|]; simpl;
      [|by inversion 1|done].
    unfold ret.
    match goal with
    | |- match match lruSet ?f ?n ?k ?b ?t with _ => _ end with _ => _ end = _ -> _ =>
        destruct (lruSet f n k b t) as [s1 []|s1|]
    end; [|by inversion 1|done].
    inversion 1; subst. eauto. }
  destruct (findItem key (items st)) as [it|] eqn:Hfind.
  - destruct (findItem_Some _ _ _ Hfind) as [_ Hin].
    destruct (isExpired now it).
    + inv_bind Hs0. inversion Hs0; subst. eauto.
    + inversion Hs0; subst; clear Hs0. inversion Hs; subst; clear Hs.
      rewrite Forall_forall in Hlive.
      destruct (Hlive _ Hin) as (l & cur & Hv & _). eauto.
  - inversion Hs0; subst. eauto.
Qed.

Lemma Get_no_panic fuel now key st s :
  inSync st -> Get fuel now key st <> Panic s.
Proof.
  intros [_ Hlive] Hs. unfold Get in Hs.
  apply bind_Panic_inv in Hs as [Hs|(s1 & r & Hr & Hs)].
  - unfold lruGet in Hs. apply bind_Panic_inv in Hs as [Hs|(s1 & r & Hr & Hs)].
    + unfold lruGetValue in Hs.
      destruct (findItem key (items st)) as [it|] eqn:Hfind; [|done].
      destruct (findItem_Some _ _ _ Hfind) as [_ Hin].
      destruct (isExpired now it); [|done].
      apply bind_Panic_inv in Hs as [Hs|(s1 & r & _ & Hs)]; [|done].
      apply (removeElement_no_panic _ _ _ _) in Hs; [done|].
      rewrite Forall_forall in Hlive. by apply Hlive.
    + destruct r as [v|]; [done|].
      unfold lruGetWithLoader, recover in Hs.
      match type of Hs with
      | match ?m with _ => _ end = _ => destruct m; done
      end.
  - destruct r as [[p|tag]|e]; [done| |done].
    by destruct (lruGet_Ok_pointer _ _ _ _ _ _ Hlive Hr).
Qed.

Lemma mapM_purgeToDB_no_panic fuel : forall (l : list item) st s,
  Forall (live (mem st)) l ->
  mapM (fun it => purgeToDB fuel (ikey it) (ivalue it)) l st <> Panic s.
Proof.
  induction l as [|it l IH]; intros st s Hlive Hs; simpl in Hs; [done|].
  inversion Hlive as [|? ? Hit Hl]; subst.
  apply bind_Panic_inv in Hs as [Hs|(s1 & [] & Hr & Hs)].
  - rewrite purgeToDB_unfold in Hs.
    destruct (saveIfModified _ _ _ _) as [s' err|s'|] eqn:Hsave; [done| |done].
    by apply (saveIfModified_no_panic _ _ _ _ _ Hit) in Hsave.
  - destruct (purgeToDB_Ret _ _ _ _ _ Hr) as (Hm & _).
    apply bind_Panic_inv in Hs as [Hs|(s2 & bs & _ & Hs)]; [|done].
    apply (IH s1 s); [by rewrite Hm|done].
Qed.

(** X15.  Neither [Get] nor [Purge] panics.  In a state reached by any
    sequence of operations on a cache built by [NewWithCache], the cache
    holds pointers to live entries only, so the type assertions of [Get]
    and of [saveIfModified] hold and no nil pointer is followed: [Get] and
    [Purge] return, unless a comparison or a copy does not end. *)
Theorem Get_and_Purge_never_panic
    (fuel : nat) (ops : list op) (d : DB) (sz : Z) (h : heap) (st0 st : state)
    (now key : Z) :
  NewWithCache d sz h = Some st0 ->
  run fuel ops st0 = Ret st tt ->
  ((exists s r, Get fuel now key st = Ret s r) \/ Get fuel now key st = Diverge)
  /\ ((exists s, Purge fuel st = Ret s tt) \/ Purge fuel st = Diverge).
Proof.
  unfold NewWithCache. destruct (decide _) as [|Hpos]; [done|].
  intros Hnew Hrun. inversion Hnew; subst st0; clear Hnew.
  destruct (run_runHist _ _ _ _ ∅ Hrun) as [g Hg].
  eapply runHist_preserves in Hg as [Hsync _].
  - split.
    + destruct (Get fuel now key st) as [s r|s|] eqn:HG; [left; eauto| |by right].
      by apply Get_no_panic in HG.
    + destruct (Purge fuel st) as [s []|s|] eqn:HP; [left; eauto| |by right].
      unfold Purge, lruPurge in HP.
      apply bind_Panic_inv in HP as [HP|(s1 & bs & _ & HP)]; [|done].
      apply mapM_purgeToDB_no_panic in HP; [done|]. by destruct Hsync.
  - split; simpl; [|done]. unfold keysOf. simpl. by rewrite dom_empty_L.
  - intros k b. simpl. by rewrite lookup_empty.
Qed.
End Synchronizer.

Arguments State {DB}.
Arguments db {DB}.
Arguments mem {DB}.
Arguments copies {DB}.
Arguments items {DB}.
Arguments size {DB}.
Arguments trace {DB}.
Arguments NewWithCache {DB}.
Arguments saveIfModified {DB}.
Arguments evictToDB {DB}.
Arguments purgeToDB {DB}.
Arguments removeElement {DB}.
Arguments lruPurge {DB}.
Arguments loadFromDB {DB}.
Arguments Get {DB}.
Arguments Set_ {DB}.
Arguments Purge {DB}.
Arguments run {DB}.
Arguments runHist {DB}.
Arguments settled {DB}.

(** * The properties at work on the store in memory *)

(** A cache of ten entries over the store of the README. *)
Definition fresh1 : state memDB := State store1 [] ∅ [] 10%Z [].

(** A store of accounts, which have an unexported field. *)
Definition accounts : memDB := [(1%Z, mkAccount 1 "a" 0)].

Definition freshAccounts : state memDB := State accounts [] ∅ [] 10%Z [].

(** [time.Time], whose fields are all unexported, and an entity that has
    one, as the models of gorm do. *)
Definition mkTime (wall ext : Z) : value :=
  VStruct [(Field "wall" "time", VInt wall); (Field "ext" "time", VInt ext);
           (Field "loc" "time", VPtr None)].

Definition mkStamped (id : Z) (createdAt : value) : value :=
  VStruct [(fld "ID", VInt id); (fld "CreatedAt", createdAt)].

Definition stamped : memDB := [(1%Z, mkStamped 1 (mkTime 77 5))].

(** ** Deep copies *)

Example deepCopy_user :
  deepCopy 5 (mkUser 1 "Zhang" 19) [] = Ret [] (mkUser 1 "Zhang" 19).
Proof. reflexivity. Qed.

Example deepCopy_list :
  deepCopy 5 (mkNode 1 (Some 0%nat)) [CVar (mkNode 2 None)]
  = Ret [CVar (mkNode 2 None); CVar (mkNode 2 None)] (mkNode 1 (Some 1%nat)).
Proof. reflexivity. Qed.

Example deepCopy_account :
  deepCopy 5 (mkAccount 1 "a" 7) [] = Ret [] (mkAccount 1 "a" 0).
Proof. reflexivity. Qed.

Example deepCopy_slice :
  deepCopy 5 (VSlice (Some (0, 2, 3)%nat)) [CArr [VInt 1; VInt 2; VInt 3]]
  = Ret [CArr [VInt 1; VInt 2; VInt 3]; CArr [VInt 1; VInt 2; VInt 0]]
        (VSlice (Some (1, 2, 3)%nat)).
Proof. reflexivity. Qed.

(** The scenario of the README and of [TestNewWithCache]: the row is read
    through the cache, a field is assigned, the purge writes it back. *)
Example readme_scenario :
  exists st,
    run memFirst memUpdates 5
      [OpGet 0 1; OpAssign 0%nat (mkUser 1 "Li" 19); OpPurge] fresh1 = Ret st tt
    /\ db st = [(1%Z, mkUser 1 "Li" 19)]
    /\ updatesIn (trace st) = [(mkUser 1 "Zhang" 19, mkUser 1 "Li" 19)].
Proof. eexists. split; [vm_compute; reflexivity|]. by split. Qed.

(** An entry read and left alone expires and is evicted by the next [Get],
    without an update of the store. *)
Example expiry_scenario :
  exists st,
    run memFirst memUpdates 5 [OpGet 0 1; OpGet 3000000000 1] fresh1 = Ret st tt
    /\ db st = store1
    /\ trace st = [LogAdded 1; LogEvicted 1; LogAdded 1].
Proof. eexists. split; [vm_compute; reflexivity|]. by split. Qed.

(** Witness of C7: a list of two nodes. *)
Lemma deepCopy_terminates_on_acyclic_witness :
  acyclic [CVar (mkNode 2 None)] (mkNode 1 (Some 0%nat))
  /\ exists n, forall fuel, (n <= fuel)%nat ->
       (exists h' c, deepCopy fuel (mkNode 1 (Some 0%nat)) [CVar (mkNode 2 None)]
                     = Ret h' c)
       \/ deepCopy fuel (mkNode 1 (Some 0%nat)) [CVar (mkNode 2 None)]
          = Panic [CVar (mkNode 2 None)].
Proof.
  split; [by exists 4%nat|].
  apply deepCopy_terminates_on_acyclic. by exists 4%nat.
Defined.

(** Counterexample to C8 as stated: on a nil interface [deepCopy] panics,
    and on the node that points to itself it never returns. *)
Lemma deepCopy_panics_or_diverges :
  (forall fuel, deepCopy fuel (VIface None) [] = Panic [])
  /\ (forall fuel, deepCopy fuel selfLoop selfLoopHeap = Diverge).
Proof. split; [done|]. intros fuel. apply copyRecursive_selfLoop. Qed.

(** Witness of C8, amended: a struct with a slice. *)
Lemma deepCopy_returns_on_acyclic_witness :
  let h := [CArr [VString "a"; VString "b"]] in
  let v := VStruct [(fld "Tags", VSlice (Some (0, 2, 2)%nat))] in
  acyclic h v /\ v <> VIface None
  /\ exists n, forall fuel, (n <= fuel)%nat ->
       exists h' c, deepCopy fuel v h = Ret h' c /\ h `prefix_of` h'.
Proof.
  intros h v. split; [by exists 3%nat|]. split; [done|].
  apply (deepCopy_returns_on_acyclic h v); [by exists 3%nat | done].
Defined.

(** ** Write-back *)

(** Counterexample to C1 as stated: after [Set] the caller changes the
    unexported field only; the live entry still equals the baseline over
    exported state, and the eviction asks the store for an update. *)
Lemma exported_equality_does_not_decide_writeback :
  exists st s,
    run memFirst memUpdates 5
      [OpSet 0 1 (mkAccount 1 "a" 0); OpAssign 0%nat (mkAccount 1 "a" 5)]
      freshAccounts = Ret st tt
    /\ copies st !! 1%Z = Some (mkAccount 1 "a" 0)
    /\ mem st !! 0%nat = Some (CVar (mkAccount 1 "a" 5))
    /\ eqExported 2 (mem st) (mkAccount 1 "a" 0) (mkAccount 1 "a" 5) = true
    /\ evictToDB memUpdates 5 1 (BoxPtrT (Some 0%nat)) st = Ret s tt
    /\ updatesIn (trace s) = [(mkAccount 1 "a" 0, mkAccount 1 "a" 5)].
Proof.
  eexists _, _. split; [vm_compute; reflexivity|].
  split; [done|]. split; [done|]. split; [done|].
  split; [vm_compute; reflexivity|]. done.
Qed.

(** Witness of C1, amended: the name changed, the eviction writes. *)
Lemma writeback_iff_not_DeepEqual_witness :
  let st := State store1 [CVar (mkUser 1 "Li" 19)]
                  {[1%Z := mkUser 1 "Zhang" 19]}
                  [Item 1 (BoxPtrT (Some 0%nat)) 0] 10%Z [] in
  copies st !! 1%Z = Some (mkUser 1 "Zhang" 19)
  /\ mem st !! 0%nat = Some (CVar (mkUser 1 "Li" 19))
  /\ deepValueEqual 5 (mem st) (mkUser 1 "Zhang" 19) (mkUser 1 "Li" 19) = Some false
  /\ exists s1, evictToDB memUpdates 5 1 (BoxPtrT (Some 0%nat)) st = Ret s1 tt
       /\ copies s1 = delete 1%Z (copies st)
       /\ updatesIn (trace s1) = [(mkUser 1 "Zhang" 19, mkUser 1 "Li" 19)].
Proof.
  intros st. split; [done|]. split; [done|]. split; [done|].
  destruct (writeback_iff_not_DeepEqual memDB memUpdates 5 1 0 st
              (mkUser 1 "Zhang" 19) (mkUser 1 "Li" 19) false)
    as (s1 & s2 & H1 & _ & Hc & _ & Hu & _); [done..|].
  exists s1. by repeat split.
Defined.

(** C2 fails on the code: an entity with a [time.Time] field is loaded, is
    not touched, and is purged; the baseline holds the zero time, the
    comparison finds a difference and the store is asked for an update. *)
Lemma unchanged_entity_written_back :
  exists st,
    run memFirst memUpdates 5 [OpGet 0 1; OpPurge] (State stamped [] ∅ [] 10%Z [])
    = Ret st tt
    /\ updatesIn (trace st)
       = [(mkStamped 1 (mkTime 0 0), mkStamped 1 (mkTime 77 5))].
Proof. eexists. split; [vm_compute; reflexivity|]. done. Qed.

(** The same after a [Set]: nothing is assigned between [Set] and purge. *)
Lemma unchanged_set_written_back :
  exists st,
    run memFirst memUpdates 5 [OpSet 0 1 (mkAccount 1 "a" 5); OpPurge] freshAccounts
    = Ret st tt
    /\ updatesIn (trace st) = [(mkAccount 1 "a" 0, mkAccount 1 "a" 5)].
Proof. eexists. split; [vm_compute; reflexivity|]. done. Qed.

(** Witness of C5: the store refuses the update. *)
Lemma writeback_errors_only_logged_witness :
  let st := State store1 [CVar (mkUser 1 "Li" 19)]
                  {[1%Z := mkUser 1 "Zhang" 19]}
                  [Item 1 (BoxPtrT (Some 0%nat)) 0] 10%Z [] in
  let s := State store1 [CVar (mkUser 1 "Li" 19)]
                 {[1%Z := mkUser 1 "Zhang" 19]}
                 [Item 1 (BoxPtrT (Some 0%nat)) 0] 10%Z
                 [CallUpdates (mkUser 1 "Zhang" 19) (mkUser 1 "Li" 19)] in
  let e := EUpdate (ErrOther "database is locked") in
  saveIfModified brokenUpdates 5 1 (BoxPtrT (Some 0%nat)) st = Ret s (Some e)
  /\ exists s1,
       evictToDB brokenUpdates 5 1 (BoxPtrT (Some 0%nat)) st = Ret s1 tt
       /\ copies s1 = delete 1%Z (copies st)
       /\ trace s1 = trace s ++ [LogEvictSaveFailed e; LogEvicted 1]
       /\ (length (updatesIn (trace s1)) <= S (length (updatesIn (trace st))))%nat.
Proof.
  intros st s e.
  assert (saveIfModified brokenUpdates 5 1 (BoxPtrT (Some 0%nat)) st = Ret s (Some e))
    as Hs by reflexivity.
  split; [exact Hs|].
  destruct (writeback_errors_only_logged memDB brokenUpdates 5 1
              (BoxPtrT (Some 0%nat)) st) as (_ & _ & _ & Herr).
  exact (proj1 (proj2 (Herr s e Hs))).
Defined.

(** Counterexample to C6 as stated: only the unexported field of the live
    entry is assigned, and the purge finds the entry dirty. *)
Lemma unexported_mutation_detected :
  exists st,
    run memFirst memUpdates 5
      [OpSet 0 1 (mkAccount 1 "a" 0); OpAssign 0%nat (mkAccount 1 "a" 5); OpPurge]
      freshAccounts = Ret st tt
    /\ updatesIn (trace st) = [(mkAccount 1 "a" 0, mkAccount 1 "a" 5)].
Proof. eexists. split; [vm_compute; reflexivity|]. done. Qed.

(** Witness of C6, amended: two accounts that differ in [visits] only. *)
Lemma deepCopy_blind_to_unexported_witness :
  Forall2 (fun p q => fst p = fst q
             /\ if exported (fst p) then snd p = snd q
                else zeroOf (snd p) = zeroOf (snd q))
          [(fld "ID", VInt 1); (fld "Name", VString "a"); (unexportedFld "visits", VInt 7)]
          [(fld "ID", VInt 1); (fld "Name", VString "a"); (unexportedFld "visits", VInt 5)]
  /\ deepCopy 5 (mkAccount 1 "a" 5) [] = deepCopy 5 (mkAccount 1 "a" 7) [].
Proof.
  assert (Forall2 (fun p q => fst p = fst q
             /\ if exported (fst p) then snd p = snd q
                else zeroOf (snd p) = zeroOf (snd q))
          [(fld "ID", VInt 1); (fld "Name", VString "a"); (unexportedFld "visits", VInt 7)]
          [(fld "ID", VInt 1); (fld "Name", VString "a"); (unexportedFld "visits", VInt 5)])
    as HF by (repeat constructor).
  split; [exact HF|].
  exact (proj2 (deepCopy_blind_to_unexported 5 []
                  [(fld "ID", VInt 1); (fld "Name", VString "a");
                   (unexportedFld "visits", VInt 7)]) _ HF).
Defined.

(** ** Load on a miss *)

(** A miss on an expired entry: the key was set, its entry has expired and
    the store has no row for it; the [Get] evicts the entry, which removes
    its baseline, and the load that follows fails and adds nothing. *)
Example failed_load_after_expiry :
  exists st st',
    run memFirst memUpdates 5 [OpSet 0 1 (mkUser 1 "Zhang" 19)]
      (State [] [] ∅ [] 10%Z []) = Ret st tt
    /\ Get memFirst memUpdates 5 3000000000 1 st
       = Ret st' (Err (ELoad ErrRecordNotFound))
    /\ copies st !! 1%Z = Some (mkUser 1 "Zhang" 19)
    /\ copies st' !! 1%Z = None.
Proof.
  eexists _, _. split; [vm_compute; reflexivity|].
  split; [vm_compute; reflexivity|]. done.
Qed.

(** Witness of C4: a miss on a key the store does not have. *)
Lemma load_failure_creates_no_state_witness :
  findItem 2 (items fresh1) = None
  /\ memFirst (db fresh1) (mem fresh1) 2 = inl ErrRecordNotFound
  /\ Get memFirst memUpdates 5 0 2 fresh1
     = Ret fresh1 (Err (ELoad ErrRecordNotFound)).
Proof.
  split; [done|]. split; [done|].
  by apply (proj1 (load_failure_creates_no_state memDB memFirst memUpdates 5 0 2 fresh1)).
Defined.

(** ** Round trip *)

(** Counterexample to C3 as stated: [Set] of the node that points to itself
    never returns, and [Set] of a nil interface panics. *)
Lemma set_of_cyclic_value_diverges :
  (forall fuel, Set_ memUpdates fuel 0 1 selfLoop
                  (State store1 selfLoopHeap ∅ [] 10%Z []) = Diverge)
  /\ (forall fuel, Set_ memUpdates fuel 0 1 (VIface None) fresh1 = Panic fresh1).
Proof.
  split; intros fuel; [|done].
  unfold Set_, bind, onHeap. simpl.
  change (deepCopy fuel selfLoop) with (copyRecursive fuel selfLoop (zeroOf selfLoop)).
  by rewrite copyRecursive_selfLoop.
Qed.

(** Witness of C3, amended: the cache is full, the [Set] evicts. *)
Lemma set_then_get_round_trip_witness :
  let st := State store1 [CVar (mkUser 2 "Wang" 30)]
                  {[2%Z := mkUser 2 "Wang" 30]}
                  [Item 2 (BoxPtrT (Some 0%nat)) 100] 1%Z [] in
  let v := mkUser 1 "Zhang" 19 in
  acyclicWithin 3 (mem st) v = true /\ v <> VIface None /\ settled 3 st
  /\ exists s1 s2 l,
       Set_ memUpdates 5 0 1 v st = Ret s1 None
       /\ Get memFirst memUpdates 5 1 1 s1 = Ret s2 (Ok (Some l))
       /\ mem s2 !! l = Some (CVar v)
       /\ mem st `prefix_of` mem s2.
Proof.
  intros st v.
  assert (settled 3 st) as Hst.
  { intros it Hin. apply list_elem_of_singleton in Hin as ->.
    exists 0%nat, (mkUser 2 "Wang" 30). split; [done|]. split; [done|].
    intros old Hold. simpl in Hold. rewrite lookup_singleton_eq in Hold.
    inversion Hold; subst. by exists true. }
  split; [done|]. split; [done|]. split; [exact Hst|].
  apply (set_then_get_round_trip memDB memFirst memUpdates 3 0 1 1 v st 5);
    [done|done|exact Hst|unfold expiration; lia|lia].
Defined.

(** ** Registry and cache *)

(** Witness of C9: a cache of one entry; the load of key 1, an assignment,
    then the [Set] of key 2, which evicts key 1 and writes it back. *)
Lemma registry_mirrors_cache_witness :
  exists st0 st,
    NewWithCache store1 1 [] = Some st0
    /\ run memFirst memUpdates 5
         [OpGet 0 1; OpAssign 0%nat (mkUser 1 "Li" 19);
          OpSet 1 2 (mkUser 2 "Wang" 30)] st0 = Ret st tt
    /\ dom (copies st) = keysOf (items st)
    /\ db st = [(1%Z, mkUser 1 "Li" 19)].
Proof.
  eexists _, _. split; [reflexivity|].
  split; [vm_compute; reflexivity|].
  split; [|reflexivity].
  refine (proj1 (registry_mirrors_cache memDB memFirst memUpdates 5
                   [OpGet 0 1; OpAssign 0%nat (mkUser 1 "Li" 19);
                    OpSet 1 2 (mkUser 2 "Wang" 30)] store1 1 [] _ _ eq_refl _)).
  vm_compute; reflexivity.
Defined.

(** * The further properties at work on the store in memory *)

Arguments inSync {DB}.
Arguments withinCapacity {DB}.

(** The user of the README, changed by the caller and not yet written
    back: the baseline holds the name read, the live entry the new one. *)
Definition changedUser (exp : Z) (sz : Z) : state memDB :=
  State store1 [CVar (mkUser 1 "Li" 19)] {[1%Z := mkUser 1 "Zhang" 19]}
        [Item 1 (BoxPtrT (Some 0%nat)) exp] sz [].


(** Witness of X1: a list of two nodes. *)
Lemma deepCopy_equals_original_over_exported_state_witness :
  let h := [CVar (mkNode 2 None)] in
  let v := mkNode 1 (Some 0%nat) in
  acyclicWithin 4 h v = true /\ v <> VIface None
  /\ exists h' c m,
       deepCopy 5 v h = Ret h' c /\ h `prefix_of` h'
       /\ eqExported m h' c v = true.
Proof.
  intros h v. split; [done|]. split; [done|].
  apply (deepCopy_equals_original_over_exported_state 4 5 h v); [done|done|lia].
Defined.

(** Witness of X2: the name assigned and not yet written back is lost when
    the key is set again. *)
Lemma Set_on_cached_key_overwrites_without_writeback_witness :
  let st := changedUser 100 10 in
  let v := mkUser 1 "Wang" 19 in
  findItem 1 (items st) = Some (Item 1 (BoxPtrT (Some 0%nat)) 100)
  /\ deepCopy 5 v (mem st) = Ret (mem st) v
  /\ exists s,
       Set_ memUpdates 5 0 1 v st = Ret s None
       /\ db s = store1 /\ updatesIn (trace s) = []
       /\ copies s !! 1%Z = Some v.
Proof.
  intros st v. split; [done|]. split; [done|].
  eexists. split.
  - by apply (Set_on_cached_key_overwrites_without_writeback memDB memUpdates
                5 0 1 v st (Item 1 (BoxPtrT (Some 0%nat)) 100) (mem st) v).
  - done.
Defined.

(** Witness of X3: the cache is full, the [Set] evicts key 1 and keeps the
    baseline of key 2. *)
Lemma Set_records_baseline_and_entry_witness :
  let st := changedUser 100 1 in
  let v := mkUser 2 "Wang" 30 in
  exists s,
    Set_ memUpdates 5 0 2 v st = Ret s None
    /\ exists h1 c,
         deepCopy 5 v (mem st) = Ret h1 c
         /\ copies s !! 2%Z = Some c
         /\ findItem 2 (items s)
            = Some (Item 2 (BoxPtrT (Some (length h1))) (0 + expiration))
         /\ mem s = h1 ++ [CVar v].
Proof.
  intros st v. eexists. split; [vm_compute; reflexivity|].
  refine (proj2 (Set_records_baseline_and_entry memDB memUpdates 5 0 2 v st _ None _)).
  vm_compute; reflexivity.
Defined.

(** Witness of X4: the row of the README, read twice. *)
Lemma Get_is_repeatable_witness :
  exists s1,
    Get memFirst memUpdates 5 0 1 fresh1 = Ret s1 (Ok (Some 0%nat))
    /\ exists e,
         findItem 1 (items s1) = Some (Item 1 (BoxPtrT (Some 0%nat)) e)
         /\ (0 <= e)%Z
         /\ forall now', (now' <= e)%Z ->
              Get memFirst memUpdates 5 now' 1 s1
              = Ret (State (db s1) (mem s1) (copies s1)
                           (Item 1 (BoxPtrT (Some 0%nat)) e :: dropItem 1 (items s1))
                           (size s1) (trace s1))
                    (Ok (Some 0%nat)).
Proof.
  eexists. split; [vm_compute; reflexivity|].
  refine (Get_is_repeatable memDB memFirst memUpdates 5 0 1 fresh1 _ (Some 0%nat) _).
  vm_compute; reflexivity.
Defined.

(** Witness of X5: the purge of the changed user. *)
Lemma Purge_flushes_and_clears_witness :
  let st := changedUser 100 10 in
  inSync st /\ settled 3 st
  /\ exists s,
       Purge memUpdates 5 st = Ret s tt
       /\ items s = [] /\ copies s = ∅ /\ mem s = mem st /\ size s = size st
       /\ (length (updatesIn (trace s))
           <= length (updatesIn (trace st)) + length (items st))%nat.
Proof.
  intros st.
  assert (inSync st) as Hsync.
  { split.
    - unfold keysOf. simpl. rewrite dom_singleton_L. set_solver.
    - constructor; [|constructor]. by exists 0%nat, (mkUser 1 "Li" 19). }
  assert (settled 3 st) as Hst.
  { intros it Hin. apply list_elem_of_singleton in Hin as ->.
    exists 0%nat, (mkUser 1 "Li" 19). split; [done|]. split; [done|].
    intros old Hold. simpl in Hold. rewrite lookup_singleton_eq in Hold.
    inversion Hold; subst. by exists false. }
  split; [exact Hsync|]. split; [exact Hst|].
  apply (Purge_flushes_and_clears memDB memUpdates 3 5 st Hsync Hst). lia.
Defined.

(** Witness of X6: a cache of one entry, two keys. *)
Lemma cache_and_registry_within_capacity_witness :
  exists st0 st,
    NewWithCache store1 1 [] = Some st0
    /\ run memFirst memUpdates 5
         [OpGet 0 1; OpSet 1 2 (mkUser 2 "Wang" 30)] st0 = Ret st tt
    /\ size st = 1%Z
    /\ (Z.of_nat (length (items st)) <= 1)%Z
    /\ (Z.of_nat (base.size (copies st)) <= 1)%Z.
Proof.
  eexists _, _. split; [reflexivity|].
  split; [vm_compute; reflexivity|].
  refine (cache_and_registry_within_capacity memDB memFirst memUpdates 5
            [OpGet 0 1; OpSet 1 2 (mkUser 2 "Wang" 30)] store1 1 [] _ _ eq_refl _).
  vm_compute; reflexivity.
Defined.

(** Witness of X7: the name of the user of the README is assigned. *)
Lemma assigned_exported_field_is_written_back_witness :
  let fs := [(fld "ID", VInt 1); (fld "Name", VString "Zhang"); (fld "Age", VInt 19)] in
  let st := changedUser 100 10 in
  reproducible 2 [] (VStruct fs) = true
  /\ deepCopy 5 (VStruct fs) [] = Ret [] (VStruct fs)
  /\ copies st !! 1%Z = Some (VStruct fs)
  /\ fs !! 1%nat = Some (fld "Name", VString "Zhang")
  /\ mem st !! 0%nat
     = Some (CVar (VStruct (<[1%nat := (fld "Name", VString "Li")]> fs)))
  /\ exists m, forall fuel', (m <= fuel')%nat ->
       exists s1 s2,
         evictToDB memUpdates fuel' 1 (BoxPtrT (Some 0%nat)) st = Ret s1 tt
         /\ purgeToDB memUpdates fuel' 1 (BoxPtrT (Some 0%nat)) st = Ret s2 tt
         /\ updatesIn (trace s1)
            = updatesIn (trace st)
              ++ [(VStruct fs, VStruct (<[1%nat := (fld "Name", VString "Li")]> fs))]
         /\ updatesIn (trace s2)
            = updatesIn (trace st)
              ++ [(VStruct fs, VStruct (<[1%nat := (fld "Name", VString "Li")]> fs))]
         /\ db s1 = fst (memUpdates (db st) (mem st) (VStruct fs)
                           (VStruct (<[1%nat := (fld "Name", VString "Li")]> fs)))
         /\ db s2 = db s1.
Proof.
  intros fs st. split; [done|]. split; [done|]. split; [done|]. split; [done|].
  split; [done|].
  apply (assigned_exported_field_is_written_back memDB memUpdates 2 5 1 fs
           (VStruct fs) [] [] st 0%nat 1%nat (fld "Name")
           (VString "Zhang") (VString "Li")); try done.
  apply prefix_nil.
Defined.

(** Witness of X8: the sequence of the test on the store of the README. *)
Lemma load_assign_purge_writes_back_witness :
  let zhang := mkUser 1 "Zhang" 19 in
  let li := mkUser 1 "Li" 19 in
  NewWithCache store1 10 [] = Some fresh1
  /\ memFirst store1 [] 1 = inr ([], zhang)
  /\ deepCopy 5 zhang ([] ++ []) = Ret [] zhang
  /\ deepValueEqual 5 ([] ++ [CVar li]) zhang li = Some false
  /\ exists s1 s,
       Get memFirst memUpdates 5 0 1 fresh1 = Ret s1 (Ok (Some 0%nat))
       /\ mem s1 = [CVar zhang]
       /\ run memFirst memUpdates 5 [OpGet 0 1; OpAssign 0%nat li; OpPurge] fresh1
          = Ret s tt
       /\ db s = fst (memUpdates store1 [CVar li] zhang li)
       /\ updatesIn (trace s) = [(zhang, li)]
       /\ items s = [] /\ copies s = ∅.
Proof.
  intros zhang li. split; [done|]. split; [done|]. split; [done|]. split; [done|].
  exact (load_assign_purge_writes_back memDB memFirst memUpdates 5 0 1 store1 10 []
           fresh1 [] zhang zhang li [] false eq_refl eq_refl eq_refl eq_refl).
Defined.

(** Witness of X9: a struct with a slice of strings. *)
Lemma deepCopy_shares_no_cell_witness :
  let h := [CArr [VString "a"; VString "b"]] in
  let v := VStruct [(fld "Tags", VSlice (Some (0, 2, 2)%nat))] in
  let h' := [CArr [VString "a"; VString "b"]; CArr [VString "a"; VString "b"]] in
  let c := VStruct [(fld "Tags", VSlice (Some (1, 2, 2)%nat))] in
  arraysHoldNoRefs 3 h v = true
  /\ deepCopy 5 v h = Ret h' c
  /\ h `prefix_of` h'
  /\ exists m, ownedWithin m (length h) h' c = true.
Proof.
  intros h v h' c. split; [done|]. split; [done|].
  by apply (deepCopy_shares_no_cell 3 5 h h' v c).
Defined.


(** Witness of X11: the changed user has expired; the [Get] writes the new
    name to the store and reads the row again. *)
Lemma expired_entry_is_written_back_then_reloaded_witness :
  let st := changedUser 2000000000 10 in
  let it := Item 1 (BoxPtrT (Some 0%nat)) 2000000000 in
  let li := mkUser 1 "Li" 19 in
  exists s1,
    withinCapacity st
    /\ findItem 1 (items st) = Some it
    /\ isExpired 3000000000 it = true
    /\ removeElement memUpdates 5 it st = Ret s1 tt
    /\ db s1 = [(1%Z, li)]
    /\ memFirst (db s1) (mem s1) 1 = inr ([], li)
    /\ deepCopy 5 li (mem s1 ++ []) = Ret [CVar li] li
    /\ Get memFirst memUpdates 5 3000000000 1 st
       = Ret (State (db s1) ([CVar li] ++ [CVar li]) (<[1%Z := li]> (copies s1))
                    (Item 1 (BoxPtrT (Some 1%nat)) (3000000000 + expiration)
                     :: dropItem 1 (items s1))
                    (size st) (trace s1 ++ [LogAdded 1]))
             (Ok (Some 1%nat)).
Proof.
  intros st it li. eexists.
  assert (withinCapacity st) as Hcap by (unfold withinCapacity; simpl; lia).
  split; [exact Hcap|]. split; [done|]. split; [done|].
  split; [vm_compute; reflexivity|]. split; [done|]. split; [done|].
  split; [done|].
  refine (proj1 (expired_entry_is_written_back_then_reloaded memDB memFirst
                   memUpdates 5 3000000000 1 st _ it [] li li [CVar li]
                   Hcap _ _ _ _ _)); vm_compute; reflexivity.
Defined.

(** Witness of X12: a row is read and another is set; nothing is written. *)
Lemma store_written_by_writebacks_only_witness :
  exists st0 st,
    NewWithCache store1 10 [] = Some st0
    /\ run memFirst memUpdates 5
         [OpGet 0 1; OpSet 1 2 (mkUser 2 "Wang" 30)] st0 = Ret st tt
    /\ updatesIn (trace st) = []
    /\ db st = store1.
Proof.
  eexists _, _. split; [reflexivity|].
  split; [vm_compute; reflexivity|]. split; [reflexivity|].
  refine (store_written_by_writebacks_only memDB memFirst memUpdates 5
            [OpGet 0 1; OpSet 1 2 (mkUser 2 "Wang" 30)] store1 10 [] _ _
            eq_refl _ _); vm_compute; reflexivity.
Defined.


(** Witness of X14: a cache of one entry that holds key 1; key 2 is set. *)
Lemma Set_at_capacity_evicts_least_recently_used_witness :
  let st := changedUser 100 1 in
  let it := Item 1 (BoxPtrT (Some 0%nat)) 100 in
  exists s,
    findItem 2 (items st) = None
    /\ (size st <= Z.of_nat (length (items st)))%Z
    /\ last (items st) = Some it
    /\ Set_ memUpdates 5 0 2 (mkUser 2 "Wang" 30) st = Ret s None
    /\ findItem 1 (items s) = None
    /\ copies s !! 1%Z = None
    /\ db s = [(1%Z, mkUser 1 "Li" 19)]
    /\ (length (updatesIn (trace s)) <= S (length (updatesIn (trace st))))%nat.
Proof.
  intros st it. eexists.
  split; [done|]. split; [simpl; lia|]. split; [done|].
  split; [vm_compute; reflexivity|].
  destruct (Set_at_capacity_evicts_least_recently_used memDB memUpdates 5 0 2
              (mkUser 2 "Wang" 30) st _ None it eq_refl ltac:(simpl; lia) eq_refl
              ltac:(vm_compute; reflexivity)) as (H1 & H2 & _ & H4).
  simpl in H1, H2.
  split; [exact H1|]. split; [exact H2|]. split; [reflexivity|exact H4].
Defined.

(** Witness of X15: after the load and the assignment of the README. *)
Lemma Get_and_Purge_never_panic_witness :
  exists st0 st,
    NewWithCache store1 10 [] = Some st0
    /\ run memFirst memUpdates 5
         [OpGet 0 1; OpAssign 0%nat (mkUser 1 "Li" 19)] st0 = Ret st tt
    /\ ((exists s r, Get memFirst memUpdates 5 1 1 st = Ret s r)
        \/ Get memFirst memUpdates 5 1 1 st = Diverge)
    /\ ((exists s, Purge memUpdates 5 st = Ret s tt)
        \/ Purge memUpdates 5 st = Diverge).
Proof.
  eexists _, _. split; [reflexivity|].
  split; [vm_compute; reflexivity|].
  refine (Get_and_Purge_never_panic memDB memFirst memUpdates 5
            [OpGet 0 1; OpAssign 0%nat (mkUser 1 "Li" 19)] store1 10 [] _ _ 1 1
            eq_refl _).
  vm_compute; reflexivity.
Defined.
